(** * Trade_data_service: the fuzzy code-resolution engine

    A shallow embedding of

    - [src/utils/fuzzy_search.py]  (class [FuzzySearch]: [search],
      [find_best_match]),
    - [src/extractor.py]           (class [TradeDataExtractor]: [__init__],
      [_load_default_codes], [_get_code], [extract_data], [save_to_csv]),
    - [src/utils/file_handlers.py] (class [FileHandler]: [load_hs_codes],
      [save_dataframe]),
    - [src/utils/validators.py]    ([validate_args]) and the value that
      [handle_list_operations] of [data_extractor.py] returns,
    - the part of CPython's [Lib/difflib.py] that
      [difflib.SequenceMatcher(None, a, b).ratio()] executes
      ([__chain_b], [find_longest_match], [get_matching_blocks], [ratio],
      [_calculate_ratio]),

    followed by the properties of the resolution engine.

    Conventions of the embedding.

    - A Python [str] is a Stdlib [string]; a character is its code point,
      restricted to U+0000..U+00FF (the [ascii] type read as Latin-1).
      [str.lower] and [str.isdigit] are modelled exactly on that range.
    - A Python [int] that can be negative ([max_results], the codes) is a
      [Z]; list indices and lengths, which are never negative, are [nat].
    - A Python [float] similarity is an exact rational ([Q]).  The scorer
      computes [2.0 * matches / length] with one correctly rounded division
      of two small integers, so the order and the equalities between
      scores, and between a score and the literals 0.5, 0.6 and 0.9, are
      those of the exact quotients for every string shorter than 2^26
      characters.
    - A [dict] whose iteration order is observable (the code -> name
      mapping) is the list of its items in iteration order; the dicts
      internal to difflib, whose order is not observable, are [gmap]s.
    - [int] converts a digit string of at most 4300 digits and raises
      [ValueError] on a longer one: the limit of the interpreter
      ([sys.get_int_max_str_digits()]) at its default, which the
      repository does not change.
    - The [print] calls write to standard output only and are left out.
    - A [pandas.DataFrame] is kept abstract, with the operations the code
      uses on it as parameters; so are the database ([execute_query], a
      function of the query and its parameters that returns [None] on
      every error) and [_enrich_dataframe].
    - The files are a [gmap] from paths to contents, with a predicate for
      the paths that cannot be opened for writing.
    - The JSON document read by [load_hs_codes] is the list of its
      ['results']; an element is an object or another value, the value
      under ['id'] is a string or another value with its truth value, and
      the value under ['text'], if there is one, is a string.
    - A list is read by index with [!!], which has no result where Python
      raises [IndexError].  The rectangles that [get_matching_blocks] hands
      to [find_longest_match] lie inside the two sequences
      ([queue_loop_in_range]) and every loop tests an index against the
      rectangle before it reads, so no read of [ratio] is out of range. *)

From Stdlib Require Import ZArith QArith String Ascii Lia Permutation DecimalString.
From stdpp Require Import gmap strings list sorting.

Close Scope Q_scope.
Open Scope nat_scope.

(* ===================================================================== *)
(** * difflib.SequenceMatcher                                              *)
(* ===================================================================== *)

Module difflib.

(** [Match = namedtuple('Match', 'a b size')] *)
Record Match := mkMatch { Match_a : nat; Match_b : nat; Match_size : nat }.

(** A sub-problem [(alo, ahi, blo, bhi)] waiting in [queue]. *)
Definition rect : Type := nat * nat * nat * nat.

Section SequenceMatcher.
Context `{Countable A}.
Implicit Types (a b : list A) (b2j : gmap A (list nat)).
Implicit Types (j2len newj2len : gmap nat nat) (best : Match).

(** ** [__chain_b] *)

(** [indices = b2j.setdefault(elt, []); indices.append(i)] *)
Definition setdefault_append b2j (elt : A) (i : nat) : gmap A (list nat) :=
  <[elt := default [] (b2j !! elt) ++ [i]]> b2j.

(** [for i, elt in enumerate(b): ...], the counter starting at [i]. *)
Fixpoint enumerate_b (i : nat) b b2j : gmap A (list nat) :=
  match b with
  | [] => b2j
  | elt :: b' => enumerate_b (S i) b' (setdefault_append b2j elt i)
  end.

(** [isjunk] is [None] in every call of the repository, so the junk
    purge is skipped and [bjunk] stays the empty set. *)
Definition bjunk : gset A := ∅.

(** [autojunk] keeps its default [True]: when [n >= 200], the elements
    with more than [n // 100 + 1] occurrences are popular. *)
Definition bpopular (n : nat) b2j : gset A :=
  if 200 <=? n then
    let ntest := n / 100 + 1 in
    dom (filter (λ kv, ntest < length kv.2) b2j)
  else ∅.

(** [for elt in popular: del b2j[elt]] *)
Definition chain_b b : gmap A (list nat) :=
  let b2j := enumerate_b 0 b ∅ in
  let popular := bpopular (length b) b2j in
  filter (λ kv, kv.1 ∉ popular) b2j.

(** ** [find_longest_match] *)

(** [j2lenget(j-1, 0)]: the key [-1] is never in [j2len]. *)
Definition j2lenget_pred j2len (j : nat) : nat :=
  match j with
  | 0 => 0
  | S j' => default 0 (j2len !! j')
  end.

(** [b2j.get(a[i], nothing)] *)
Definition b2j_get b2j a (i : nat) : list nat :=
  match a !! i with
  | Some elt => default [] (b2j !! elt)
  | None => []
  end.

(** The inner loop [for j in b2j.get(a[i], nothing)], with its
    [continue] and [break]. *)
Fixpoint scan_indices (i blo bhi : nat) j2len (js : list nat) newj2len best
  : gmap nat nat * Match :=
  match js with
  | [] => (newj2len, best)
  | j :: js' =>
      if j <? blo then scan_indices i blo bhi j2len js' newj2len best
      else if bhi <=? j then (newj2len, best)
      else
        let k := j2lenget_pred j2len j + 1 in
        let best' :=
          if Match_size best <? k then mkMatch (i + 1 - k) (j + 1 - k) k
          else best in
        scan_indices i blo bhi j2len js' (<[j := k]> newj2len) best'
  end.

(** The outer loop [for i in range(alo, ahi)]; [rows] is that range. *)
Fixpoint scan_rows a b2j (blo bhi : nat) (rows : list nat) j2len best : Match :=
  match rows with
  | [] => best
  | i :: rows' =>
      let '(newj2len, best') :=
        scan_indices i blo bhi j2len (b2j_get b2j a i) ∅ best in
      scan_rows a b2j blo bhi rows' newj2len best'
  end.

(** [isbjunk(b[j])] and [a[i] == b[j]] on elements read by index. *)
Definition isbjunk (y : option A) : bool :=
  match y with
  | Some elt => bool_decide (elt ∈ bjunk)
  | None => false
  end.

Definition elt_eqb (x y : option A) : bool :=
  match x, y with
  | Some u, Some v => bool_decide (u = v)
  | _, _ => false
  end.

(** [while besti > alo and bestj > blo and <junk test on b[bestj-1]> and
    a[besti-1] == b[bestj-1]]; the junk test is [not isbjunk(..)] in the
    first pair of loops ([junk = false]) and [isbjunk(..)] in the second
    ([junk = true]). *)
Fixpoint extend_left (junk : bool) a b (alo blo besti bestj bestsize : nat)
  : Match :=
  match besti with
  | S i' =>
      match bestj with
      | S j' =>
          if (alo <? besti) && (blo <? bestj)
             && Bool.eqb (isbjunk (b !! j')) junk
             && elt_eqb (a !! i') (b !! j')
          then extend_left junk a b alo blo i' j' (bestsize + 1)
          else mkMatch besti bestj bestsize
      | 0 => mkMatch besti bestj bestsize
      end
  | 0 => mkMatch besti bestj bestsize
  end.

(** [while besti+bestsize < ahi and bestj+bestsize < bhi and ...]; each
    round brings [besti+bestsize] one closer to [ahi], so [ahi - (besti +
    bestsize)] rounds always suffice ([extend_right_unfold]). *)
Fixpoint extend_right_loop (rounds : nat) (junk : bool) a b
    (ahi bhi besti bestj bestsize : nat) : Match :=
  match rounds with
  | 0 => mkMatch besti bestj bestsize
  | S rounds' =>
      if (besti + bestsize <? ahi) && (bestj + bestsize <? bhi)
         && Bool.eqb (isbjunk (b !! (bestj + bestsize))) junk
         && elt_eqb (a !! (besti + bestsize)) (b !! (bestj + bestsize))
      then extend_right_loop rounds' junk a b ahi bhi besti bestj (bestsize + 1)
      else mkMatch besti bestj bestsize
  end.

Definition extend_right (junk : bool) a b (ahi bhi besti bestj bestsize : nat)
  : Match :=
  extend_right_loop (ahi - (besti + bestsize)) junk a b ahi bhi
    besti bestj bestsize.

Definition find_longest_match a b b2j (alo ahi blo bhi : nat) : Match :=
  let best := scan_rows a b2j blo bhi (seq alo (ahi - alo)) ∅ (mkMatch alo blo 0) in
  let best := extend_left false a b alo blo
                (Match_a best) (Match_b best) (Match_size best) in
  let best := extend_right false a b ahi bhi
                (Match_a best) (Match_b best) (Match_size best) in
  let best := extend_left true a b alo blo
                (Match_a best) (Match_b best) (Match_size best) in
  extend_right true a b ahi bhi (Match_a best) (Match_b best) (Match_size best).

(** ** [get_matching_blocks] *)

(** One round of [while queue:].  [queue] is a stack: its head is the
    element that [queue.pop()] takes and [queue.append] pushes. *)
Definition queue_step a b b2j (st : list rect * list Match)
  : option (list rect * list Match) :=
  match st.1 with
  | [] => None
  | (alo, ahi, blo, bhi) :: queue =>
      let x := find_longest_match a b b2j alo ahi blo bhi in
      let i := Match_a x in
      let j := Match_b x in
      let k := Match_size x in
      if 0 <? k then
        let matching_blocks := st.2 ++ [x] in
        let queue :=
          if (alo <? i) && (blo <? j) then (alo, i, blo, j) :: queue
          else queue in
        let queue :=
          if (i + k <? ahi) && (j + k <? bhi) then (i + k, ahi, j + k, bhi) :: queue
          else queue in
        Some (queue, matching_blocks)
      else Some (queue, st.2)
  end.

Fixpoint queue_loop (rounds : nat) a b b2j (st : list rect * list Match)
  : list rect * list Match :=
  match rounds with
  | 0 => st
  | S rounds' =>
      match queue_step a b b2j st with
      | None => st
      | Some st' => queue_loop rounds' a b b2j st'
      end
  end.

(** Tuple comparison, as [matching_blocks.sort()] uses it. *)
Definition Match_ltb (x y : Match) : bool :=
  (Match_a x <? Match_a y)
  || ((Match_a x =? Match_a y)
      && ((Match_b x <? Match_b y)
          || ((Match_b x =? Match_b y) && (Match_size x <? Match_size y)))).

Fixpoint insert_block (x : Match) (l : list Match) : list Match :=
  match l with
  | [] => [x]
  | y :: l' => if Match_ltb y x then y :: insert_block x l' else x :: l
  end.

Definition sort_blocks (l : list Match) : list Match :=
  foldr insert_block [] l.

(** The loop collapsing adjacent blocks, [(i1, j1, k1)] being the block
    to compare against; the last line is the [if k1:] after the loop. *)
Fixpoint collapse (i1 j1 k1 : nat) (blocks non_adjacent : list Match)
  : list Match :=
  match blocks with
  | [] => if 0 <? k1 then non_adjacent ++ [mkMatch i1 j1 k1] else non_adjacent
  | x :: blocks' =>
      let i2 := Match_a x in
      let j2 := Match_b x in
      let k2 := Match_size x in
      if (i1 + k1 =? i2) && (j1 + k1 =? j2)
      then collapse i1 j1 (k1 + k2) blocks' non_adjacent
      else collapse i2 j2 k2 blocks'
             (if 0 <? k1 then non_adjacent ++ [mkMatch i1 j1 k1]
              else non_adjacent)
  end.

(** The blocks appended by the [while queue:] loop, before sorting.  A
    round removes a rectangle of width [w] and adds rectangles of total
    width below [w], so [2 * la + 1] rounds empty the queue
    ([queue_loop_empties]). *)
Definition raw_blocks a b : list rect * list Match :=
  let la := length a in
  let lb := length b in
  queue_loop (2 * la + 1) a b (chain_b b) ([(0, la, 0, lb)], []).

Definition get_matching_blocks a b : list Match :=
  let matching_blocks := sort_blocks (raw_blocks a b).2 in
  let non_adjacent := collapse 0 0 0 matching_blocks [] in
  non_adjacent ++ [mkMatch (length a) (length b) 0].

(** ** [ratio] *)

Definition _calculate_ratio (matches length : nat) : Q :=
  if length =? 0 then 1%Q
  else (2 * inject_Z (Z.of_nat matches) / inject_Z (Z.of_nat length))%Q.

Definition ratio a b : Q :=
  let matches := sum_list_with Match_size (get_matching_blocks a b) in
  _calculate_ratio matches (length a + length b).

End SequenceMatcher.

End difflib.

(* ===================================================================== *)
(** * The [str] methods the engine calls                                   *)
(* ===================================================================== *)

Module Str.

(** [c.lower()] for a code point below 256: A-Z, and the Latin-1 capitals
    U+00C0..U+00DE without the multiplication sign U+00D7, move up by 32. *)
Definition lower_char (c : ascii) : ascii :=
  let n := nat_of_ascii c in
  if ((65 <=? n) && (n <=? 90))
     || ((192 <=? n) && (n <=? 222) && negb (n =? 215))
  then ascii_of_nat (n + 32)
  else c.

Fixpoint lower (s : string) : string :=
  match s with
  | EmptyString => EmptyString
  | String c s' => String (lower_char c) (lower s')
  end.

(** The characters [int] reads as decimal digits, with their value. *)
Definition decimal_value (c : ascii) : option Z :=
  let n := nat_of_ascii c in
  if (48 <=? n) && (n <=? 57) then Some (Z.of_nat (n - 48)) else None.

(** [c.isdigit()] below 256: the decimal digits and the superscripts
    U+00B2, U+00B3 and U+00B9. *)
Definition isdigit_char (c : ascii) : bool :=
  let n := nat_of_ascii c in
  ((48 <=? n) && (n <=? 57)) || (n =? 178) || (n =? 179) || (n =? 185).

Fixpoint all_chars (p : ascii -> bool) (s : string) : bool :=
  match s with
  | EmptyString => true
  | String c s' => p c && all_chars p s'
  end.

(** [s.isdigit()]: false on the empty string. *)
Definition isdigit (s : string) : bool :=
  match s with
  | EmptyString => false
  | String _ _ => all_chars isdigit_char s
  end.

(** [sys.get_int_max_str_digits()], at its default: the most digits that
    [int] converts. *)
Definition int_max_str_digits : nat := 4300.

(** [int(s)] for a string [s] that passed [isdigit]: the decimal value, or
    [None] for the [ValueError] that a superscript digit raises and that
    more than [int_max_str_digits] digits raise. *)
Fixpoint int_from (acc : Z) (s : string) : option Z :=
  match s with
  | EmptyString => Some acc
  | String c s' =>
      match decimal_value c with
      | Some d => int_from (10 * acc + d) s'
      | None => None
      end
  end.

Definition int (s : string) : option Z :=
  match s with
  | EmptyString => None
  | String _ _ =>
      if int_max_str_digits <? String.length s then None else int_from 0 s
  end.

(** [needle in hay] *)
Fixpoint contains (needle hay : string) : bool :=
  String.prefix needle hay
  || match hay with
     | EmptyString => false
     | String _ hay' => contains needle hay'
     end.

(** [l[:stop]] for an integer [stop], negative ones counting from the end. *)
Definition slice_to {X : Type} (l : list X) (stop : Z) : list X :=
  if (stop <? 0)%Z then take (length l - Z.to_nat (- stop)) l
  else take (Z.to_nat stop) l.

(** [s.replace(old, new)]: the occurrences of [old] are replaced from left
    to right without overlap; [skip] is the number of characters of a
    replaced occurrence still to pass over.  An empty [old] puts [new]
    before every character and at the end. *)
Fixpoint replace_from (skip : nat) (old new s : string) : string :=
  match s with
  | EmptyString => EmptyString
  | String c s' =>
      match skip with
      | S skip' => replace_from skip' old new s'
      | 0 =>
          if String.prefix old s
          then String.append new (replace_from (String.length old - 1) old new s')
          else String c (replace_from 0 old new s')
      end
  end.

Fixpoint interleave (new s : string) : string :=
  match s with
  | EmptyString => new
  | String c s' => String.append new (String c (interleave new s'))
  end.

Definition replace (old new s : string) : string :=
  match old with
  | EmptyString => interleave new s
  | String _ _ => replace_from 0 old new s
  end.

(** [str(n)] for a length. *)
Definition of_nat (n : nat) : string := NilZero.string_of_uint (Nat.to_uint n).

(** The line feed. *)
Definition nl : string := String (ascii_of_nat 10) EmptyString.

(** The truth value of an [Optional[str]]: [None] and [''] are false. *)
Definition truthy (x : option string) : bool :=
  match x with
  | Some (String _ _) => true
  | _ => false
  end.

(** [int(s)] for any string [s] (base 10): white space around, a sign,
    decimal digits with single underscores between them.  Of the code
    points below 256 the white space is tab, line feed, vertical tab, form
    feed, carriage return, space, U+0085 and U+00A0.  [None] stands for
    [ValueError].  [int_literal] is the conversion without the limit on the
    number of digits. *)
Definition is_space (c : ascii) : bool :=
  let n := nat_of_ascii c in
  ((9 <=? n) && (n <=? 13)) || (n =? 32) || (n =? 133) || (n =? 160).

Fixpoint lstrip (s : string) : string :=
  match s with
  | EmptyString => EmptyString
  | String c s' => if is_space c then lstrip s' else s
  end.

(** The digits after the first one; [after_underscore] tells that the last
    character read was an underscore. *)
Fixpoint int_digits (acc : Z) (after_underscore : bool) (s : string) : option Z :=
  match s with
  | EmptyString => if after_underscore then None else Some acc
  | String c s' =>
      match decimal_value c with
      | Some d => int_digits (10 * acc + d) false s'
      | None =>
          if after_underscore then None
          else if Ascii.eqb c "_" then int_digits acc true s'
          else if all_chars is_space s then Some acc
          else None
      end
  end.

Definition int_unsigned (s : string) : option Z :=
  match s with
  | EmptyString => None
  | String c s' =>
      match decimal_value c with
      | Some d => int_digits d false s'
      | None => None
      end
  end.

Definition int_literal (s : string) : option Z :=
  match lstrip s with
  | EmptyString => None
  | String c s' =>
      if Ascii.eqb c "-" then Z.opp <$> int_unsigned s'
      else if Ascii.eqb c "+" then int_unsigned s'
      else int_unsigned (String c s')
  end.

(** The number of decimal digits in [s]. *)
Fixpoint count_digits (s : string) : nat :=
  match s with
  | EmptyString => 0
  | String c s' =>
      match decimal_value c with
      | Some _ => S (count_digits s')
      | None => count_digits s'
      end
  end.

(** [int(s)]: a literal of more than [int_max_str_digits] digits raises
    [ValueError] as well. *)
Definition int_of_str (s : string) : option Z :=
  if int_max_str_digits <? count_digits s then None else int_literal s.
End Str.

(* ===================================================================== *)
(** * src/utils/fuzzy_search.py                                            *)
(* ===================================================================== *)

Module FuzzySearch.

(** [Dict[int, str]], as its items in iteration order. *)
Definition mapping : Type := list (Z * string).
Definition keys (m : mapping) : list Z := m.*1.

(** [Tuple[int, str, float]] *)
Definition candidate : Type := Z * string * Q.
Definition similarity_of (x : candidate) : Q := x.2.

(** [difflib.SequenceMatcher(None, a, b).ratio()] on two [str]. *)
Definition SequenceMatcher_ratio (a b : string) : Q :=
  difflib.ratio (list_ascii_of_string a) (list_ascii_of_string b).

(** [sorted(matches, key=lambda x: x[2], reverse=True)]: the stable sort
    by decreasing key.  An element is inserted in front of the sorted
    rest, so it goes before every element whose key is not larger. *)
Fixpoint insert_desc (x : candidate) (l : list candidate) : list candidate :=
  match l with
  | [] => [x]
  | y :: l' =>
      if Qle_bool (similarity_of y) (similarity_of x) then x :: l
      else y :: insert_desc x l'
  end.

Definition sorted_desc (l : list candidate) : list candidate :=
  foldr insert_desc [] l.

Definition default_partial_match_score : Q := 9 # 10.
Definition default_max_results : Z := 5.

Section Scorer.
(** The similarity scorer the matcher calls once per entry. *)
Variable score : string -> string -> Q.

(** The loop [for code, name in mapping.items()] filling [matches];
    [search_term] is already lower-cased. *)
Fixpoint matches_loop (search_term : string) (items : mapping)
    (threshold partial_match_score : Q) : list candidate :=
  match items with
  | [] => []
  | (code, name) :: items' =>
      let name_lower := Str.lower name in
      let similarity := score search_term name_lower in
      if Qle_bool threshold similarity then
        (code, name, similarity)
          :: matches_loop search_term items' threshold partial_match_score
      else if Str.contains search_term name_lower then
        (code, name, partial_match_score)
          :: matches_loop search_term items' threshold partial_match_score
      else matches_loop search_term items' threshold partial_match_score
  end.

Definition search_with (search_term : string) (m : mapping)
    (threshold partial_match_score : Q) (max_results : Z) : list candidate :=
  let search_term := Str.lower search_term in
  let matches := matches_loop search_term m threshold partial_match_score in
  Str.slice_to (sorted_desc matches) max_results.

(** The loop of the exact search: the first entry whose lower-cased
    name is [search_lower]. *)
Fixpoint exact_loop (search_lower : string) (items : mapping)
  : option (Z * string) :=
  match items with
  | [] => None
  | (code, name) :: items' =>
      if String.eqb (Str.lower name) search_lower then Some (code, name)
      else exact_loop search_lower items'
  end.

Definition find_best_match_with (search_term : string) (m : mapping)
    (item_type : string) (exact_search : bool)
  : option Z * option string * list candidate :=
  let search_lower := Str.lower search_term in
  match (if exact_search then exact_loop search_lower m else None) with
  | Some (code, name) => (Some code, Some name, [])
  | None =>
      let fuzzy_matches :=
        search_with search_lower m
          (if String.eqb item_type "country" then 6 # 10 else 5 # 10)
          default_partial_match_score default_max_results in
      (None, None, fuzzy_matches)
  end.
End Scorer.

Definition search := search_with SequenceMatcher_ratio.
Definition find_best_match := find_best_match_with SequenceMatcher_ratio.

End FuzzySearch.

(* ===================================================================== *)
(** * src/utils/file_handlers.py                                           *)
(* ===================================================================== *)

Module FileHandler.

(** ** [load_hs_codes] *)

(** The value under ['id']: a string, or a value of another JSON type
    (a number, [true], [false], [null], a list, an object) with its truth
    value. *)
Inductive json_id :=
| IdStr (s : string)
| IdOther (truthy : bool).

(** An object of [data['results']], as [item.get('id', '')] and
    [item.get('text', '')] see it: [None] where the key is absent.  The
    text, if there is one, is a string ([null] under ['text'] is falsy and
    does what the empty string does). *)
Record item := { item_id : option json_id; item_text : option string }.

(** An element of [data['results']]: an object, or a value of another JSON
    type, on which [item.get] raises [AttributeError]. *)
Inductive element :=
| Object (it : item)
| NotObject.

(** What there is at [json_path]: nothing; a file from which nothing is
    loaded (it cannot be read as JSON, the document is not an object, or
    its ['results'] is not a list: the [try] block raises, or the loop has
    nothing to read, while [hs_codes] is still empty); or an object with
    the list under ['results'], if it has that key. *)
Inductive json_file :=
| Missing
| Unreadable
| Document (results : option (list element)).

(** [d[key] = value] on an insertion-ordered dict: a key that is present
    keeps its place. *)
Fixpoint dict_set (d : FuzzySearch.mapping) (key : Z) (value : string)
  : FuzzySearch.mapping :=
  match d with
  | [] => [(key, value)]
  | (k, v) :: d' =>
      if (k =? key)%Z then (k, value) :: d'
      else (k, v) :: dict_set d' key value
  end.

(** The loop [for item in data.get('results', [])].  An [AttributeError]
    ([item.get] on an element that is not an object, [item_id.replace] on an
    id that is not a string) is not among the exceptions of the inner
    [except]: it ends the loop in the outer [except Exception], and what
    was loaded so far is returned. *)
Fixpoint load_items (items : list element) (hs_codes : FuzzySearch.mapping)
  : FuzzySearch.mapping :=
  match items with
  | [] => hs_codes
  | NotObject :: _ => hs_codes
  | Object item :: items' =>
      let text := default EmptyString (item_text item) in
      match default (IdStr EmptyString) (item_id item) with
      | IdStr item_id =>
          if negb (String.eqb item_id "") && negb (String.eqb text "")
             && negb (String.eqb item_id "TOTAL")
          then
            match Str.int_of_str (Str.replace "." "" item_id) with
            | Some code => load_items items' (dict_set hs_codes code text)
            | None => load_items items' hs_codes
            end
          else load_items items' hs_codes
      | IdOther truthy =>
          if truthy && negb (String.eqb text "")
          then hs_codes
          else load_items items' hs_codes
      end
  end.

Definition load_hs_codes (file : json_file) : FuzzySearch.mapping :=
  match file with
  | Document results => load_items (default [] results) []
  | Missing | Unreadable => []
  end.

(** ** [save_dataframe] *)

Section Frames.
(** A [pandas.DataFrame] is kept abstract: [to_csv] is the text that
    [df.to_csv(filename, index=False, encoding='utf-8')] writes, [columns]
    is [df.columns] and [len] is [len(df)]. *)
Variable DataFrame : Type.
Variable to_csv : DataFrame -> string.
Variable columns : DataFrame -> list string.
Variable len : DataFrame -> nat.

(** The files, by path.  [unwritable] tells the paths that cannot be opened
    for writing: there the write raises and the [except Exception] branch
    returns [False]. *)
Variable unwritable : string -> bool.

(** The lines [f"{col}: {desc}\n"], one per column. *)
Fixpoint column_lines (cols : list string)
    (column_descriptions : gmap string string) : string :=
  match cols with
  | [] => EmptyString
  | col :: cols' =>
      let desc :=
        default "[No description available]"%string (column_descriptions !! col) in
      String.append col
        (String.append ": "
           (String.append desc
              (String.append Str.nl (column_lines cols' column_descriptions))))
  end.

(** What is written to the description file; [now] is
    [datetime.now().strftime('%Y-%m-%d %H:%M:%S')]. *)
Definition description_text (df : DataFrame)
    (column_descriptions : gmap string string) (now : string) : string :=
  String.append "COLUMN DESCRIPTIONS"
    (String.append Str.nl
       (String.append "==================="
          (String.append Str.nl
             (String.append Str.nl
                (String.append (column_lines (columns df) column_descriptions)
                   (String.append Str.nl
                      (String.append "Generated: "
                         (String.append now
                            (String.append Str.nl
                               (String.append "Total records: "
                                  (String.append (Str.of_nat (len df))
                                     Str.nl))))))))))).

(** [save_dataframe]: the result and the files afterwards. *)
Definition save_dataframe (files : gmap string string) (df : DataFrame)
    (filename : string) (column_descriptions : gmap string string)
    (now : string) : bool * gmap string string :=
  if unwritable filename then (false, files)
  else
    let files := <[filename := to_csv df]> files in
    let desc_filename := Str.replace ".csv" "_columns.txt" filename in
    if unwritable desc_filename then (false, files)
    else
      (true,
       <[desc_filename := description_text df column_descriptions now]> files).
End Frames.

End FileHandler.

(* ===================================================================== *)
(** * src/extractor.py                                                     *)
(* ===================================================================== *)

Module TradeDataExtractor.
Import FuzzySearch.

Inductive exn := ValueError.

(** What a call does: it raises, or it returns an [Optional[int]]. *)
Inductive outcome :=
| Raise (e : exn)
| Return (code : option Z).

Definition _get_code (search_term : string) (m : mapping) (item_type : string)
  : outcome :=
  if Str.isdigit search_term then
    match Str.int search_term with
    | Some n => Return (Some n)
    | None => Raise ValueError
    end
  else
    let '(code, name, matches) :=
      find_best_match search_term m item_type true in
    match code with
    | Some c => Return (Some c)
    | None =>
        match matches with
        | (match_code, match_name, _) :: _ => Return (Some match_code)
        | [] => Return None
        end
    end.


(** ** [extract_data] and [save_to_csv] *)

(** A value bound to a [?] of the query: the date as given, or a code. *)
Inductive param :=
| PStr (s : string)
| PInt (n : Z).

(** Where the body of a function stands after a block: it raised, it
    returned, or it goes on with its local variables. *)
Inductive flow (S R : Type) :=
| Raised (e : exn)
| Returned (r : R)
| Running (s : S).
Arguments Raised {S R} e.
Arguments Returned {S R} r.
Arguments Running {S R} s.

Definition base_query : string :=
  String.append Str.nl
    (String.append
       "        SELECT date, flowtype, ReporterCode, PartnerName, cmdCode, qty, primaryvalue"
       (String.append Str.nl
          (String.append "        FROM hightech_2024"
             (String.append Str.nl
                (String.append "        WHERE 1=1"
                   (String.append Str.nl "        ")))))).

(** The [column_descriptions] of [save_to_csv]. *)
Definition column_descriptions : gmap string string :=
  list_to_map
    [("date", "Transaction Date");
     ("flowtype", "Trade Flow Type (Import/Export)");
     ("ReporterCode", "Reporter Country Code");
     ("reporter_name", "Reporter Country Name");
     ("PartnerName", "Partner Country Code");
     ("partner_name", "Partner Country Name");
     ("cmdCode", "HS Product Code");
     ("product_description", "HS Product Description");
     ("qty", "Quantity");
     ("primaryvalue", "Trade Value (USD)")]%string.

(** ** [__init__] and [_load_default_codes] *)

(** [if not self.country_codes: ...] and [if not self.hs_codes: ...], as a
    function of the two mappings. *)
Definition _load_default_codes (country_codes hs_codes : mapping)
  : mapping * mapping :=
  (match country_codes with
   | [] => [(792%Z, "Turkey"%string); (643%Z, "Russian Federation"%string)]
   | _ :: _ => country_codes
   end,
   match hs_codes with
   | [] => [(8401%Z, "Nuclear reactors"%string)]
   | _ :: _ => hs_codes
   end).

(** The mappings of a new extractor: [loaded_country_codes] is what
    [FileHandler.load_country_codes] read with pandas, [hs_file] is what
    there is at [data_dir / 'H5.json']. *)
Definition __init__ (loaded_country_codes : mapping)
    (hs_file : FileHandler.json_file) : mapping * mapping :=
  let country_codes := loaded_country_codes in
  let hs_codes := FileHandler.load_hs_codes hs_file in
  _load_default_codes country_codes hs_codes.

Section Extractor.
(** The frames and the collaborators of the extractor that are outside the
    engine: [empty_frame] is [pd.DataFrame()], [df_empty] is [df.empty],
    [execute_query] is [self.db_manager.execute_query] (it returns [None]
    on every database error) and [_enrich_dataframe] is the method of that
    name. *)
Variable DataFrame : Type.
Variable empty_frame : DataFrame.
Variable df_empty : DataFrame -> bool.
Variable execute_query : string -> list param -> option DataFrame.
Variable _enrich_dataframe : DataFrame -> DataFrame.

(** [self.country_codes] and [self.hs_codes]. *)
Variable country_codes hs_codes : mapping.

(** What [extract_data] does: it raises, or it returns an
    [Optional[pd.DataFrame]]. *)
Inductive frame_outcome :=
| RaiseF (e : exn)
| ReturnF (df : option DataFrame).

Definition extract_data (date country product : option string) : frame_outcome :=
  let query := base_query in
  let params : list param := [] in
  let conditions_added := false in
  let '(query, params, conditions_added) :=
    match date with
    | Some (String _ _ as date) =>
        (String.append query " AND date = ?", params ++ [PStr date], true)
    | _ => (query, params, conditions_added)
    end in
  match
    match country with
    | Some (String _ _ as country) =>
        match _get_code country country_codes "country" with
        | Raise e => Raised e
        | Return None => Returned (Some empty_frame)
        | Return (Some country_code) =>
            Running (String.append query " AND ReporterCode = ?",
                     params ++ [PInt country_code], true)
        end
    | _ => Running (query, params, conditions_added)
    end
  with
  | Raised e => RaiseF e
  | Returned r => ReturnF r
  | Running (query, params, conditions_added) =>
      match
        match product with
        | Some (String _ _ as product) =>
            match _get_code product hs_codes "product" with
            | Raise e => Raised e
            | Return None => Returned (Some empty_frame)
            | Return (Some product_code) =>
                Running (String.append query " AND cmdCode = ?",
                         params ++ [PInt product_code], true)
            end
        | _ => Running (query, params, conditions_added)
        end
      with
      | Raised e => RaiseF e
      | Returned r => ReturnF r
      | Running (query, params, conditions_added) =>
          if negb conditions_added then ReturnF (Some empty_frame)
          else
            let df := execute_query query params in
            match df with
            | Some d =>
                if negb (df_empty d) then ReturnF (Some (_enrich_dataframe d))
                else ReturnF df
            | None => ReturnF df
            end
      end
  end.

(** [save_to_csv]: [output_dir] is [config.OUTPUT_DIR], [stamp] is
    [datetime.now().strftime('%Y%m%d_%H%M%S')] and [now] the time written
    into the description file. *)
Variable to_csv : DataFrame -> string.
Variable columns : DataFrame -> list string.
Variable len : DataFrame -> nat.
Variable unwritable : string -> bool.

Definition save_to_csv (files : gmap string string) (df : option DataFrame)
    (filename : option string) (output_dir stamp now : string)
  : bool * gmap string string :=
  match df with
  | None => (false, files)
  | Some d =>
      if df_empty d then (false, files)
      else
        let filename :=
          if Str.truthy filename then default EmptyString filename
          else
            String.append output_dir
              (String.append "/trade_data_" (String.append stamp ".csv")) in
        FileHandler.save_dataframe DataFrame to_csv columns len unwritable
          files d filename column_descriptions now
  end.
End Extractor.

End TradeDataExtractor.

(* ===================================================================== *)
(** * src/utils/validators.py and data_extractor.py                        *)
(* ===================================================================== *)

Module validators.

(** The [argparse.Namespace] that the parser of [create_parser] produces:
    an option that takes a value is [None] when it is not given, a
    [store_true] option is a [bool]. *)
Record Namespace := {
  date : option string;
  country : option string;
  product : option string;
  to_csv : bool;
  output : option string;
  database : string;
  data_dir : string;
  limit : Z;
  list_countries : bool;
  list_products : bool;
  search_country : option string;
  search_product : option string
}.

(** [validate_args]; [path_exists] is [os.path.exists]. *)
Definition validate_args (path_exists : string -> bool) (args : Namespace)
  : bool * string :=
  if negb (path_exists (database args)) then
    (false,
     String.append "Error: Database file '"
       (String.append (database args) "' not found"))
  else if negb (existsb (fun x : bool => x)
                  [Str.truthy (date args); Str.truthy (country args);
                   Str.truthy (product args);
                   list_countries args; list_products args;
                   Str.truthy (search_country args);
                   Str.truthy (search_product args)]) then
    (false, "Error: No arguments provided. Use --help for usage."%string)
  else (true, EmptyString).

End validators.

Module data_extractor.
Import validators.

(** What [handle_list_operations] returns: [True] when it has listed or
    searched.  What it prints (the sorted items, or the matches of
    [FuzzySearch.search] with threshold 0.3) is left out. *)
Definition handle_list_operations (args : Namespace) : bool :=
  if list_countries args then true
  else if list_products args then true
  else if Str.truthy (search_country args) then true
  else if Str.truthy (search_product args) then true
  else false.

End data_extractor.

(* ===================================================================== *)
(** * Definitions used by the statements and the proofs                    *)
(* ===================================================================== *)

(** The block [x] lies inside the rectangle [(alo, ahi, blo, bhi)]. *)
Definition within (alo ahi blo bhi : nat) (x : difflib.Match) : Prop :=
  alo ≤ difflib.Match_a x
  ∧ difflib.Match_a x + difflib.Match_size x ≤ ahi
  ∧ blo ≤ difflib.Match_b x
  ∧ difflib.Match_b x + difflib.Match_size x ≤ bhi.

(** The lengths that [j2len] holds before row [i] fit between the corner
    [(alo, blo)] of the rectangle and the cell they end at. *)
Definition j2len_bounded (alo blo i : nat) (j2len : gmap nat nat) : Prop :=
  ∀ j k, j2len !! j = Some k → k ≤ i - alo ∧ k + blo ≤ j + 1.

(** A rectangle of the queue is well formed, and lies inside sequences of
    lengths [la] and [lb]. *)
Definition rect_ok (r : difflib.rect) : Prop :=
  let '(alo, ahi, blo, bhi) := r in alo ≤ ahi ∧ blo ≤ bhi.

Definition rect_in (la lb : nat) (r : difflib.rect) : Prop :=
  let '(_, ahi, _, bhi) := r in ahi ≤ la ∧ bhi ≤ lb.

(** The two sides of a rectangle. *)
Definition width_a (r : difflib.rect) : nat :=
  let '(alo, ahi, _, _) := r in ahi - alo.

Definition width_b (r : difflib.rect) : nat :=
  let '(_, _, blo, bhi) := r in bhi - blo.

(** What decreases at every round of the [while queue:] loop. *)
Definition queue_measure (queue : list difflib.rect) : nat :=
  sum_list_with (λ r, 2 * width_a r + 1) queue.

(** The indices of [c] in [b], counted from [i], in increasing order: what
    [__chain_b] stores under the key [c]. *)
Fixpoint positions_from `{EqDecision A} (i : nat) (c : A) (b : list A) : list nat :=
  match b with
  | [] => []
  | x :: b' =>
      if decide (x = c) then i :: positions_from (S i) c b'
      else positions_from (S i) c b'
  end.

(** [s[i]] is still a key of [b2j] (it is not popular). *)
Definition kept_at `{Countable A} (b2j : gmap A (list nat)) (s : list A) (i : nat) : bool :=
  match s !! i with
  | Some c => bool_decide (is_Some (b2j !! c))
  | None => false
  end.

(** The number of consecutive kept elements of [s] that end just before
    index [i]. *)
Fixpoint run `{Countable A} (b2j : gmap A (list nat)) (s : list A) (i : nat) : nat :=
  match i with
  | 0 => 0
  | S i' => if kept_at b2j s i' then S (run b2j s i') else 0
  end.

(** The state of [find_longest_match] on [s] against itself before row [i]:
    the best block lies on the diagonal and is at least as long as every
    run of kept elements seen so far. *)
Definition diag_inv `{Countable A} (b2j : gmap A (list nat)) (s : list A) (i : nat)
    (j2len : gmap nat nat) (best : difflib.Match) : Prop :=
  difflib.Match_a best = difflib.Match_b best
  ∧ (∀ j k, j2len !! j = Some k → k ≤ run b2j s (S j) ∧ k ≤ run b2j s i)
  ∧ difflib.j2lenget_pred j2len i = run b2j s i
  ∧ (∀ t, t ≤ i → run b2j s t ≤ difflib.Match_size best).

(** What one round of the inner loop of [find_longest_match] stores. *)
Definition row_insert (j2len newj2len : gmap nat nat) (j : nat) : gmap nat nat :=
  <[j := difflib.j2lenget_pred j2len j + 1]> newj2len.

(** [needle] occurs in [hay] as a contiguous block. *)
Definition is_substring (needle hay : string) : Prop :=
  ∃ pre post : string, hay = String.append pre (String.append needle post).

(** The decimal digits ([str.isdecimal]): below 256 these are 0-9. *)
Definition is_decimal_digit (c : ascii) : Prop :=
  48 ≤ nat_of_ascii c ∧ nat_of_ascii c ≤ 57.

(** The number that a string of decimal digits denotes: the digit with
    [k] digits after it counts [10^k] times. *)
Fixpoint decimal_number (s : string) : Z :=
  match s with
  | EmptyString => 0
  | String c s' =>
      (Z.of_nat (nat_of_ascii c - 48) * 10 ^ Z.of_nat (String.length s')
       + decimal_number s')%Z
  end.

(** The string of [n] characters [c]. *)
Definition repeated (c : ascii) (n : nat) : string :=
  string_of_list_ascii (replicate n c).

(** The order of a ranked list: no later candidate scores higher. *)
Definition ranks_before (x y : FuzzySearch.candidate) : Prop :=
  (FuzzySearch.similarity_of y <= FuzzySearch.similarity_of x)%Q.

(** The candidates whose similarity is exactly [v], in their order. *)
Definition with_similarity (v : Q) (l : list FuzzySearch.candidate)
  : list FuzzySearch.candidate :=
  List.filter (λ x, Qeq_bool (FuzzySearch.similarity_of x) v) l.

(** What the matcher emits for one entry, in the words of the
    specification (section 4.2, steps 1 to 5). *)
Inductive emits (score : string → string → Q) (query : string)
    (threshold partial_match_score : Q)
  : Z * string → option FuzzySearch.candidate → Prop :=
| emits_similar code name :
    (threshold <= score query (Str.lower name))%Q →
    emits score query threshold partial_match_score (code, name)
      (Some (code, name, score query (Str.lower name)))
| emits_substring code name :
    (score query (Str.lower name) < threshold)%Q →
    is_substring query (Str.lower name) →
    emits score query threshold partial_match_score (code, name)
      (Some (code, name, partial_match_score))
| emits_nothing code name :
    (score query (Str.lower name) < threshold)%Q →
    ¬ is_substring query (Str.lower name) →
    emits score query threshold partial_match_score (code, name) None.

(** The number of [?] placeholders of a query. *)
Fixpoint placeholders (query : string) : nat :=
  match query with
  | EmptyString => 0
  | String c query' =>
      (if Ascii.eqb c "?" then 1 else 0) + placeholders query'
  end.

(** The text of the query for the filters that are present. *)
Definition sql_text (with_date with_country with_product : bool) : string :=
  let query := TradeDataExtractor.base_query in
  let query :=
    if with_date then String.append query " AND date = ?" else query in
  let query :=
    if with_country then String.append query " AND ReporterCode = ?" else query in
  if with_product then String.append query " AND cmdCode = ?" else query.

(** What [extract_data] makes of the answer of the database. *)
Definition enriched {DataFrame : Type} (df_empty : DataFrame → bool)
    (_enrich_dataframe : DataFrame → DataFrame) (answer : option DataFrame)
  : option DataFrame :=
  match answer with
  | Some d => if df_empty d then Some d else Some (_enrich_dataframe d)
  | None => None
  end.

(** The block [x] is a common block: [a[i:i+k] == b[j:j+k]], inside both
    sequences. *)
Definition block_matches {A : Type} (a b : list A) (x : difflib.Match) : Prop :=
  ∀ t, t < difflib.Match_size x →
       ∃ c, a !! (difflib.Match_a x + t) = Some c
            ∧ b !! (difflib.Match_b x + t) = Some c.

(** Every index stored under a key of [b2j] is an occurrence of the key. *)
Definition b2j_sound `{Countable A} (b : list A) (b2j : gmap A (list nat)) : Prop :=
  ∀ c l j, b2j !! c = Some l → j ∈ l → b !! j = Some c.

(** Before row [i], [j2len[j] = k] stands for a common block of length [k]
    that ends at [a[i-1]] and [b[j]]. *)
Definition j2len_matches {A : Type} (a b : list A) (i : nat)
    (j2len : gmap nat nat) : Prop :=
  ∀ j k, j2len !! j = Some k →
         k ≤ i ∧ k ≤ j + 1
         ∧ block_matches a b (difflib.mkMatch (i - k) (j + 1 - k) k).

(** The blocks that the [while queue:] loop appends for one rectangle and
    for the rectangles it leads to, in the order of the loop: the block of
    the rectangle, the blocks to its right, the blocks to its left. *)
Fixpoint blocks_of `{Countable A} (depth : nat) (a b : list A)
    (b2j : gmap A (list nat)) (r : difflib.rect) : list difflib.Match :=
  match depth with
  | 0 => []
  | S depth' =>
      let '(alo, ahi, blo, bhi) := r in
      let x := difflib.find_longest_match a b b2j alo ahi blo bhi in
      let i := difflib.Match_a x in
      let j := difflib.Match_b x in
      let k := difflib.Match_size x in
      if 0 <? k then
        x :: (if (i + k <? ahi) && (j + k <? bhi)
              then blocks_of depth' a b b2j (i + k, ahi, j + k, bhi) else [])
          ++ (if (alo <? i) && (blo <? j)
              then blocks_of depth' a b b2j (alo, i, blo, j) else [])
      else []
  end.

(** The entry that one object of ['results'] brings to the HS mapping, if
    any: its id is a string, not empty and not ['TOTAL'], that reads as a
    code once its dots are removed, and its text is not empty. *)
Definition hs_entry (it : FileHandler.item) : option (Z * string) :=
  match FileHandler.item_id it with
  | Some (FileHandler.IdStr item_id) =>
      let text := default EmptyString (FileHandler.item_text it) in
      if negb (String.eqb item_id "") && negb (String.eqb text "")
         && negb (String.eqb item_id "TOTAL")
      then (λ code, (code, text)) <$> Str.int_of_str (Str.replace "." "" item_id)
      else None
  | _ => None
  end.

Definition entry_of (e : FileHandler.element) : option (Z * string) :=
  match e with
  | FileHandler.Object it => hs_entry it
  | FileHandler.NotObject => None
  end.

(** The elements at which the loop of [load_hs_codes] ends: a value that
    is not an object, and an object with a truthy id that is not a string
    and a text that is not empty. *)
Definition ends_loop (e : FileHandler.element) : bool :=
  match e with
  | FileHandler.NotObject => true
  | FileHandler.Object it =>
      match FileHandler.item_id it with
      | Some (FileHandler.IdOther true) =>
          negb (String.eqb (default EmptyString (FileHandler.item_text it)) "")
      | _ => false
      end
  end.

(** The elements before the first one that ends the loop. *)
Fixpoint read_elements (items : list FileHandler.element)
  : list FileHandler.element :=
  match items with
  | [] => []
  | e :: items' => if ends_loop e then [] else e :: read_elements items'
  end.

(** The element brings nothing for the code [n]. *)
Definition no_entry_for (n : Z) (e : FileHandler.element) : Prop :=
  ∀ t, entry_of e ≠ Some (n, t).

(** The parameter that a date filter binds. *)
Definition date_params (date : option string) : list TradeDataExtractor.param :=
  match date with
  | Some (String c s) => [TradeDataExtractor.PStr (String c s)]
  | _ => []
  end.

(** A name filter is absent and binds nothing, or it is resolved to a code
    and binds that code. *)
Definition resolves (name : option string) (m : FuzzySearch.mapping)
    (item_type : string) (bound : list TradeDataExtractor.param) : Prop :=
  (Str.truthy name = false ∧ bound = [])
  ∨ (∃ s code,
        name = Some s ∧ Str.truthy name = true
        ∧ TradeDataExtractor._get_code s m item_type
          = TradeDataExtractor.Return (Some code)
        ∧ bound = [TradeDataExtractor.PInt code]).


(** An element of ['results'] with the dots taken out of its id, when the
    id is a string. *)
Definition without_dots (e : FileHandler.element) : FileHandler.element :=
  match e with
  | FileHandler.Object it =>
      FileHandler.Object
        {| FileHandler.item_id :=
             (λ v, match v with
                   | FileHandler.IdStr s => FileHandler.IdStr (Str.replace "." "" s)
                   | FileHandler.IdOther truthy => FileHandler.IdOther truthy
                   end) <$> FileHandler.item_id it;
           FileHandler.item_text := FileHandler.item_text it |}
  | FileHandler.NotObject => FileHandler.NotObject
  end.

(** The block [x] ends before the block [y] starts, in both sequences. *)
Definition chain_before (x y : difflib.Match) : Prop :=
  difflib.Match_a x + difflib.Match_size x ≤ difflib.Match_a y
  ∧ difflib.Match_b x + difflib.Match_size x ≤ difflib.Match_b y.

(** ... and [y] does not continue [x] in both sequences at once. *)
Definition apart (x y : difflib.Match) : Prop :=
  chain_before x y
  ∧ ¬ (difflib.Match_a x + difflib.Match_size x = difflib.Match_a y
       ∧ difflib.Match_b x + difflib.Match_size x = difflib.Match_b y).
(* ===================================================================== *)
(** * The embedding on the examples of difflib's documentation             *)
(* ===================================================================== *)

Example ratio_abcd_bcde :
  difflib.ratio (list_ascii_of_string "abcd") (list_ascii_of_string "bcde")
  = (6 # 8)%Q.
Proof. reflexivity. Qed.

Example get_matching_blocks_abxcd_abcd :
  difflib.get_matching_blocks
    (list_ascii_of_string "abxcd") (list_ascii_of_string "abcd")
  = [difflib.mkMatch 0 0 2; difflib.mkMatch 3 2 2; difflib.mkMatch 5 4 0].
Proof. reflexivity. Qed.

Example find_longest_match_abcd :
  difflib.find_longest_match
    (list_ascii_of_string " abcd") (list_ascii_of_string "abcd abcd")
    (difflib.chain_b (list_ascii_of_string "abcd abcd")) 0 5 0 9
  = difflib.mkMatch 0 4 5.
Proof. reflexivity. Qed.

Example find_longest_match_ab_c :
  difflib.find_longest_match
    (list_ascii_of_string "ab") (list_ascii_of_string "c")
    (difflib.chain_b (list_ascii_of_string "c")) 0 2 0 1
  = difflib.mkMatch 0 0 0.
Proof. reflexivity. Qed.

(** A sequence of 200 elements makes its frequent elements popular: they
    are matched only next to another match. *)
Example ratio_autojunk :
  let xs := replicate 200 "x"%char in
  (difflib.ratio (list_ascii_of_string "yx") xs == 0)%Q
  ∧ (difflib.ratio xs (list_ascii_of_string "yx") == 1 # 101)%Q
  ∧ (difflib.ratio xs xs == 1)%Q.
Proof. vm_compute. repeat split. Qed.

(** The scenarios of the resolver. *)
Example resolve_exact_turkey :
  FuzzySearch.find_best_match "turkey"
    [(10%Z, "Turkey"%string); (11%Z, "Turkmenistan"%string)] "country" true
  = (Some 10%Z, Some "Turkey"%string, []).
Proof. reflexivity. Qed.

Example resolve_no_match :
  TradeDataExtractor._get_code "xyzxyz" [(1%Z, "Turkey"%string)] "country"
  = TradeDataExtractor.Return None.
Proof. vm_compute. reflexivity. Qed.

Example resolve_auto_select :
  FuzzySearch.find_best_match "austra"
    [(36%Z, "Australia"%string); (40%Z, "Austria"%string)] "product" true
  = (None, None,
     [(40%Z, "Austria"%string, (12 # 13)%Q);
      (36%Z, "Australia"%string, (12 # 15)%Q)])
  ∧ TradeDataExtractor._get_code "austra"
      [(36%Z, "Australia"%string); (40%Z, "Austria"%string)] "product"
    = TradeDataExtractor.Return (Some 40%Z).
Proof. vm_compute. split; reflexivity. Qed.

Example resolve_superscript_digit :
  Str.isdigit (String (ascii_of_nat 178) EmptyString) = true
  ∧ TradeDataExtractor._get_code (String (ascii_of_nat 178) EmptyString)
      [(1%Z, "Turkey"%string)] "country"
    = TradeDataExtractor.Raise TradeDataExtractor.ValueError.
Proof. vm_compute. split; reflexivity. Qed.

(* ===================================================================== *)
(** * The matching blocks stay inside the two sequences                    *)
(* ===================================================================== *)

Section difflib_bounds.
Context `{Countable A}.
Import difflib.
Implicit Types (a b : list A) (b2j : gmap A (list nat)).
Implicit Types (j2len newj2len : gmap nat nat) (best : Match).

Lemma j2len_bounded_empty alo blo i : j2len_bounded alo blo i ∅.
Proof. intros j k Hjk. by rewrite lookup_empty in Hjk. Qed.

Lemma j2lenget_pred_bounded alo blo i j2len j :
  j2len_bounded alo blo i j2len →
  blo ≤ j →
  j2lenget_pred j2len j ≤ i - alo ∧ j2lenget_pred j2len j + blo ≤ j.
Proof.
  intros Hb Hj. destruct j as [|j']; simpl; [lia|].
  destruct (j2len !! j') as [k|] eqn:E; simpl; [|lia].
  destruct (Hb _ _ E). lia.
Qed.

Lemma scan_indices_within alo i blo bhi j2len js :
  alo ≤ i →
  j2len_bounded alo blo i j2len →
  ∀ newj2len best,
    within alo (S i) blo bhi best →
    j2len_bounded alo blo (S i) newj2len →
    within alo (S i) blo bhi (scan_indices i blo bhi j2len js newj2len best).2
    ∧ j2len_bounded alo blo (S i)
        (scan_indices i blo bhi j2len js newj2len best).1.
Proof.
  intros Hi Hold. induction js as [|j js IH]; intros newj2len best Hbest Hnew; simpl.
  - done.
  - destruct (j <? blo) eqn:Hlo; [by apply IH|].
    destruct (bhi <=? j) eqn:Hhi; simpl; [done|].
    apply Nat.ltb_ge in Hlo. apply Nat.leb_gt in Hhi.
    destruct (j2lenget_pred_bounded alo blo i j2len j Hold Hlo) as [Hk1 Hk2].
    apply IH.
    + destruct (Match_size best <? _) eqn:Hk; [|done].
      unfold within; simpl. lia.
    + intros j0 k0. rewrite lookup_insert.
      case_decide; [|by apply Hnew].
      intros [= <-]. subst. lia.
Qed.

Lemma scan_rows_within a b2j alo blo bhi n :
  ∀ i j2len best,
    alo ≤ i →
    j2len_bounded alo blo i j2len →
    within alo i blo bhi best →
    within alo (i + n) blo bhi (scan_rows a b2j blo bhi (seq i n) j2len best).
Proof.
  induction n as [|n IH]; intros i j2len best Hi Hj Hbest; simpl.
  - by rewrite Nat.add_0_r.
  - destruct (scan_indices i blo bhi j2len (b2j_get b2j a i) ∅ best)
      as [newj2len best'] eqn:E.
    assert (Hbest' : within alo (S i) blo bhi best)
      by (unfold within in *; lia).
    destruct (scan_indices_within alo i blo bhi j2len (b2j_get b2j a i) Hi Hj
                ∅ best Hbest' (j2len_bounded_empty _ _ _)) as [Hw Hb].
    rewrite E in Hw, Hb. simpl in Hw, Hb.
    replace (i + S n) with (S i + n) by lia.
    apply IH; [lia|done..].
Qed.

Lemma extend_left_within junk a b alo ahi blo bhi besti :
  ∀ bestj bestsize,
    within alo ahi blo bhi (mkMatch besti bestj bestsize) →
    within alo ahi blo bhi (extend_left junk a b alo blo besti bestj bestsize).
Proof.
  induction besti as [|i' IH]; intros bestj bestsize Hw; simpl; [done|].
  destruct bestj as [|j']; [done|].
  destruct (_ && _) eqn:Hg; [|done].
  apply IH. repeat (apply andb_prop in Hg as [Hg ?]).
  apply Nat.ltb_lt in Hg. rewrite Nat.ltb_lt in *.
  unfold within in *; simpl in *. lia.
Qed.

Lemma extend_right_loop_within junk a b alo ahi blo bhi besti bestj rounds :
  ∀ bestsize,
    within alo ahi blo bhi (mkMatch besti bestj bestsize) →
    within alo ahi blo bhi
      (extend_right_loop rounds junk a b ahi bhi besti bestj bestsize).
Proof.
  induction rounds as [|r IH]; intros bestsize Hw; simpl; [done|].
  destruct (_ && _) eqn:Hg; [|done].
  apply IH. repeat (apply andb_prop in Hg as [Hg ?]).
  apply Nat.ltb_lt in Hg. rewrite Nat.ltb_lt in *.
  unfold within in *; simpl in *. lia.
Qed.

Lemma Match_eta (x : Match) : mkMatch (Match_a x) (Match_b x) (Match_size x) = x.
Proof. by destruct x. Qed.

Lemma find_longest_match_within a b b2j alo ahi blo bhi :
  alo ≤ ahi → blo ≤ bhi →
  within alo ahi blo bhi (find_longest_match a b b2j alo ahi blo bhi).
Proof.
  intros Ha Hb. unfold find_longest_match, extend_right.
  apply extend_right_loop_within. rewrite Match_eta.
  apply extend_left_within. rewrite Match_eta.
  apply extend_right_loop_within. rewrite Match_eta.
  apply extend_left_within. rewrite Match_eta.
  replace ahi with (alo + (ahi - alo)) at 1 by lia.
  apply scan_rows_within; [lia|apply j2len_bounded_empty|].
  unfold within; simpl. lia.
Qed.

(** The right-extension loop is the [while] loop: it satisfies the
    loop's unfolding equation, the rounds never running out. *)
Lemma extend_right_loop_enough junk a b ahi bhi besti bestj rounds :
  ∀ bestsize,
    ahi - (besti + bestsize) ≤ rounds →
    extend_right_loop rounds junk a b ahi bhi besti bestj bestsize
    = extend_right junk a b ahi bhi besti bestj bestsize.
Proof.
  unfold extend_right.
  induction rounds as [|r IH]; intros bestsize Hr.
  - by replace (ahi - (besti + bestsize)) with 0 by lia.
  - destruct (ahi - (besti + bestsize)) as [|r'] eqn:E; simpl.
    + replace (besti + bestsize <? ahi) with false; [done|].
      symmetry. apply Nat.ltb_ge. lia.
    + destruct (_ && _) eqn:Hg; [|done].
      rewrite IH by lia.
      rewrite <- (IH (bestsize + 1)) by lia.
      rewrite (IH (bestsize + 1)) by lia.
      f_equal. lia.
Qed.

Lemma extend_right_unfold junk a b ahi bhi besti bestj bestsize :
  extend_right junk a b ahi bhi besti bestj bestsize
  = if (besti + bestsize <? ahi) && (bestj + bestsize <? bhi)
       && Bool.eqb (isbjunk (b !! (bestj + bestsize))) junk
       && elt_eqb (a !! (besti + bestsize)) (b !! (bestj + bestsize))
    then extend_right junk a b ahi bhi besti bestj (bestsize + 1)
    else mkMatch besti bestj bestsize.
Proof.
  unfold extend_right at 1.
  destruct (ahi - (besti + bestsize)) as [|r] eqn:E; simpl.
  - replace (besti + bestsize <? ahi) with false; [done|].
    symmetry. apply Nat.ltb_ge. lia.
  - destruct (_ && _) eqn:Hg; [|done].
    apply extend_right_loop_enough. lia.
Qed.

(** ** The [while queue:] loop *)

Lemma queue_step_inv a b b2j st st' :
  queue_step a b b2j st = Some st' →
  Forall rect_ok st.1 →
  Forall rect_ok st'.1
  ∧ sum_list_with Match_size st'.2 + sum_list_with width_a st'.1
    ≤ sum_list_with Match_size st.2 + sum_list_with width_a st.1
  ∧ sum_list_with Match_size st'.2 + sum_list_with width_b st'.1
    ≤ sum_list_with Match_size st.2 + sum_list_with width_b st.1
  ∧ queue_measure st'.1 < queue_measure st.1.
Proof.
  destruct st as [queue blocks]. unfold queue_step; simpl.
  destruct queue as [|[[[alo ahi] blo] bhi] queue]; [done|].
  intros Hst Hok. apply Forall_cons in Hok as [[Ha Hb] Hok].
  pose proof (find_longest_match_within a b b2j alo ahi blo bhi Ha Hb) as Hw.
  destruct (find_longest_match a b b2j alo ahi blo bhi) as [i j k].
  unfold within in Hw; simpl in *.
  destruct (0 <? k) eqn:Hk.
  - injection Hst as <-. simpl.
    rewrite sum_list_with_app; simpl.
    apply Nat.ltb_lt in Hk.
    destruct ((alo <? i) && (blo <? j)) eqn:H1;
      destruct ((i + k <? ahi) && (j + k <? bhi)) eqn:H2;
      rewrite ?andb_true_iff, ?Nat.ltb_lt in H1, H2;
      unfold queue_measure; simpl;
      (split; [repeat (apply Forall_cons; split); try done; simpl; lia|]).
    all: lia.
  - injection Hst as <-. unfold queue_measure; simpl.
    split; [done|]. lia.
Qed.

Lemma queue_step_in_range a b b2j la lb st st' :
  queue_step a b b2j st = Some st' →
  Forall rect_ok st.1 →
  Forall (rect_in la lb) st.1 →
  Forall (rect_in la lb) st'.1.
Proof.
  destruct st as [queue blocks]. unfold queue_step; simpl.
  destruct queue as [|[[[alo ahi] blo] bhi] queue]; [done|].
  intros Hst Hok Hin.
  apply Forall_cons in Hok as [[Ha Hb] Hok].
  apply Forall_cons in Hin as [[Hla Hlb] Hin].
  pose proof (find_longest_match_within a b b2j alo ahi blo bhi Ha Hb) as Hw.
  destruct (find_longest_match a b b2j alo ahi blo bhi) as [i j k].
  unfold within in Hw; simpl in *.
  destruct (0 <? k); injection Hst as <-; simpl; [|done].
  destruct ((alo <? i) && (blo <? j));
    destruct ((i + k <? ahi) && (j + k <? bhi));
    repeat (apply Forall_cons; split); try done; simpl; lia.
Qed.

Lemma queue_measure_nil queue : queue_measure queue = 0 → queue = [].
Proof.
  destruct queue as [|r queue]; [done|]. unfold queue_measure; simpl. lia.
Qed.

Lemma queue_loop_inv a b b2j rounds :
  ∀ st,
    Forall rect_ok st.1 →
    let st' := queue_loop rounds a b b2j st in
    sum_list_with Match_size st'.2 + sum_list_with width_a st'.1
      ≤ sum_list_with Match_size st.2 + sum_list_with width_a st.1
    ∧ sum_list_with Match_size st'.2 + sum_list_with width_b st'.1
      ≤ sum_list_with Match_size st.2 + sum_list_with width_b st.1
    ∧ (queue_measure st.1 ≤ rounds → st'.1 = []).
Proof.
  induction rounds as [|r IH]; intros st Hok; simpl.
  - repeat split; [lia..|]. intros Hm. apply queue_measure_nil. lia.
  - destruct (queue_step a b b2j st) as [st1|] eqn:E.
    + destruct (queue_step_inv _ _ _ _ _ E Hok) as (Hok1 & Ha & Hb & Hm).
      destruct (IH st1 Hok1) as (Ha' & Hb' & Hm').
      repeat split; [lia..|]. intros Hr. apply Hm'. lia.
    + repeat split; [lia..|]. intros _.
      unfold queue_step in E. destruct st.1 as [|[[[? ?] ?] ?] ?]; [done|].
      by destruct (0 <? _).
Qed.

(** Every rectangle that the loop works on lies inside the sequences. *)
Lemma queue_loop_in_range a b b2j la lb rounds :
  ∀ st,
    Forall rect_ok st.1 →
    Forall (rect_in la lb) st.1 →
    Forall rect_ok (queue_loop rounds a b b2j st).1
    ∧ Forall (rect_in la lb) (queue_loop rounds a b b2j st).1.
Proof.
  induction rounds as [|r IH]; intros st Hok Hin; simpl; [done|].
  destruct (queue_step a b b2j st) as [st1|] eqn:E; [|done].
  apply IH.
  - by destruct (queue_step_inv _ _ _ _ _ E Hok).
  - by eapply queue_step_in_range.
Qed.

(** The loop ends because the queue is empty, not for lack of rounds. *)
Lemma queue_loop_empties a b : (raw_blocks a b).1 = [].
Proof.
  unfold raw_blocks.
  apply queue_loop_inv; simpl.
  - repeat constructor; lia.
  - unfold queue_measure; simpl. lia.
Qed.

Lemma raw_blocks_total a b :
  sum_list_with Match_size (raw_blocks a b).2 ≤ length a
  ∧ sum_list_with Match_size (raw_blocks a b).2 ≤ length b.
Proof.
  unfold raw_blocks.
  destruct (queue_loop_inv a b (chain_b b) (2 * length a + 1)
              ([(0, length a, 0, length b)], [])) as (Ha & Hb & _).
  { repeat constructor; simpl; lia. }
  simpl in *. lia.
Qed.

(** ** Sorting and collapsing keep the number of matched elements *)

Lemma insert_block_total x l :
  sum_list_with Match_size (insert_block x l)
  = Match_size x + sum_list_with Match_size l.
Proof.
  induction l as [|y l IH]; simpl; [done|].
  destruct (Match_ltb y x); simpl; lia.
Qed.

Lemma sort_blocks_total l :
  sum_list_with Match_size (sort_blocks l) = sum_list_with Match_size l.
Proof.
  unfold sort_blocks.
  induction l as [|x l IH]; simpl; [done|].
  by rewrite insert_block_total, IH.
Qed.

Lemma collapse_total blocks :
  ∀ i1 j1 k1 non_adjacent,
    sum_list_with Match_size (collapse i1 j1 k1 blocks non_adjacent)
    = sum_list_with Match_size non_adjacent + k1
      + sum_list_with Match_size blocks.
Proof.
  induction blocks as [|x blocks IH]; intros i1 j1 k1 non_adjacent; simpl.
  - destruct (0 <? k1) eqn:Hk.
    + rewrite sum_list_with_app; simpl. lia.
    + apply Nat.ltb_ge in Hk. lia.
  - destruct (_ && _); rewrite IH; [lia|].
    destruct (0 <? k1) eqn:Hk.
    + rewrite sum_list_with_app; simpl. lia.
    + apply Nat.ltb_ge in Hk. lia.
Qed.

Lemma matching_blocks_total a b :
  sum_list_with Match_size (get_matching_blocks a b)
  = sum_list_with Match_size (raw_blocks a b).2.
Proof.
  unfold get_matching_blocks.
  rewrite sum_list_with_app, collapse_total, sort_blocks_total. simpl. lia.
Qed.

Lemma matches_bound a b :
  sum_list_with Match_size (get_matching_blocks a b) ≤ length a
  ∧ sum_list_with Match_size (get_matching_blocks a b) ≤ length b.
Proof. rewrite matching_blocks_total. apply raw_blocks_total. Qed.
End difflib_bounds.

(* ===================================================================== *)
(** * A sequence against itself                                            *)
(* ===================================================================== *)

Section difflib_identity.
Context `{Countable A}.
Import difflib.
Implicit Types (a b s : list A) (b2j : gmap A (list nat)).
Implicit Types (j2len newj2len : gmap nat nat) (best : Match).

(** ** What [__chain_b] stores *)

Lemma enumerate_b_lookup b (c : A) :
  ∀ i b2j,
    enumerate_b i b b2j !! c
    = match positions_from i c b with
      | [] => b2j !! c
      | ps => Some (default [] (b2j !! c) ++ ps)
      end.
Proof.
  induction b as [|x b IH]; intros i b2j; simpl; [done|].
  rewrite IH. unfold setdefault_append.
  destruct (decide (x = c)) as [->|Hne].
  - rewrite lookup_insert_eq; simpl.
    destruct (positions_from (S i) c b); [done|].
    by rewrite <- app_assoc.
  - by rewrite lookup_insert_ne.
Qed.

Lemma chain_b_lookup b c l :
  chain_b b !! c = Some l → l = positions_from 0 c b.
Proof.
  unfold chain_b. intros Hl.
  apply map_lookup_filter_Some in Hl as [Hl _].
  rewrite enumerate_b_lookup, lookup_empty in Hl.
  destruct (positions_from 0 c b); [done|].
  by injection Hl as <-.
Qed.

Lemma positions_from_app (c : A) (l1 l2 : list A) :
  ∀ i, positions_from i c (l1 ++ l2)
       = positions_from i c l1 ++ positions_from (i + length l1) c l2.
Proof.
  induction l1 as [|x l1 IH]; intros i; simpl.
  - by rewrite Nat.add_0_r.
  - rewrite IH. replace (S i + length l1) with (i + S (length l1)) by lia.
    by destruct (decide (x = c)).
Qed.

Lemma positions_from_elem (c : A) (l : list A) :
  ∀ i j, j ∈ positions_from i c l →
         i ≤ j ∧ j < i + length l ∧ l !! (j - i) = Some c.
Proof.
  induction l as [|x l IH]; intros i j Hj; simpl in *.
  - by apply elem_of_nil in Hj.
  - destruct (decide (x = c)) as [->|Hne].
    + apply elem_of_cons in Hj as [->|Hj].
      * rewrite Nat.sub_diag. simpl. repeat split; lia.
      * apply IH in Hj as (? & ? & Hl).
        replace (j - i) with (S (j - S i)) by lia. simpl.
        repeat split; [lia..|done].
    + apply IH in Hj as (? & ? & Hl).
      replace (j - i) with (S (j - S i)) by lia. simpl.
      repeat split; [lia..|done].
Qed.

(** The occurrences of [s[i]] are those before [i], then [i], then those
    after [i]. *)
Lemma positions_from_split s i c :
  s !! i = Some c →
  ∃ before after,
    positions_from 0 c s = before ++ i :: after
    ∧ (∀ j, j ∈ before → j < i ∧ s !! j = Some c)
    ∧ (∀ j, j ∈ after → i < j ∧ j < length s ∧ s !! j = Some c).
Proof.
  intros Hi.
  pose proof (lookup_lt_Some _ _ _ Hi) as Hlt.
  exists (positions_from 0 c (take i s)),
         (positions_from (S i) c (drop (S i) s)).
  split; [|split].
  - rewrite <- (take_drop_middle s i c Hi) at 1.
    rewrite positions_from_app, length_take_le by lia. simpl.
    by rewrite decide_True.
  - intros j Hj. apply positions_from_elem in Hj as (_ & Hj & Hl).
    rewrite length_take_le in Hj by lia. simpl in Hj.
    rewrite Nat.sub_0_r in Hl.
    rewrite lookup_take_lt in Hl by lia. done.
  - intros j Hj. apply positions_from_elem in Hj as (Hj1 & Hj2 & Hl).
    rewrite length_drop in Hj2. rewrite lookup_drop in Hl.
    replace (S i + (j - S i)) with j in Hl by lia.
    repeat split; [lia..|done].
Qed.

(** ** The inner loop on a row *)

Lemma scan_indices_app i blo bhi j2len l1 l2 :
  ∀ newj2len best,
    (∀ j, j ∈ l1 → j < bhi) →
    scan_indices i blo bhi j2len (l1 ++ l2) newj2len best
    = scan_indices i blo bhi j2len l2
        (scan_indices i blo bhi j2len l1 newj2len best).1
        (scan_indices i blo bhi j2len l1 newj2len best).2.
Proof.
  induction l1 as [|j l1 IH]; intros newj2len best Hl; simpl; [done|].
  assert (Hj : j < bhi) by (apply Hl; left).
  assert (Hl' : ∀ j', j' ∈ l1 → j' < bhi) by (intros; apply Hl; by right).
  destruct (j <? blo); [by apply IH|].
  replace (bhi <=? j) with false by (symmetry; apply Nat.leb_gt; lia).
  by apply IH.
Qed.

Lemma scan_indices_quiet i blo bhi j2len js :
  ∀ newj2len best,
    (∀ j, j ∈ js →
          blo ≤ j ∧ j < bhi ∧ j2lenget_pred j2len j + 1 ≤ Match_size best) →
    scan_indices i blo bhi j2len js newj2len best
    = (foldl (row_insert j2len) newj2len js, best).
Proof.
  induction js as [|j js IH]; intros newj2len best Hjs; simpl; [done|].
  destruct (Hjs j) as (Hlo & Hhi & Hk); [left|].
  replace (j <? blo) with false by (symmetry; apply Nat.ltb_ge; lia).
  replace (bhi <=? j) with false by (symmetry; apply Nat.leb_gt; lia).
  replace (Match_size best <? j2lenget_pred j2len j + 1) with false
    by (symmetry; apply Nat.ltb_ge; lia).
  apply IH. intros j' Hj'. apply Hjs. by right.
Qed.

Lemma foldl_row_insert_lookup j2len js :
  ∀ newj2len j,
    foldl (row_insert j2len) newj2len js !! j
    = if decide (j ∈ js) then Some (j2lenget_pred j2len j + 1)
      else newj2len !! j.
Proof.
  induction js as [|x js IH]; intros newj2len j; cbn [foldl].
  - rewrite decide_False; [done|]. apply not_elem_of_nil.
  - rewrite IH. unfold row_insert.
    destruct (decide (j ∈ js)) as [Hin|Hnin].
    + rewrite decide_True; [done|]. by right.
    + destruct (decide (j = x)) as [->|Hne].
      * rewrite lookup_insert_eq, decide_True; [done|]. by left.
      * rewrite lookup_insert_ne by done.
        rewrite decide_False; [done|].
        intros [?|?]%elem_of_cons; done.
Qed.

(** ** [find_longest_match] on a sequence against itself *)

Lemma kept_at_Some b2j s j c :
  s !! j = Some c → kept_at b2j s j = bool_decide (is_Some (b2j !! c)).
Proof. unfold kept_at. by intros ->. Qed.

Lemma j2lenget_pred_diag b2j s i j2len best j :
  diag_inv b2j s i j2len best →
  j2lenget_pred j2len j ≤ run b2j s j ∧ j2lenget_pred j2len j ≤ run b2j s i.
Proof.
  intros (_ & Hb & _ & _). destruct j as [|j']; simpl; [lia|].
  destruct (j2len !! j') as [k|] eqn:E; simpl; [|lia].
  destruct (Hb _ _ E) as [H1 H2]. simpl in H1. lia.
Qed.

Lemma diag_inv_row s i j2len best :
  i < length s →
  diag_inv (chain_b s) s i j2len best →
  diag_inv (chain_b s) s (S i)
    (scan_indices i 0 (length s) j2len (b2j_get (chain_b s) s i) ∅ best).1
    (scan_indices i 0 (length s) j2len (b2j_get (chain_b s) s i) ∅ best).2.
Proof.
  intros Hi Hinv.
  destruct (lookup_lt_is_Some_2 s i Hi) as [c Hc].
  unfold b2j_get. rewrite Hc.
  pose proof Hinv as (Hdiag & Hb & Hpred & Hbest).
  destruct (chain_b s !! c) as [l|] eqn:Hl; simpl.
  - (* [c] is a key: the row visits every occurrence of [c] *)
    assert (Hkept : ∀ j, s !! j = Some c →
                         run (chain_b s) s (S j) = S (run (chain_b s) s j)).
    { intros j Hj. simpl. rewrite (kept_at_Some _ _ _ _ Hj), Hl.
      by rewrite bool_decide_true. }
    apply chain_b_lookup in Hl as ->.
    destruct (positions_from_split s i c Hc)
      as (before & after & -> & Hbefore & Hafter).
    set (k := j2lenget_pred j2len i + 1).
    set (best' := if Match_size best <? k
                  then mkMatch (i + 1 - k) (i + 1 - k) k else best).
    assert (Hk : k = run (chain_b s) s (S i)).
    { unfold k. rewrite Hpred, (Hkept i Hc). lia. }
    assert (Hsize : Match_size best ≤ Match_size best'
                    ∧ k ≤ Match_size best').
    { unfold best'. destruct (Match_size best <? k) eqn:E; simpl.
      - apply Nat.ltb_lt in E. lia.
      - apply Nat.ltb_ge in E. lia. }
    assert (Hscan :
      scan_indices i 0 (length s) j2len (before ++ i :: after) ∅ best
      = (foldl (row_insert j2len) ∅ (before ++ i :: after), best')).
    { rewrite scan_indices_app.
      2:{ intros j Hj. destruct (Hbefore j Hj). lia. }
      rewrite (scan_indices_quiet i 0 (length s) j2len before).
      2:{ intros j Hj. destruct (Hbefore j Hj) as [Hji Hjc].
          destruct (j2lenget_pred_diag _ _ _ _ _ j Hinv) as [Hp _].
          pose proof (Hbest (S j) ltac:(lia)) as Hr.
          rewrite (Hkept j Hjc) in Hr. lia. }
      simpl.
      replace (length s <=? i) with false by (symmetry; apply Nat.leb_gt; lia).
      fold k. fold best'.
      rewrite scan_indices_quiet.
      2:{ intros j Hj. destruct (Hafter j Hj) as (Hji & Hjn & Hjc).
          destruct (j2lenget_pred_diag _ _ _ _ _ j Hinv) as [_ Hp].
          rewrite (Hkept i Hc) in Hk. lia. }
      by rewrite foldl_app. }
    rewrite Hscan; simpl.
    assert (Hmem : ∀ j, j ∈ before ++ i :: after → s !! j = Some c).
    { intros j [Hj|[->|Hj]%elem_of_cons]%elem_of_app; [|done|].
      - by destruct (Hbefore j Hj).
      - by destruct (Hafter j Hj) as (_ & _ & ?). }
    split; [|split; [|split]].
    + unfold best'. by destruct (Match_size best <? k).
    + intros j k0. rewrite foldl_row_insert_lookup.
      destruct (decide (j ∈ before ++ i :: after)) as [Hj|]; [|done].
      intros [= <-].
      destruct (j2lenget_pred_diag _ _ _ _ _ j Hinv) as [Hp1 Hp2].
      rewrite (Hkept j (Hmem j Hj)), (Hkept i Hc). lia.
    + unfold j2lenget_pred at 1.
      rewrite foldl_row_insert_lookup, decide_True; [done|].
      apply elem_of_app. right. by left.
    + intros t Ht. destruct (decide (t = S i)) as [->|Hne]; [lia|].
      pose proof (Hbest t ltac:(lia)). lia.
  - (* [c] is popular: the row is skipped *)
    assert (Hrun : run (chain_b s) s (S i) = 0).
    { simpl. rewrite (kept_at_Some _ _ _ _ Hc), Hl.
      rewrite bool_decide_false; [done|]. by intros [? ?]. }
    split; [done|split; [|split]].
    + intros j k0 Hk0. by rewrite lookup_empty in Hk0.
    + by rewrite Hrun.
    + intros t Ht. destruct (decide (t = S i)) as [->|Hne]; [lia|].
      apply Hbest. lia.
Qed.

Lemma diag_inv_rows s n :
  ∀ i j2len best,
    i + n ≤ length s →
    diag_inv (chain_b s) s i j2len best →
    Match_a (scan_rows s (chain_b s) 0 (length s) (seq i n) j2len best)
    = Match_b (scan_rows s (chain_b s) 0 (length s) (seq i n) j2len best).
Proof.
  induction n as [|n IH]; intros i j2len best Hn Hinv; simpl.
  - by destruct Hinv.
  - pose proof (diag_inv_row s i j2len best ltac:(lia) Hinv) as Hrow.
    destruct (scan_indices i 0 (length s) j2len (b2j_get (chain_b s) s i) ∅ best)
      as [newj2len best'].
    apply IH; [lia|done].
Qed.

Lemma diag_inv_start b2j s : diag_inv b2j s 0 ∅ (mkMatch 0 0 0).
Proof.
  split; [done|split; [|split; [done|]]].
  - intros j k Hk. by rewrite lookup_empty in Hk.
  - intros t Ht. replace t with 0 by lia. simpl. lia.
Qed.

Lemma isbjunk_false (y : option A) : isbjunk y = false.
Proof.
  destruct y as [elt|]; [|done]. unfold isbjunk, bjunk.
  apply bool_decide_eq_false, not_elem_of_empty.
Qed.

Lemma elt_eqb_refl s i : i < length s → elt_eqb (s !! i) (s !! i) = true.
Proof.
  intros Hi. destruct (lookup_lt_is_Some_2 s i Hi) as [c ->]; simpl.
  by apply bool_decide_eq_true.
Qed.

Lemma extend_left_diag s d :
  ∀ k, d ≤ length s →
       extend_left false s s 0 0 d d k = mkMatch 0 0 (k + d).
Proof.
  induction d as [|d IH]; intros k Hd; simpl.
  - by rewrite Nat.add_0_r.
  - rewrite isbjunk_false, elt_eqb_refl by lia. simpl.
    rewrite IH by lia. f_equal. lia.
Qed.

Lemma extend_right_loop_diag s rounds :
  ∀ k, k + rounds = length s →
       extend_right_loop rounds false s s (length s) (length s) 0 0 k
       = mkMatch 0 0 (length s).
Proof.
  induction rounds as [|r IH]; intros k Hk; simpl.
  - f_equal. lia.
  - replace (k <? length s) with true by (symmetry; apply Nat.ltb_lt; lia).
    rewrite isbjunk_false, elt_eqb_refl by lia. simpl.
    apply IH. lia.
Qed.

(** Against itself a sequence is one block, popular elements or not. *)
Lemma find_longest_match_self s :
  find_longest_match s s (chain_b s) 0 (length s) 0 (length s)
  = mkMatch 0 0 (length s).
Proof.
  unfold find_longest_match. rewrite Nat.sub_0_r.
  pose proof (diag_inv_rows s (length s) 0 ∅ (mkMatch 0 0 0)
                ltac:(lia) (diag_inv_start _ _)) as Hdiag.
  pose proof (scan_rows_within s (chain_b s) 0 0 (length s) (length s) 0 ∅
                (mkMatch 0 0 0) ltac:(lia) (j2len_bounded_empty _ _ _)) as Hw.
  destruct (scan_rows s (chain_b s) 0 (length s) (seq 0 (length s)) ∅
              (mkMatch 0 0 0)) as [d d' k].
  simpl in Hdiag. subst d'.
  destruct Hw as (_ & Hw & _); [unfold within; simpl; lia|]. simpl in Hw.
  cbn [Match_a Match_b Match_size].
  rewrite extend_left_diag by lia. cbn [Match_a Match_b Match_size].
  unfold extend_right.
  rewrite (extend_right_loop_diag s _ (k + d)) by lia.
  cbn [extend_left Match_a Match_b Match_size].
  by rewrite Nat.add_0_l, Nat.sub_diag.
Qed.

Lemma raw_blocks_self s :
  sum_list_with Match_size (raw_blocks s s).2 = length s.
Proof.
  unfold raw_blocks.
  replace (2 * length s + 1) with (S (2 * length s)) by lia.
  cbn [queue_loop]. unfold queue_step. cbn [fst snd].
  rewrite find_longest_match_self. cbn [Match_a Match_b Match_size].
  destruct (length s) as [|n] eqn:E; [done|].
  replace (0 <? S n) with true by done.
  rewrite Nat.ltb_irrefl, Nat.add_0_l, Nat.ltb_irrefl. simpl.
  rewrite Nat.add_0_r. by destruct (n + S n).
Qed.

Lemma matches_self s :
  sum_list_with Match_size (get_matching_blocks s s) = length s.
Proof. rewrite matching_blocks_total. apply raw_blocks_self. Qed.

(** ** The ratio *)

Lemma _calculate_ratio_range (matches la lb : nat) :
  matches ≤ la → matches ≤ lb →
  (0 <= _calculate_ratio matches (la + lb)
   ∧ _calculate_ratio matches (la + lb) <= 1)%Q.
Proof.
  intros Ha Hb. unfold _calculate_ratio.
  destruct (la + lb =? 0) eqn:E; [split; discriminate|].
  apply Nat.eqb_neq in E.
  assert (Hpos : (0 < inject_Z (Z.of_nat (la + lb)))%Q).
  { rewrite <- (Zlt_Qlt 0). lia. }
  split.
  - apply Qle_shift_div_l; [done|].
    rewrite Qmult_0_l.
    rewrite <- (inject_Z_mult 2), <- (Zle_Qle 0). lia.
  - apply Qle_shift_div_r; [done|].
    rewrite Qmult_1_l.
    rewrite <- (inject_Z_mult 2), <- Zle_Qle. lia.
Qed.

Lemma ratio_range a b : (0 <= ratio a b ∧ ratio a b <= 1)%Q.
Proof.
  unfold ratio. destruct (matches_bound a b).
  by apply _calculate_ratio_range.
Qed.

Lemma ratio_self s : (ratio s s == 1)%Q.
Proof.
  unfold ratio, _calculate_ratio. rewrite matches_self.
  destruct (length s + length s =? 0) eqn:E; [reflexivity|].
  apply Nat.eqb_neq in E.
  rewrite <- (inject_Z_mult 2).
  replace (2 * Z.of_nat (length s))%Z with (Z.of_nat (length s + length s)) by lia.
  apply Qmult_inv_r.
  intros Hz. unfold Qeq in Hz. simpl in Hz. lia.
Qed.

Lemma ratio_no_match a b :
  (a = [] ∨ b = []) → a ++ b ≠ [] → (ratio a b == 0)%Q.
Proof.
  intros Hnil Hne. unfold ratio, _calculate_ratio.
  destruct (matches_bound a b) as [Ha Hb].
  assert (Hm : sum_list_with Match_size (get_matching_blocks a b) = 0).
  { destruct Hnil as [-> | ->]; simpl in *; lia. }
  rewrite Hm.
  destruct (length a + length b =? 0) eqn:E.
  - apply Nat.eqb_eq in E. clear Ha Hb Hm Hnil.
    destruct a; [destruct b; [done|]|]; simpl in E; lia.
  - simpl. unfold Qdiv. by rewrite Qmult_0_l.
Qed.
End difflib_identity.

(** * Facts about the [str] methods *)

Section str_facts.
Import Str.

Lemma append_cons c s t :
  String.append (String c s) t = String c (String.append s t).
Proof. reflexivity. Qed.

Lemma append_empty t : String.append EmptyString t = t.
Proof. reflexivity. Qed.

Lemma prefix_spec p s :
  String.prefix p s = true ↔ ∃ post, s = String.append p post.
Proof.
  revert s. induction p as [|a p IH]; intros s.
  - destruct s; split; eauto.
  - destruct s as [|b s]; [split; [done|by intros [? ?]]|].
    change (String.prefix (String a p) (String b s))
      with (if ascii_dec a b then String.prefix p s else false).
    destruct (ascii_dec a b) as [->|Hne].
    + rewrite IH. split; intros [post Hp]; exists post;
        rewrite append_cons in *; congruence.
    + split; [done|]. intros [post Hp]. rewrite append_cons in Hp. congruence.
Qed.

Lemma contains_spec needle hay :
  contains needle hay = true ↔ is_substring needle hay.
Proof.
  unfold is_substring. induction hay as [|c hay IH]; cbn [contains].
  - rewrite orb_false_r, prefix_spec. split.
    + intros [post Hp]. by exists EmptyString, post.
    + intros (pre & post & Hp). destruct pre; [by exists post|done].
  - rewrite orb_true_iff, IH, prefix_spec. split.
    + intros [[post Hp]|(pre & post & Hp)].
      * by exists EmptyString, post.
      * exists (String c pre), post. by rewrite append_cons, Hp.
    + intros (pre & post & Hp). destruct pre as [|c' pre].
      * left. by exists post.
      * right. exists pre, post. rewrite append_cons in Hp. congruence.
Qed.

Lemma contains_empty hay : contains EmptyString hay = true.
Proof. by destruct hay. Qed.

Lemma lower_empty s : lower s = EmptyString ↔ s = EmptyString.
Proof. by destruct s. Qed.

Lemma lower_char_idemp c : lower_char (lower_char c) = lower_char c.
Proof. destruct c as [[] [] [] [] [] [] [] []]; reflexivity. Qed.

Lemma lower_idemp s : lower (lower s) = lower s.
Proof.
  induction s as [|c s IH]; simpl; [done|].
  by rewrite lower_char_idemp, IH.
Qed.

Lemma list_ascii_of_string_nil s :
  list_ascii_of_string s = [] ↔ s = EmptyString.
Proof. by destruct s. Qed.

Lemma decimal_isdigit c : is_decimal_digit c → isdigit_char c = true.
Proof.
  unfold is_decimal_digit, isdigit_char. intros [H1 H2].
  apply Nat.leb_le in H1, H2. by rewrite H1, H2.
Qed.

Lemma decimal_value_digit c :
  is_decimal_digit c → ∃ d, decimal_value c = Some d ∧ (0 ≤ d)%Z.
Proof.
  unfold is_decimal_digit, decimal_value. intros [H1 H2].
  apply Nat.leb_le in H1, H2. rewrite H1, H2. simpl.
  eexists; split; [done|lia].
Qed.

Lemma all_chars_decimal s :
  Forall is_decimal_digit (list_ascii_of_string s) →
  all_chars isdigit_char s = true.
Proof.
  induction s as [|c s IH]; simpl; [done|].
  intros [Hc Hs]%Forall_cons. by rewrite decimal_isdigit, IH.
Qed.

Lemma int_from_decimal s :
  Forall is_decimal_digit (list_ascii_of_string s) →
  ∀ acc, (0 ≤ acc)%Z → ∃ n, int_from acc s = Some n ∧ (0 ≤ n)%Z.
Proof.
  induction s as [|c s IH]; simpl; intros Hs acc Hacc; [by exists acc|].
  apply Forall_cons in Hs as [Hc Hs].
  destruct (decimal_value_digit c Hc) as (d & -> & Hd).
  apply IH; [done|lia].
Qed.

Lemma decimal_value_number c :
  is_decimal_digit c →
  decimal_value c = Some (Z.of_nat (nat_of_ascii c - 48)).
Proof.
  unfold is_decimal_digit, decimal_value. intros [H1 H2].
  apply Nat.leb_le in H1, H2. by rewrite H1, H2.
Qed.

Lemma decimal_number_nonneg s : (0 ≤ decimal_number s)%Z.
Proof.
  induction s as [|c s IH]; cbn [decimal_number]; [done|].
  assert (0 ≤ 10 ^ Z.of_nat (String.length s))%Z by (apply Z.pow_nonneg; lia).
  nia.
Qed.

(** The accumulator of [int] ends on the number that the digits denote. *)
Lemma int_from_decimal_number s :
  Forall is_decimal_digit (list_ascii_of_string s) →
  ∀ acc,
    int_from acc s
    = Some (acc * 10 ^ Z.of_nat (String.length s) + decimal_number s)%Z.
Proof.
  induction s as [|c s IH]; intros Hs acc.
  - cbn [int_from decimal_number String.length]. f_equal.
    change (10 ^ Z.of_nat 0)%Z with 1%Z. lia.
  - cbn [list_ascii_of_string] in Hs. apply Forall_cons in Hs as [Hc Hs].
    cbn [int_from decimal_number String.length].
    rewrite (decimal_value_number c Hc), (IH Hs). f_equal.
    rewrite Nat2Z.inj_succ, Z.pow_succ_r by lia. ring.
Qed.

Lemma int_unfold c s :
  int (String c s)
  = if int_max_str_digits <? String.length (String c s) then None
    else int_from 0 (String c s).
Proof. reflexivity. Qed.

Lemma int_decimal s :
  s ≠ EmptyString →
  Forall is_decimal_digit (list_ascii_of_string s) →
  String.length s ≤ int_max_str_digits →
  int s = Some (decimal_number s).
Proof.
  intros Hne Hs Hlen. destruct s as [|c s]; [done|].
  rewrite int_unfold. rewrite (proj2 (Nat.ltb_ge _ _)) by done.
  rewrite (int_from_decimal_number _ Hs). f_equal; lia.
Qed.

Lemma int_too_long s :
  int_max_str_digits < String.length s → int s = None.
Proof.
  intros Hlen. destruct s as [|c s]; [done|].
  rewrite int_unfold. by rewrite (proj2 (Nat.ltb_lt _ _)).
Qed.
End str_facts.

(** * Facts about the ranking *)

Section ranking_facts.
Import FuzzySearch.

Lemma insert_desc_perm x l : insert_desc x l ≡ₚ x :: l.
Proof.
  induction l as [|y l IH]; simpl; [done|].
  destruct (Qle_bool _ _); [done|].
  rewrite IH. apply Permutation_swap.
Qed.

Lemma sorted_desc_perm l : sorted_desc l ≡ₚ l.
Proof.
  unfold sorted_desc. induction l as [|x l IH]; simpl; [done|].
  by rewrite insert_desc_perm, IH.
Qed.

Lemma insert_desc_sorted x l :
  StronglySorted ranks_before l → StronglySorted ranks_before (insert_desc x l).
Proof.
  induction l as [|y l IH]; intros Hl; simpl.
  - by repeat constructor.
  - apply StronglySorted_inv in Hl as [Hl Hy].
    destruct (Qle_bool (similarity_of y) (similarity_of x)) eqn:E.
    + apply Qle_bool_iff in E.
      constructor; [by constructor|].
      constructor; [done|].
      eapply Forall_impl; [exact Hy|].
      intros z Hz. unfold ranks_before in *. by eapply Qle_trans.
    + assert (Hlt : (similarity_of x < similarity_of y)%Q).
      { apply Qnot_le_lt. intros Hle. apply Qle_bool_iff in Hle. congruence. }
      constructor; [by apply IH|].
      rewrite insert_desc_perm. constructor; [|done].
      unfold ranks_before. by apply Qlt_le_weak.
Qed.

Lemma sorted_desc_sorted l : StronglySorted ranks_before (sorted_desc l).
Proof.
  unfold sorted_desc. induction l as [|x l IH]; simpl; [constructor|].
  by apply insert_desc_sorted.
Qed.

Lemma with_similarity_insert v x l :
  with_similarity v (insert_desc x l) = with_similarity v (x :: l).
Proof.
  unfold with_similarity.
  induction l as [|y l IH]; [done|]. cbn [insert_desc].
  destruct (Qle_bool (similarity_of y) (similarity_of x)) eqn:E; [done|].
  cbn [List.filter] in *. rewrite IH.
  destruct (Qeq_bool (similarity_of x) v) eqn:Ex; [|done].
  destruct (Qeq_bool (similarity_of y) v) eqn:Ey; [|done].
  apply Qeq_bool_iff in Ex, Ey.
  assert (Hle : Qle_bool (similarity_of y) (similarity_of x) = true).
  { apply Qle_bool_iff. rewrite Ex, Ey. apply Qle_refl. }
  congruence.
Qed.

Lemma sorted_desc_stable v l :
  with_similarity v (sorted_desc l) = with_similarity v l.
Proof.
  unfold sorted_desc. induction l as [|x l IH]; simpl; [done|].
  rewrite with_similarity_insert. unfold with_similarity in *.
  cbn [List.filter]. by rewrite IH.
Qed.

Lemma sorted_desc_const p l :
  Forall (λ x, similarity_of x == p)%Q l → sorted_desc l = l.
Proof.
  unfold sorted_desc. induction l as [|x l IH]; intros Hl; simpl; [done|].
  apply Forall_cons in Hl as [Hx Hl]. rewrite IH by done.
  destruct l as [|y l]; simpl; [done|].
  apply Forall_cons in Hl as [Hy _].
  replace (Qle_bool (similarity_of y) (similarity_of x)) with true; [done|].
  symmetry. apply Qle_bool_iff. rewrite Hx, Hy. apply Qle_refl.
Qed.

Lemma slice_to_nonneg {X} (l : list X) (stop : Z) :
  (0 ≤ stop)%Z → Str.slice_to l stop = take (Z.to_nat stop) l.
Proof.
  intros Hs. unfold Str.slice_to.
  by replace (stop <? 0)%Z with false by (symmetry; apply Z.ltb_ge; lia).
Qed.

Lemma slice_to_elem {X} (l : list X) (stop : Z) x :
  x ∈ Str.slice_to l stop → x ∈ l.
Proof.
  unfold Str.slice_to. destruct (stop <? 0)%Z; apply subseteq_take.
Qed.

Lemma take_outranks_drop n l x y :
  StronglySorted ranks_before l →
  x ∈ take n l → y ∈ drop n l → ranks_before x y.
Proof.
  intros Hl Hx Hy. rewrite <- (take_drop n l) in Hl.
  eapply StronglySorted_app_1_elem_of; eauto.
Qed.
End ranking_facts.

(** * Facts about the matcher *)

Section matcher_facts.
Import FuzzySearch.
Variable score : string → string → Q.

Lemma emits_deterministic query threshold pms entry out1 out2 :
  emits score query threshold pms entry out1 →
  emits score query threshold pms entry out2 →
  out1 = out2.
Proof.
  intros H1 H2. destruct H1; inversion H2; subst; try done;
    exfalso; eapply Qlt_not_le; eassumption.
Qed.

Lemma matches_loop_emits query threshold pms items :
  ∃ outs,
    Forall2 (emits score query threshold pms) items outs
    ∧ matches_loop score query items threshold pms = omap id outs.
Proof.
  induction items as [|[code name] items (outs & Houts & IH)]; simpl.
  - exists []. by split.
  - destruct (Qle_bool threshold (score query (Str.lower name))) eqn:E.
    + apply Qle_bool_iff in E.
      exists (Some (code, name, score query (Str.lower name)) :: outs).
      split; [constructor; [by constructor|done]|]. simpl. by rewrite IH.
    + assert (Hlt : (score query (Str.lower name) < threshold)%Q).
      { apply Qnot_le_lt. intros Hle. apply Qle_bool_iff in Hle. congruence. }
      destruct (Str.contains query (Str.lower name)) eqn:C.
      * apply contains_spec in C.
        exists (Some (code, name, pms) :: outs).
        split; [constructor; [by constructor|done]|]. simpl. by rewrite IH.
      * exists (None :: outs).
        split; [|done]. constructor; [|done].
        constructor; [done|]. intros Hs%contains_spec. congruence.
Qed.

Lemma matches_loop_entry query threshold pms items x :
  x ∈ matches_loop score query items threshold pms →
  (x.1.1, x.1.2) ∈ items
  ∧ (similarity_of x = score query (Str.lower x.1.2) ∨ similarity_of x = pms).
Proof.
  induction items as [|[code name] items IH]; simpl.
  - by intros ?%elem_of_nil.
  - destruct (Qle_bool _ _);
      [|destruct (Str.contains _ _)];
      rewrite ?elem_of_cons;
      (intros [->|Hx]; [simpl; split; [by left|by eauto]|]) ||
      intros Hx;
      destruct (IH Hx); split; try done; by right.
Qed.

Lemma search_with_entry query m threshold pms max_results x :
  x ∈ search_with score query m threshold pms max_results →
  (x.1.1, x.1.2) ∈ m
  ∧ (similarity_of x = score (Str.lower query) (Str.lower x.1.2)
     ∨ similarity_of x = pms).
Proof.
  unfold search_with. intros Hx%slice_to_elem.
  rewrite sorted_desc_perm in Hx. by apply matches_loop_entry in Hx.
Qed.

Lemma exact_loop_Some search_lower items code name :
  exact_loop search_lower items = Some (code, name) →
  ∃ pre post,
    items = pre ++ (code, name) :: post
    ∧ Str.lower name = search_lower
    ∧ Forall (λ e, Str.lower e.2 ≠ search_lower) pre.
Proof.
  induction items as [|[c n] items IH]; simpl; [done|].
  destruct (String.eqb_spec (Str.lower n) search_lower) as [Heq|Hne].
  - intros [= -> ->]. by exists [], items.
  - intros (pre & post & -> & Hl & Hpre)%IH.
    exists ((c, n) :: pre), post. repeat split; [done|].
    by constructor.
Qed.

Lemma exact_loop_first search_lower pre code name post :
  Str.lower name = search_lower →
  Forall (λ e, Str.lower e.2 ≠ search_lower) pre →
  exact_loop search_lower (pre ++ (code, name) :: post) = Some (code, name).
Proof.
  intros Hn Hpre. induction pre as [|[c n] pre IH]; simpl.
  - by rewrite (proj2 (String.eqb_eq _ _) Hn).
  - apply Forall_cons in Hpre as [Hc Hpre]. simpl in Hc.
    rewrite (proj2 (String.eqb_neq _ _) Hc). by apply IH.
Qed.

End matcher_facts.

(** * Facts about the scorer on strings and about the resolver *)

Section resolver_facts.
Import FuzzySearch TradeDataExtractor.

Lemma score_range a b :
  (0 <= SequenceMatcher_ratio a b ∧ SequenceMatcher_ratio a b <= 1)%Q.
Proof. apply ratio_range. Qed.

Lemma score_self s : (SequenceMatcher_ratio s s == 1)%Q.
Proof. apply ratio_self. Qed.

Lemma score_empty_l x :
  x ≠ EmptyString → (SequenceMatcher_ratio EmptyString x == 0)%Q.
Proof.
  intros Hx. apply ratio_no_match; [by left|]. simpl.
  by rewrite list_ascii_of_string_nil.
Qed.

Lemma score_empty_r x :
  x ≠ EmptyString → (SequenceMatcher_ratio x EmptyString == 0)%Q.
Proof.
  intros Hx. apply ratio_no_match; [by right|]. simpl.
  rewrite app_nil_r. by rewrite list_ascii_of_string_nil.
Qed.

Lemma keys_elem (m : mapping) code name : (code, name) ∈ m → code ∈ keys m.
Proof. intros Hm. unfold keys. apply list_elem_of_fmap. by exists (code, name). Qed.

Lemma find_best_match_code query m item_type exact_search code :
  (find_best_match query m item_type exact_search).1.1 = Some code →
  code ∈ keys m.
Proof.
  unfold find_best_match, find_best_match_with.
  destruct exact_search; [|done].
  destruct (exact_loop (Str.lower query) m) as [[c n]|] eqn:E; [|done].
  simpl. intros [= ->].
  apply exact_loop_Some in E as (pre & post & -> & _ & _).
  apply (keys_elem _ code n), elem_of_app. right. by left.
Qed.

Lemma find_best_match_candidates query m item_type exact_search x :
  x ∈ (find_best_match query m item_type exact_search).2 →
  (x.1.1, x.1.2) ∈ m.
Proof.
  unfold find_best_match, find_best_match_with.
  destruct (if exact_search then _ else _) as [[c n]|]; simpl.
  - by intros ?%elem_of_nil.
  - by intros [? _]%search_with_entry.
Qed.

(** The empty query against names that are not empty: every entry takes
    the substring branch. *)
Lemma matches_loop_empty_query (m : mapping) threshold p :
  Forall (λ e, e.2 ≠ EmptyString) m →
  (0 < threshold)%Q →
  matches_loop SequenceMatcher_ratio EmptyString m threshold p
  = (λ e, (e.1, e.2, p)) <$> m.
Proof.
  intros Hm Hthr. induction m as [|[code name] m IH]; simpl; [done|].
  apply Forall_cons in Hm as [Hname Hm]. simpl in Hname.
  assert (Hlow : Str.lower name ≠ EmptyString) by by rewrite lower_empty.
  replace (Qle_bool threshold (SequenceMatcher_ratio EmptyString (Str.lower name)))
    with false.
  - rewrite contains_empty. by rewrite IH.
  - symmetry. apply not_true_is_false. intros Hle%Qle_bool_iff.
    rewrite (score_empty_l _ Hlow) in Hle.
    by apply Qle_not_lt in Hle.
Qed.

Lemma first_exact_entry search_lower (m : mapping) :
  Exists (λ e, Str.lower e.2 = search_lower) m →
  ∃ pre code name post,
    m = pre ++ (code, name) :: post
    ∧ Str.lower name = search_lower
    ∧ Forall (λ e, Str.lower e.2 ≠ search_lower) pre.
Proof.
  induction m as [|[c n] m IH]; intros Hm; [by apply Exists_nil in Hm|].
  destruct (decide (Str.lower n = search_lower)) as [Heq|Hne].
  - by exists [], c, n, m.
  - apply Exists_cons in Hm as [Hm|Hm]; [done|].
    destruct (IH Hm) as (pre & code & name & post & -> & Hn & Hpre).
    exists ((c, n) :: pre), code, name, post. repeat split; [done|].
    by constructor.
Qed.
End resolver_facts.

(* ===================================================================== *)
(** * The claims                                                           *)
(* ===================================================================== *)

Import FuzzySearch TradeDataExtractor.

(** C1, as stated, fails: an all-digit query is returned as a code that the
    mapping does not have. *)
Lemma C1_counterexample :
  _get_code "792" [] "country" = Return (Some 792%Z) ∧ 792%Z ∉ keys [].
Proof. split; [reflexivity|apply not_elem_of_nil]. Qed.

(** C1, amended: [find_best_match] only returns a code that is a key of the
    mapping, and for every query that is not all digits ([str.isdigit] is
    false) a code returned by [_get_code] is a key of the mapping. *)
Theorem C1_resolved_code_is_key (query : string) (m : mapping)
    (item_type : string) (code : Z) :
  (∀ exact_search,
      (find_best_match query m item_type exact_search).1.1 = Some code →
      code ∈ keys m)
  ∧ (Str.isdigit query = false →
     _get_code query m item_type = Return (Some code) →
     code ∈ keys m).
Proof.
  split; [intros exact_search; apply find_best_match_code|].
  intros Hdigit. unfold _get_code. rewrite Hdigit.
  pose proof (find_best_match_code query m item_type true) as Hcode.
  pose proof (find_best_match_candidates query m item_type true) as Hcand.
  destruct (find_best_match query m item_type true) as [[c n] matches].
  simpl in Hcode, Hcand.
  destruct c as [c|].
  - intros [= <-]. by apply Hcode.
  - destruct matches as [|[[match_code match_name] s] rest]; [done|].
    intros [= <-]. apply (keys_elem _ match_code match_name).
    apply (Hcand (match_code, match_name, s)). by left.
Qed.

Lemma C1_witness :
  (10%Z ∈ keys [(10%Z, "Turkey"%string); (11%Z, "Turkmenistan"%string)]).
Proof.
  apply (proj2 (C1_resolved_code_is_key "turkey" _ "country" 10)); reflexivity.
Defined.

(** C2: for each entry the matcher emits the computed similarity when it
    reaches the threshold, else the fixed partial-match score when the
    lower-cased query is a substring of the lower-cased name, else nothing;
    the three cases exclude one another, and the result of [search] is the
    ranked, truncated list of what was emitted. *)
Theorem C2_search_emits_per_entry (search_term : string) (m : mapping)
    (threshold partial_match_score : Q) (max_results : Z) :
  (∃ outs,
      Forall2 (emits SequenceMatcher_ratio (Str.lower search_term)
                 threshold partial_match_score) m outs
      ∧ search search_term m threshold partial_match_score max_results
        = Str.slice_to (sorted_desc (omap id outs)) max_results)
  ∧ (∀ entry out1 out2,
        emits SequenceMatcher_ratio (Str.lower search_term)
          threshold partial_match_score entry out1 →
        emits SequenceMatcher_ratio (Str.lower search_term)
          threshold partial_match_score entry out2 →
        out1 = out2).
Proof.
  split.
  - destruct (matches_loop_emits SequenceMatcher_ratio (Str.lower search_term)
                threshold partial_match_score m) as (outs & Houts & Heq).
    exists outs. split; [done|].
    unfold search, search_with. by rewrite Heq.
  - apply emits_deterministic.
Qed.

Lemma C2_witness :
  ∃ outs,
    Forall2 (emits SequenceMatcher_ratio "fish" (6 # 10) (9 # 10))
      [(1%Z, "Animals live fish"%string)] outs
    ∧ search "FISH" [(1%Z, "Animals live fish"%string)] (6 # 10) (9 # 10) 5
      = Str.slice_to (sorted_desc (omap id outs)) 5.
Proof.
  exact (proj1 (C2_search_emits_per_entry "FISH" _ (6 # 10) (9 # 10) 5)).
Defined.



(** C4, as stated, fails: a query of 4301 decimal digits is not returned
    as an integer; [int] raises [ValueError] on it. *)
Lemma C4_counterexample :
  Forall is_decimal_digit (list_ascii_of_string (repeated "1" 4301))
  ∧ _get_code (repeated "1" 4301) [] "country" = Raise ValueError.
Proof.
  split.
  - unfold repeated. rewrite list_ascii_of_string_of_list_ascii.
    apply Forall_replicate. unfold is_decimal_digit. vm_compute. lia.
  - vm_compute. reflexivity.
Qed.

(** C4, amended: a non-empty query made of decimal digits only, at most
    4300 of them, is returned as the number that its digits denote,
    whatever the mapping holds. *)
Theorem C4_numeric_literal (query : string) :
  query ≠ EmptyString →
  Forall is_decimal_digit (list_ascii_of_string query) →
  String.length query ≤ 4300 →
  Str.int query = Some (decimal_number query)
  ∧ (0 ≤ decimal_number query)%Z
  ∧ ∀ (m : mapping) (item_type : string),
      _get_code query m item_type = Return (Some (decimal_number query)).
Proof.
  intros Hne Hdigits Hlen.
  assert (Hisdigit : Str.isdigit query = true).
  { destruct query; [done|]. by apply all_chars_decimal. }
  pose proof (int_decimal query Hne Hdigits Hlen) as Hint.
  split; [done|]. split; [apply decimal_number_nonneg|].
  intros m item_type. unfold _get_code. by rewrite Hisdigit, Hint.
Qed.

Lemma C4_witness :
  Str.int "792" = Some 792%Z
  ∧ (0 ≤ 792)%Z
  ∧ ∀ (m : mapping) (item_type : string),
      _get_code "792" m item_type = Return (Some 792%Z).
Proof.
  apply (C4_numeric_literal "792"); [discriminate| |].
  - repeat constructor; simpl; lia.
  - vm_compute. lia.
Defined.

(** C5: when some entry's lower-cased name equals the lower-cased query,
    [find_best_match] returns the first such entry's code and name with an
    empty candidate list, whatever the similarity scorer is (no score is
    computed), and [_get_code] returns that code for a query that is not
    all digits. *)
Theorem C5_exact_match (query : string) (m : mapping) (item_type : string) :
  Exists (λ e, Str.lower e.2 = Str.lower query) m →
  ∃ pre code name post,
    m = pre ++ (code, name) :: post
    ∧ Str.lower name = Str.lower query
    ∧ Forall (λ e, Str.lower e.2 ≠ Str.lower query) pre
    ∧ (∀ score,
          find_best_match_with score query m item_type true
          = (Some code, Some name, []))
    ∧ (Str.isdigit query = false →
       _get_code query m item_type = Return (Some code)).
Proof.
  intros Hm.
  destruct (first_exact_entry _ _ Hm) as (pre & code & name & post & -> & Hn & Hpre).
  exists pre, code, name, post.
  assert (Hfind : ∀ score,
             find_best_match_with score query (pre ++ (code, name) :: post)
               item_type true
             = (Some code, Some name, [])).
  { intros score. unfold find_best_match_with.
    by rewrite (exact_loop_first _ _ _ _ _ Hn Hpre). }
  repeat split; [done..|].
  intros Hdigit. unfold _get_code, find_best_match. by rewrite Hdigit, Hfind.
Qed.

Lemma C5_witness :
  ∃ pre code name post,
    [(10%Z, "Turkey"%string); (11%Z, "Turkmenistan"%string)]
    = pre ++ (code, name) :: post
    ∧ Str.lower name = Str.lower "turkey"
    ∧ Forall (λ e, Str.lower e.2 ≠ Str.lower "turkey") pre
    ∧ (∀ score,
          find_best_match_with score "turkey"
            [(10%Z, "Turkey"%string); (11%Z, "Turkmenistan"%string)]
            "country" true
          = (Some code, Some name, []))
    ∧ (Str.isdigit "turkey" = false →
       _get_code "turkey"
         [(10%Z, "Turkey"%string); (11%Z, "Turkmenistan"%string)] "country"
       = Return (Some code)).
Proof.
  apply C5_exact_match. left. reflexivity.
Defined.


(** C6, as stated, fails for a negative [max_results]: the slice
    [[:max_results]] then drops candidates from the end, and what is left
    is longer than [max_results]. *)
Lemma C6_counterexample :
  search "a" [(1%Z, "a"%string); (2%Z, "a"%string)] (6 # 10) (9 # 10) (-1)
  = [(1%Z, "a"%string, (2 # 2)%Q)]
  ∧ ¬ (Z.of_nat
         (length (search "a" [(1%Z, "a"%string); (2%Z, "a"%string)]
                    (6 # 10) (9 # 10) (-1)))
       ≤ -1)%Z.
Proof. split; [reflexivity|]. vm_compute. intros Hle. by apply Hle. Qed.

(** C6, amended: for every query, mapping and [max_results >= 0], the
    result of [search] is the first [max_results] elements of the emitted
    candidates ranked by decreasing similarity, candidates of equal
    similarity keeping their mapping order; no candidate left out outranks
    one that is returned. *)
Theorem C6_search_ranked_and_truncated (search_term : string) (m : mapping)
    (threshold partial_match_score : Q) (max_results : Z) :
  (0 ≤ max_results)%Z →
  let emitted :=
    matches_loop SequenceMatcher_ratio (Str.lower search_term) m
      threshold partial_match_score in
  let result := search search_term m threshold partial_match_score max_results in
  ∃ ranked,
    ranked ≡ₚ emitted
    ∧ StronglySorted ranks_before ranked
    ∧ (∀ v, with_similarity v ranked = with_similarity v emitted)
    ∧ result = take (Z.to_nat max_results) ranked
    ∧ length result = min (Z.to_nat max_results) (length emitted)
    ∧ (∀ x y, x ∈ result → y ∈ drop (Z.to_nat max_results) ranked →
              ranks_before x y).
Proof.
  intros Hmax emitted result. exists (sorted_desc emitted).
  assert (Hres : result = take (Z.to_nat max_results) (sorted_desc emitted)).
  { unfold result, search, search_with. by rewrite slice_to_nonneg. }
  split; [apply sorted_desc_perm|].
  split; [apply sorted_desc_sorted|].
  split; [intros v; apply sorted_desc_stable|].
  split; [done|].
  split.
  - by rewrite Hres, length_take, sorted_desc_perm.
  - intros x y Hx Hy. rewrite Hres in Hx.
    eapply take_outranks_drop; eauto using sorted_desc_sorted.
Qed.

Lemma C6_witness :
  ∃ ranked,
    ranked ≡ₚ matches_loop SequenceMatcher_ratio (Str.lower "austra")
                [(36%Z, "Australia"%string); (40%Z, "Austria"%string)]
                (5 # 10) (9 # 10)
    ∧ StronglySorted ranks_before ranked
    ∧ (∀ v, with_similarity v ranked
            = with_similarity v
                (matches_loop SequenceMatcher_ratio (Str.lower "austra")
                   [(36%Z, "Australia"%string); (40%Z, "Austria"%string)]
                   (5 # 10) (9 # 10)))
    ∧ search "austra" [(36%Z, "Australia"%string); (40%Z, "Austria"%string)]
        (5 # 10) (9 # 10) 1
      = take (Z.to_nat 1) ranked
    ∧ length (search "austra"
                [(36%Z, "Australia"%string); (40%Z, "Austria"%string)]
                (5 # 10) (9 # 10) 1)
      = min (Z.to_nat 1)
          (length (matches_loop SequenceMatcher_ratio (Str.lower "austra")
                     [(36%Z, "Australia"%string); (40%Z, "Austria"%string)]
                     (5 # 10) (9 # 10)))
    ∧ (∀ x y,
          x ∈ search "austra"
                [(36%Z, "Australia"%string); (40%Z, "Austria"%string)]
                (5 # 10) (9 # 10) 1 →
          y ∈ drop (Z.to_nat 1) ranked →
          ranks_before x y).
Proof.
  apply (C6_search_ranked_and_truncated "austra"
           [(36%Z, "Australia"%string); (40%Z, "Austria"%string)]
           (5 # 10) (9 # 10) 1).
  lia.
Defined.

(** C7, as stated, fails: a substring hit reports [partial_match_score]
    whatever its value, here 1.5. *)
Lemma C7_counterexample :
  search "a" [(1%Z, "aaaaaaaaaa"%string)] (6 # 10) (3 # 2) 5
  = [(1%Z, "aaaaaaaaaa"%string, (3 # 2)%Q)]
  ∧ ¬ (3 # 2 <= 1)%Q.
Proof. split; [reflexivity|]. intros Hle. by apply Hle. Qed.

(** C7, amended: when [partial_match_score] lies in [0,1], every candidate
    returned by [search] has its similarity in [0,1], for every query,
    mapping, threshold and [max_results]. *)
Theorem C7_similarity_in_unit_interval (search_term : string) (m : mapping)
    (threshold partial_match_score : Q) (max_results : Z) (x : candidate) :
  (0 <= partial_match_score)%Q →
  (partial_match_score <= 1)%Q →
  x ∈ search search_term m threshold partial_match_score max_results →
  (0 <= similarity_of x)%Q ∧ (similarity_of x <= 1)%Q.
Proof.
  intros H0 H1 Hx.
  apply search_with_entry in Hx as [_ [-> | ->]]; [|done].
  apply score_range.
Qed.

Lemma C7_witness :
  (0 <= similarity_of (40%Z, "Austria"%string, (12 # 13)%Q))%Q
  ∧ (similarity_of (40%Z, "Austria"%string, (12 # 13)%Q) <= 1)%Q.
Proof.
  apply (C7_similarity_in_unit_interval "austra"
           [(36%Z, "Australia"%string); (40%Z, "Austria"%string)]
           (5 # 10) (9 # 10) 5).
  - discriminate.
  - discriminate.
  - vm_compute. left.
Defined.

(** C8, as stated, fails: the scorer is not symmetric. *)
Lemma C8_counterexample :
  (SequenceMatcher_ratio "tide" "diet" == 1 # 4)%Q
  ∧ (SequenceMatcher_ratio "diet" "tide" == 1 # 2)%Q
  ∧ ¬ (SequenceMatcher_ratio "tide" "diet"
       == SequenceMatcher_ratio "diet" "tide")%Q.
Proof.
  split; [reflexivity|]. split; [reflexivity|]. vm_compute. discriminate.
Qed.

(** C8, amended: [score(a, b)] equals [score(b, a)] when one of the two
    strings is empty or when they are equal. *)
Theorem C8_score_symmetric_on_empty_or_equal (a b : string) :
  a = EmptyString ∨ b = EmptyString ∨ a = b →
  (SequenceMatcher_ratio a b == SequenceMatcher_ratio b a)%Q.
Proof.
  intros [-> | [-> | ->]]; [| |reflexivity].
  - destruct (decide (b = EmptyString)) as [->|Hb]; [reflexivity|].
    by rewrite score_empty_l, score_empty_r.
  - destruct (decide (a = EmptyString)) as [->|Ha]; [reflexivity|].
    by rewrite score_empty_l, score_empty_r.
Qed.

Lemma C8_witness :
  (SequenceMatcher_ratio "" "Turkey" == SequenceMatcher_ratio "Turkey" "")%Q.
Proof.
  apply C8_score_symmetric_on_empty_or_equal. by left.
Defined.

(** C9: [score(s, s) == 1.0] for every string [s], the empty one included,
    and [score("", x) == 0.0] for every non-empty [x]. *)
Theorem C9_score_identity_and_empty :
  (∀ s, SequenceMatcher_ratio s s == 1)%Q
  ∧ (∀ x, x ≠ EmptyString → SequenceMatcher_ratio "" x == 0)%Q.
Proof. split; [apply score_self|apply score_empty_l]. Qed.

Lemma C9_witness :
  (SequenceMatcher_ratio "Turkey" "Turkey" == 1)%Q
  ∧ (SequenceMatcher_ratio "" "x" == 0)%Q.
Proof.
  split.
  - apply (proj1 C9_score_identity_and_empty).
  - apply (proj2 C9_score_identity_and_empty). discriminate.
Defined.

(** C10, as stated, fails for a negative [max_results]: the result has
    [size + max_results] candidates, not [min(size, max_results)]. *)
Lemma C10_counterexample :
  search "" [(1%Z, "a"%string); (2%Z, "b"%string); (3%Z, "c"%string)]
    (6 # 10) (9 # 10) (-1)
  = [(1%Z, "a"%string, (9 # 10)%Q); (2%Z, "b"%string, (9 # 10)%Q)]
  ∧ Z.of_nat
      (length (search ""
                 [(1%Z, "a"%string); (2%Z, "b"%string); (3%Z, "c"%string)]
                 (6 # 10) (9 # 10) (-1)))
    ≠ Z.min 3 (-1).
Proof. split; [reflexivity|]. vm_compute. discriminate. Qed.

(** C10, amended: for every mapping whose names are all non-empty, every
    threshold above 0 (those of (0,1] among them), every score [p] and
    every [max_results >= 0], [search] with the empty query returns the
    first [min(size, max_results)] entries of the mapping in its order,
    each with similarity [p]. *)
Theorem C10_empty_query (m : mapping) (threshold p : Q) (max_results : Z) :
  Forall (λ e, e.2 ≠ EmptyString) m →
  (0 < threshold)%Q →
  (0 ≤ max_results)%Z →
  let result := search "" m threshold p max_results in
  result = take (Z.to_nat max_results) ((λ e, (e.1, e.2, p)) <$> m)
  ∧ length result = min (Z.to_nat max_results) (length m)
  ∧ Forall (λ x, similarity_of x = p) result.
Proof.
  intros Hm Hthr Hmax result.
  assert (Hres : result
                 = take (Z.to_nat max_results) ((λ e, (e.1, e.2, p)) <$> m)).
  { unfold result, search, search_with. simpl Str.lower.
    rewrite matches_loop_empty_query by done.
    rewrite slice_to_nonneg by done.
    rewrite (sorted_desc_const p); [done|].
    apply Forall_fmap, Forall_true. intros e. reflexivity. }
  split; [done|]. rewrite Hres. split.
  - by rewrite length_take, length_fmap.
  - apply Forall_take, Forall_fmap, Forall_true. by intros e.
Qed.

Lemma C10_witness :
  search "" [(1%Z, "a"%string); (2%Z, "b"%string); (3%Z, "c"%string)]
    (6 # 10) (9 # 10) 2
  = take (Z.to_nat 2)
      ((λ e, (e.1, e.2, (9 # 10)%Q))
         <$> [(1%Z, "a"%string); (2%Z, "b"%string); (3%Z, "c"%string)]).
Proof.
  refine (proj1 (C10_empty_query
                   [(1%Z, "a"%string); (2%Z, "b"%string); (3%Z, "c"%string)]
                   (6 # 10) (9 # 10) 2 _ _ _)).
  - repeat constructor; discriminate.
  - reflexivity.
  - lia.
Defined.

(* ===================================================================== *)
(** * Further properties of the code                                       *)
(* ===================================================================== *)

(** ** [str.replace] *)

Section replace_facts.
Import Str.

Lemma replace_from_absent old new s :
  contains old s = false → replace_from 0 old new s = s.
Proof.
  induction s as [|c s IH]; [done|]. cbn [contains replace_from].
  intros [Hp Hc]%orb_false_iff. rewrite Hp. by rewrite IH.
Qed.

Lemma replace_absent old new s :
  ¬ is_substring old s → replace old new s = s.
Proof.
  intros Hs. destruct old as [|a old].
  - destruct Hs. by exists EmptyString, s.
  - unfold replace. apply replace_from_absent.
    apply not_true_is_false. by rewrite contains_spec.
Qed.

Lemma length_append s t :
  String.length (String.append s t) = String.length s + String.length t.
Proof. induction s as [|c s IH]; [done|]. rewrite append_cons. simpl. by rewrite IH. Qed.

Lemma replace_from_length old new s :
  0 < String.length old →
  String.length old ≤ String.length new →
  ∀ skip, String.length s ≤ String.length (replace_from skip old new s) + skip.
Proof.
  intros Hold Hlen. induction s as [|c s IH]; intros skip; [simpl; lia|].
  cbn [replace_from]. destruct skip as [|skip].
  - destruct (String.prefix old (String c s)).
    + rewrite length_append. specialize (IH (String.length old - 1)).
      simpl. lia.
    + specialize (IH 0). simpl. lia.
  - specialize (IH skip). simpl. lia.
Qed.

Lemma replace_from_present old new s :
  0 < String.length old →
  String.length old < String.length new →
  contains old s = true →
  String.length s < String.length (replace_from 0 old new s).
Proof.
  intros Hold Hlen. induction s as [|c s IH].
  - cbn [contains]. rewrite orb_false_r.
    intros [post Hp]%prefix_spec. destruct old; simpl in *; [lia|done].
  - cbn [contains replace_from].
    destruct (String.prefix old (String c s)) eqn:Hp.
    + intros _. rewrite length_append.
      pose proof (replace_from_length old new s Hold ltac:(lia)
                    (String.length old - 1)).
      simpl. lia.
    + rewrite orb_false_l. intros Hc%IH. simpl. lia.
Qed.

Lemma replace_present old new s :
  0 < String.length old →
  String.length old < String.length new →
  is_substring old s →
  replace old new s ≠ s.
Proof.
  intros Hold Hlen Hs%contains_spec Heq.
  destruct old as [|a old]; [simpl in Hold; lia|].
  unfold replace in Heq.
  pose proof (replace_from_present _ new s Hold Hlen Hs) as Hl.
  rewrite Heq in Hl. lia.
Qed.
End replace_facts.

(** ** Saving the result *)

Section save_facts.
Import Str FileHandler TradeDataExtractor.
Context {DataFrame : Type}.
Variable to_csv : DataFrame → string.
Variable columns : DataFrame → list string.
Variable len : DataFrame → nat.
Variable unwritable : string → bool.

Lemma append_assoc s t u :
  String.append (String.append s t) u = String.append s (String.append t u).
Proof.
  induction s as [|c s IH]; [done|]. by rewrite !append_cons, IH.
Qed.

Lemma is_substring_suffix pre s : is_substring s (String.append pre s).
Proof.
  exists pre, EmptyString. f_equal.
  induction s as [|c s IH]; [done|]. by rewrite append_cons, <- IH.
Qed.

Lemma default_filename_has_csv output_dir stamp :
  is_substring ".csv"
    (String.append output_dir
       (String.append "/trade_data_" (String.append stamp ".csv"))).
Proof. rewrite <- !append_assoc. apply is_substring_suffix. Qed.

Lemma save_dataframe_same_path files df filename descriptions now :
  ¬ is_substring ".csv" filename →
  unwritable filename = false →
  save_dataframe DataFrame to_csv columns len unwritable
    files df filename descriptions now
  = (true, <[filename := description_text DataFrame columns len df descriptions now]> files).
Proof.
  intros Hs Hw. unfold save_dataframe.
  rewrite Hw, (replace_absent _ _ _ Hs), Hw.
  by rewrite insert_insert_eq.
Qed.

Lemma save_dataframe_two_paths files df filename descriptions now :
  is_substring ".csv" filename →
  unwritable filename = false →
  unwritable (replace ".csv" "_columns.txt" filename) = false →
  replace ".csv" "_columns.txt" filename ≠ filename
  ∧ save_dataframe DataFrame to_csv columns len unwritable
      files df filename descriptions now
    = (true,
       <[replace ".csv" "_columns.txt" filename
           := description_text DataFrame columns len df descriptions now]>
         (<[filename := to_csv df]> files)).
Proof.
  intros Hs Hw Hwd. split.
  - apply replace_present; [simpl; lia..|done].
  - unfold save_dataframe. by rewrite Hw, Hwd.
Qed.
End save_facts.

(** ** Building the query *)

Section extract_facts.
Import Str FuzzySearch TradeDataExtractor.
Context {DataFrame : Type}.
Variable empty_frame : DataFrame.
Variable df_empty : DataFrame → bool.
Variable country_codes hs_codes : mapping.

Lemma truthy_false_cases (x : option string) :
  truthy x = false → x = None ∨ x = Some EmptyString.
Proof. destruct x as [[|c s]|]; simpl; auto. discriminate. Qed.

Lemma truthy_true_cases (x : option string) :
  truthy x = true → ∃ c s, x = Some (String c s).
Proof. destruct x as [[|c s]|]; simpl; try discriminate. eauto. Qed.

Lemma placeholders_sql_text d c p :
  placeholders (sql_text d c p)
  = (if d then 1 else 0) + (if c then 1 else 0) + (if p then 1 else 0).
Proof. by destruct d, c, p. Qed.

(** The three ways in which [extract_data] ends. *)
Lemma extract_data_cases date country product :
  (∀ execute_query _enrich_dataframe,
      extract_data DataFrame empty_frame df_empty execute_query
        _enrich_dataframe country_codes hs_codes date country product
      = RaiseF DataFrame ValueError)
  ∨ (∀ execute_query _enrich_dataframe,
        extract_data DataFrame empty_frame df_empty execute_query
          _enrich_dataframe country_codes hs_codes date country product
        = ReturnF DataFrame (Some empty_frame))
  ∨ (∃ query params,
        (∀ execute_query _enrich_dataframe,
            extract_data DataFrame empty_frame df_empty execute_query
              _enrich_dataframe country_codes hs_codes date country product
            = ReturnF DataFrame
                (enriched df_empty _enrich_dataframe (execute_query query params)))
        ∧ (∃ d c p, query = sql_text d c p)
        ∧ placeholders query = length params
        ∧ params ≠ []).
Proof.
  unfold extract_data.
  destruct date as [[|c1 date]|];
    (destruct country as [[|c2 country]|];
     [|destruct (_get_code (String c2 country) country_codes "country")
         as [[]|[country_code|]]|]);
    try (left; intros; reflexivity);
    try (right; left; intros; reflexivity);
    (destruct product as [[|c3 product]|];
     [|destruct (_get_code (String c3 product) hs_codes "product")
         as [[]|[product_code|]]|]);
    try (left; intros; reflexivity);
    try (right; left; intros; reflexivity);
    right; right; eexists _, _;
    (split;
     [intros execute_query _enrich_dataframe; cbn -[base_query];
      lazymatch goal with
      | |- match execute_query ?q ?ps with _ => _ end
           = ReturnF _ (enriched _ _ (execute_query ?q' ?ps')) =>
          unify q q'; unify ps ps'
      end;
      unfold enriched;
      by destruct (execute_query _ _) as [d|]; [destruct (df_empty d)|]|]);
    (split; [first [by exists true, true, true | by exists true, true, false
                   | by exists true, false, true | by exists true, false, false
                   | by exists false, true, true | by exists false, true, false
                   | by exists false, false, true]|]);
    by split.
Qed.
End extract_facts.

(** ** More on the matcher *)

Section matcher_more.
Import Str FuzzySearch.
Variable score : string → string → Q.

(** How a candidate of the loop came to be emitted. *)
Lemma matches_loop_how query threshold pms (items : mapping) x :
  x ∈ matches_loop score query items threshold pms →
  (x.1.1, x.1.2) ∈ items
  ∧ ((threshold <= score query (lower x.1.2))%Q
     ∧ similarity_of x = score query (lower x.1.2)
     ∨ (score query (lower x.1.2) < threshold)%Q
       ∧ is_substring query (lower x.1.2)
       ∧ similarity_of x = pms).
Proof.
  induction items as [|[code name] items IH]; cbn [matches_loop].
  - by intros ?%elem_of_nil.
  - assert (Hrest : x ∈ matches_loop score query items threshold pms →
                    (x.1.1, x.1.2) ∈ (code, name) :: items
                    ∧ ((threshold <= score query (lower x.1.2))%Q
                       ∧ similarity_of x = score query (lower x.1.2)
                       ∨ (score query (lower x.1.2) < threshold)%Q
                         ∧ is_substring query (lower x.1.2)
                         ∧ similarity_of x = pms)).
    { intros [Hin Hhow]%IH. split; [by right|done]. }
    destruct (Qle_bool threshold (score query (lower name))) eqn:E.
    + intros [->|Hx]%elem_of_cons; [|by apply Hrest].
      apply Qle_bool_iff in E. split; [by left|]. by left.
    + assert (Hlt : (score query (lower name) < threshold)%Q).
      { apply Qnot_le_lt. intros Hle%Qle_bool_iff. congruence. }
      destruct (contains query (lower name)) eqn:C; [|done].
      intros [->|Hx]%elem_of_cons; [|by apply Hrest].
      apply contains_spec in C. split; [by left|]. by right.
Qed.

(** The entries behind the candidates, in mapping order. *)
Lemma matches_loop_sublist query threshold pms (items : mapping) :
  (λ x : candidate, (x.1.1, x.1.2)) <$> matches_loop score query items threshold pms
  `sublist_of` items.
Proof.
  induction items as [|[code name] items IH]; cbn [matches_loop]; [done|].
  destruct (Qle_bool _ _); [by apply sublist_skip|].
  destruct (contains _ _); [by apply sublist_skip|by apply sublist_cons].
Qed.

Lemma search_with_how query m threshold pms max_results x :
  x ∈ search_with score query m threshold pms max_results →
  (x.1.1, x.1.2) ∈ m
  ∧ ((threshold <= score (lower query) (lower x.1.2))%Q
     ∧ similarity_of x = score (lower query) (lower x.1.2)
     ∨ (score (lower query) (lower x.1.2) < threshold)%Q
       ∧ is_substring (lower query) (lower x.1.2)
       ∧ similarity_of x = pms).
Proof.
  unfold search_with. intros Hx%slice_to_elem.
  rewrite sorted_desc_perm in Hx. by apply matches_loop_how in Hx.
Qed.

Lemma slice_to_sublist {X} (l : list X) (stop : Z) :
  slice_to l stop `sublist_of` l.
Proof. unfold slice_to. destruct (stop <? 0)%Z; apply sublist_take. Qed.

Lemma search_with_codes_NoDup query (m : mapping) threshold pms max_results :
  NoDup (keys m) →
  NoDup ((λ x : candidate, x.1.1) <$> search_with score query m threshold pms max_results).
Proof.
  intros Hm. unfold search_with.
  eapply sublist_NoDup; [|apply fmap_sublist, slice_to_sublist].
  rewrite sorted_desc_perm.
  eapply sublist_NoDup; [exact Hm|].
  unfold keys.
  rewrite (list_fmap_ext (λ x : candidate, x.1.1)
             (fst ∘ (λ x : candidate, (x.1.1, x.1.2))) _ (λ _ _ _, eq_refl)).
  rewrite list_fmap_compose. apply fmap_sublist, matches_loop_sublist.
Qed.

(** An entry emitted under a threshold is emitted under every lower one. *)
Lemma matches_loop_threshold_mono query thr1 thr2 pms (items : mapping) x :
  (thr2 <= thr1)%Q →
  x ∈ matches_loop score query items thr1 pms →
  ∃ s, (x.1.1, x.1.2, s) ∈ matches_loop score query items thr2 pms
       ∧ (s = score query (lower x.1.2) ∨ s = pms).
Proof.
  intros Hthr. induction items as [|[code name] items IH]; cbn [matches_loop].
  - by intros ?%elem_of_nil.
  - assert (Hrest :
      x ∈ matches_loop score query items thr1 pms →
      ∃ s, (x.1.1, x.1.2, s)
             ∈ (if Qle_bool thr2 (score query (lower name))
                then (code, name, score query (lower name))
                       :: matches_loop score query items thr2 pms
                else if contains query (lower name)
                     then (code, name, pms)
                            :: matches_loop score query items thr2 pms
                     else matches_loop score query items thr2 pms)
           ∧ (s = score query (lower x.1.2) ∨ s = pms)).
    { intros (s & Hs & Hv)%IH. exists s. split; [|done].
      destruct (Qle_bool thr2 _); [by right|].
      destruct (contains _ _); [by right|done]. }
    destruct (Qle_bool thr1 (score query (lower name))) eqn:E1.
    + intros [->|Hx]%elem_of_cons; [|by apply Hrest]. simpl.
      apply Qle_bool_iff in E1.
      assert (E2 : Qle_bool thr2 (score query (lower name)) = true).
      { apply Qle_bool_iff. by eapply Qle_trans. }
      rewrite E2. eexists. split; [by left|by left].
    + destruct (contains query (lower name)) eqn:C; [|by apply Hrest].
      intros [->|Hx]%elem_of_cons; [|by apply Hrest]. simpl.
      destruct (Qle_bool thr2 (score query (lower name))).
      * eexists. split; [by left|by left].
      * eexists. split; [by left|by right].
Qed.
End matcher_more.

(** ** Letter case and digits in the resolver *)

Section resolver_more.
Import Str FuzzySearch TradeDataExtractor.

Lemma isdigit_char_lower c : isdigit_char (lower_char c) = isdigit_char c.
Proof. destruct c as [[] [] [] [] [] [] [] []]; reflexivity. Qed.

Lemma lower_char_digit c : isdigit_char c = true → lower_char c = c.
Proof. destruct c as [[] [] [] [] [] [] [] []]; (reflexivity || discriminate). Qed.

Lemma isdigit_lower s : isdigit (lower s) = isdigit s.
Proof.
  assert (Hall : ∀ t, all_chars isdigit_char (lower t) = all_chars isdigit_char t).
  { induction t as [|c t IH]; simpl; [done|]. by rewrite isdigit_char_lower, IH. }
  destruct s as [|c s]; [done|]. apply (Hall (String c s)).
Qed.

Lemma lower_digits s : isdigit s = true → lower s = s.
Proof.
  assert (Hall : ∀ t, all_chars isdigit_char t = true → lower t = t).
  { induction t as [|c t IH]; simpl; [done|].
    intros [Hc Ht]%andb_true_iff. by rewrite lower_char_digit, IH. }
  destruct s as [|c s]; [done|]. apply (Hall (String c s)).
Qed.

Lemma find_best_match_lower query m item_type exact_search :
  find_best_match (lower query) m item_type exact_search
  = find_best_match query m item_type exact_search.
Proof.
  unfold find_best_match, find_best_match_with. by rewrite lower_idemp.
Qed.

Lemma _get_code_lower query m item_type :
  _get_code (lower query) m item_type = _get_code query m item_type.
Proof.
  unfold _get_code. rewrite isdigit_lower.
  destruct (isdigit query) eqn:E.
  - by rewrite (lower_digits _ E).
  - by rewrite find_best_match_lower.
Qed.

Lemma int_from_not_decimal s :
  Exists (λ c, ¬ is_decimal_digit c) (list_ascii_of_string s) →
  ∀ acc, int_from acc s = None.
Proof.
  induction s as [|c s IH]; simpl; intros Hs acc.
  - by apply Exists_nil in Hs.
  - destruct (decimal_value c) as [d|] eqn:E; [|done].
    apply Exists_cons in Hs as [Hc|Hs]; [|by apply IH].
    destruct Hc. unfold decimal_value in E. unfold is_decimal_digit.
    destruct (48 <=? nat_of_ascii c) eqn:E1; [|done].
    destruct (nat_of_ascii c <=? 57) eqn:E2; [|done].
    apply Nat.leb_le in E1, E2. lia.
Qed.

Lemma _get_code_raises query m item_type :
  isdigit query = true →
  Exists (λ c, ¬ is_decimal_digit c) (list_ascii_of_string query) →
  _get_code query m item_type = Raise ValueError.
Proof.
  intros Hd Hs. unfold _get_code. rewrite Hd.
  destruct query as [|c s]; [done|]. rewrite int_unfold.
  rewrite (int_from_not_decimal _ Hs). by destruct (_ <? _).
Qed.

Lemma _get_code_returns query m item_type :
  isdigit query = false → ∃ code, _get_code query m item_type = Return code.
Proof.
  intros Hd. unfold _get_code. rewrite Hd.
  destruct (find_best_match query m item_type true) as [[[c|] n] matches];
    [by eexists|].
  destruct matches as [|[[match_code match_name] s] rest]; by eexists.
Qed.
End resolver_more.

(** ** The matching blocks are common blocks *)

Section difflib_blocks.
Context `{Countable A}.
Import difflib.
Implicit Types (a b : list A) (b2j : gmap A (list nat)).
Implicit Types (j2len newj2len : gmap nat nat) (best : Match).

Lemma chain_b_sound b : b2j_sound b (chain_b b).
Proof.
  intros c l j Hl Hj. apply chain_b_lookup in Hl as ->.
  apply positions_from_elem in Hj as (_ & _ & Hj).
  by rewrite Nat.sub_0_r in Hj.
Qed.

Lemma j2len_matches_empty a b i : j2len_matches a b i ∅.
Proof. intros j k Hjk. by rewrite lookup_empty in Hjk. Qed.

Lemma block_matches_grow a b i j k c :
  block_matches a b (mkMatch i j k) →
  a !! (i + k) = Some c → b !! (j + k) = Some c →
  block_matches a b (mkMatch i j (k + 1)).
Proof.
  intros Hm Ha Hb t Ht. simpl in *.
  destruct (decide (t = k)) as [->|Hne]; [by exists c|].
  apply Hm. simpl. lia.
Qed.

Lemma block_matches_row a b i j j2len c :
  j2len_matches a b i j2len →
  a !! i = Some c → b !! j = Some c →
  j2lenget_pred j2len j + 1 ≤ S i
  ∧ j2lenget_pred j2len j + 1 ≤ j + 1
  ∧ block_matches a b
      (mkMatch (S i - (j2lenget_pred j2len j + 1))
         (j + 1 - (j2lenget_pred j2len j + 1)) (j2lenget_pred j2len j + 1)).
Proof.
  intros Hold Ha Hb.
  assert (Hp : j2lenget_pred j2len j ≤ i
               ∧ j2lenget_pred j2len j ≤ j
               ∧ block_matches a b
                   (mkMatch (i - j2lenget_pred j2len j)
                      (j - j2lenget_pred j2len j) (j2lenget_pred j2len j))).
  { destruct j as [|j']; simpl.
    - repeat split; [lia..|]. intros t Ht. simpl in Ht. lia.
    - destruct (j2len !! j') as [k0|] eqn:E; simpl.
      + destruct (Hold _ _ E) as (H1 & H2 & H3).
        repeat split; [lia..|].
        by replace (S j' - k0) with (j' + 1 - k0) by lia.
      + repeat split; [lia..|]. intros t Ht. simpl in Ht. lia. }
  destruct Hp as (H1 & H2 & H3).
  repeat split; [lia..|].
  replace (S i - (j2lenget_pred j2len j + 1)) with (i - j2lenget_pred j2len j) by lia.
  replace (j + 1 - (j2lenget_pred j2len j + 1)) with (j - j2lenget_pred j2len j) by lia.
  apply (block_matches_grow _ _ _ _ _ c); [done|..].
  - by replace (i - j2lenget_pred j2len j + j2lenget_pred j2len j) with i by lia.
  - by replace (j - j2lenget_pred j2len j + j2lenget_pred j2len j) with j by lia.
Qed.

Lemma scan_indices_matches a b i blo bhi j2len js c :
  a !! i = Some c →
  (∀ j, j ∈ js → b !! j = Some c) →
  j2len_matches a b i j2len →
  ∀ newj2len best,
    block_matches a b best →
    j2len_matches a b (S i) newj2len →
    block_matches a b (scan_indices i blo bhi j2len js newj2len best).2
    ∧ j2len_matches a b (S i) (scan_indices i blo bhi j2len js newj2len best).1.
Proof.
  intros Ha Hjs Hold.
  induction js as [|j js IH]; intros newj2len best Hbest Hnew; simpl; [done|].
  assert (Hb : b !! j = Some c) by (apply Hjs; left).
  assert (Hjs' : ∀ j', j' ∈ js → b !! j' = Some c)
    by (intros; apply Hjs; by right).
  destruct (j <? blo); [by apply IH|].
  destruct (bhi <=? j); [done|].
  destruct (block_matches_row a b i j j2len c Hold Ha Hb) as (H1 & H2 & H3).
  apply IH; [done|..].
  - destruct (Match_size best <? _); [|done].
    by replace (i + 1 - (j2lenget_pred j2len j + 1))
      with (S i - (j2lenget_pred j2len j + 1)) by lia.
  - intros j0 k0. rewrite lookup_insert.
    case_decide; [|by apply Hnew].
    intros [= <-]. subst j0. done.
Qed.

Lemma scan_rows_matches a b b2j blo bhi n :
  b2j_sound b b2j →
  ∀ i j2len best,
    j2len_matches a b i j2len →
    block_matches a b best →
    block_matches a b (scan_rows a b2j blo bhi (seq i n) j2len best).
Proof.
  intros Hsound. induction n as [|n IH]; intros i j2len best Hj Hbest; simpl; [done|].
  destruct (scan_indices i blo bhi j2len (b2j_get b2j a i) ∅ best)
    as [newj2len best'] eqn:E.
  unfold b2j_get in E.
  destruct (a !! i) as [c|] eqn:Ha.
  - destruct (scan_indices_matches a b i blo bhi j2len
                (default [] (b2j !! c)) c Ha) with (newj2len := (∅ : gmap nat nat))
      (best := best) as [Hb' Hj']; [|done..| |].
    + intros j Hjin. destruct (b2j !! c) as [l|] eqn:El; simpl in Hjin.
      * by eapply Hsound.
      * by apply elem_of_nil in Hjin.
    + apply j2len_matches_empty.
    + rewrite E in Hb', Hj'. by apply IH.
  - simpl in E. injection E as <- <-.
    apply IH; [apply j2len_matches_empty|done].
Qed.

Lemma elt_eqb_true (x y : option A) :
  elt_eqb x y = true → ∃ c, x = Some c ∧ y = Some c.
Proof.
  destruct x as [u|], y as [v|]; simpl; try done.
  intros ->%bool_decide_eq_true. eauto.
Qed.

Lemma extend_left_matches junk a b alo blo besti :
  ∀ bestj bestsize,
    block_matches a b (mkMatch besti bestj bestsize) →
    block_matches a b (extend_left junk a b alo blo besti bestj bestsize).
Proof.
  induction besti as [|i' IH]; intros bestj bestsize Hm; simpl; [done|].
  destruct bestj as [|j']; [done|].
  destruct (_ && _) eqn:Hg; [|done].
  apply andb_prop in Hg as [_ (c & Ha & Hb)%elt_eqb_true].
  apply IH. intros t Ht. simpl in *.
  destruct t as [|t'].
  - exists c. by rewrite !Nat.add_0_r.
  - destruct (Hm t' ltac:(simpl; lia)) as (c' & Ha' & Hb'). simpl in *.
    exists c'. by rewrite <- !Nat.add_succ_comm.
Qed.

Lemma extend_right_loop_matches junk a b ahi bhi besti bestj rounds :
  ∀ bestsize,
    block_matches a b (mkMatch besti bestj bestsize) →
    block_matches a b
      (extend_right_loop rounds junk a b ahi bhi besti bestj bestsize).
Proof.
  induction rounds as [|r IH]; intros bestsize Hm; simpl; [done|].
  destruct (_ && _) eqn:Hg; [|done].
  apply andb_prop in Hg as [_ (c & Ha & Hb)%elt_eqb_true].
  apply IH. by apply (block_matches_grow _ _ _ _ _ c).
Qed.

Lemma find_longest_match_matches a b b2j alo ahi blo bhi :
  b2j_sound b b2j →
  block_matches a b (find_longest_match a b b2j alo ahi blo bhi).
Proof.
  intros Hsound. unfold find_longest_match, extend_right.
  apply extend_right_loop_matches. rewrite Match_eta.
  apply extend_left_matches. rewrite Match_eta.
  apply extend_right_loop_matches. rewrite Match_eta.
  apply extend_left_matches. rewrite Match_eta.
  apply scan_rows_matches; [done|apply j2len_matches_empty|].
  intros t Ht. simpl in Ht. lia.
Qed.
End difflib_blocks.

(** ** The loop of [get_matching_blocks], rectangle by rectangle *)

Section difflib_recursion.
Context `{Countable A}.
Import difflib.
Implicit Types (a b : list A) (b2j : gmap A (list nat)).

Lemma queue_loop_nil a b b2j rounds acc :
  queue_loop rounds a b b2j ([], acc) = ([], acc).
Proof. by destruct rounds. Qed.

Lemma queue_loop_stable a b b2j rounds :
  ∀ st rounds',
    (queue_loop rounds a b b2j st).1 = [] →
    rounds ≤ rounds' →
    queue_loop rounds' a b b2j st = queue_loop rounds a b b2j st.
Proof.
  induction rounds as [|r IH]; intros st rounds' Hst Hr.
  - simpl in *. destruct st as [queue acc]. simpl in Hst. subst queue.
    apply queue_loop_nil.
  - destruct rounds' as [|r']; [lia|]. simpl in *.
    destruct (queue_step a b b2j st) as [st1|]; [|done].
    apply IH; [done|lia].
Qed.

(** The loop works a rectangle off before it touches the rest of the
    queue, and appends the blocks of [blocks_of]. *)
Lemma queue_loop_blocks_of a b b2j depth :
  ∀ r queue acc,
    rect_ok r →
    width_a r < depth →
    ∃ n, ∀ rounds,
      queue_loop (n + rounds) a b b2j (r :: queue, acc)
      = queue_loop rounds a b b2j (queue, acc ++ blocks_of depth a b b2j r).
Proof.
  induction depth as [|depth IH]; intros r queue acc Hok Hw; [lia|].
  destruct r as [[[alo ahi] blo] bhi]. destruct Hok as [Ha Hb].
  simpl in Hw. cbn [blocks_of].
  pose proof (find_longest_match_within a b b2j alo ahi blo bhi Ha Hb) as Hin.
  remember (find_longest_match a b b2j alo ahi blo bhi) as x eqn:Hx.
  destruct Hin as (Hi1 & Hi2 & Hj1 & Hj2).
  assert (Hstep :
    queue_step a b b2j ((alo, ahi, blo, bhi) :: queue, acc)
    = if 0 <? Match_size x then
        Some ((if (Match_a x + Match_size x <? ahi)
                  && (Match_b x + Match_size x <? bhi)
               then [(Match_a x + Match_size x, ahi,
                      Match_b x + Match_size x, bhi)] else [])
              ++ (if (alo <? Match_a x) && (blo <? Match_b x)
                  then [(alo, Match_a x, blo, Match_b x)] else [])
              ++ queue,
              acc ++ [x])
      else Some (queue, acc)).
  { unfold queue_step. cbn [fst snd]. rewrite <- Hx.
    destruct (0 <? Match_size x); [|done].
    by destruct (_ && _), (_ && _). }
  destruct (0 <? Match_size x) eqn:Hk.
  - apply Nat.ltb_lt in Hk.
    (* the rectangle on the right, when there is one *)
    assert (Hright : ∀ queue' acc',
      ∃ n, ∀ rounds,
        queue_loop (n + rounds) a b b2j
          ((if (Match_a x + Match_size x <? ahi)
               && (Match_b x + Match_size x <? bhi)
            then [(Match_a x + Match_size x, ahi,
                   Match_b x + Match_size x, bhi)] else []) ++ queue', acc')
        = queue_loop rounds a b b2j
            (queue',
             acc' ++ (if (Match_a x + Match_size x <? ahi)
                         && (Match_b x + Match_size x <? bhi)
                      then blocks_of depth a b b2j
                             (Match_a x + Match_size x, ahi,
                              Match_b x + Match_size x, bhi)
                      else []))).
    { intros queue' acc'.
      destruct ((Match_a x + Match_size x <? ahi)
                && (Match_b x + Match_size x <? bhi)).
      - apply IH; [split; lia|simpl; lia].
      - exists 0. intros rounds. by rewrite app_nil_r. }
    assert (Hleft : ∀ queue' acc',
      ∃ n, ∀ rounds,
        queue_loop (n + rounds) a b b2j
          ((if (alo <? Match_a x) && (blo <? Match_b x)
            then [(alo, Match_a x, blo, Match_b x)] else []) ++ queue', acc')
        = queue_loop rounds a b b2j
            (queue',
             acc' ++ (if (alo <? Match_a x) && (blo <? Match_b x)
                      then blocks_of depth a b b2j (alo, Match_a x, blo, Match_b x)
                      else []))).
    { intros queue' acc'.
      destruct ((alo <? Match_a x) && (blo <? Match_b x)).
      - apply IH; [split; lia|simpl; lia].
      - exists 0. intros rounds. by rewrite app_nil_r. }
    destruct (Hright
                ((if (alo <? Match_a x) && (blo <? Match_b x)
                  then [(alo, Match_a x, blo, Match_b x)] else []) ++ queue)
                (acc ++ [x])) as [n1 Hn1].
    destruct (Hleft queue
                ((acc ++ [x])
                   ++ (if (Match_a x + Match_size x <? ahi)
                          && (Match_b x + Match_size x <? bhi)
                       then blocks_of depth a b b2j
                              (Match_a x + Match_size x, ahi,
                               Match_b x + Match_size x, bhi)
                       else []))) as [n2 Hn2].
    exists (S (n1 + n2)). intros rounds.
    cbn [Nat.add queue_loop]. unfold rect in *. rewrite Hstep.
    rewrite <- Nat.add_assoc, Hn1, Hn2.
    f_equal. f_equal. rewrite <- !app_assoc. done.
  - exists 1. intros rounds. cbn [Nat.add queue_loop]. unfold rect in *.
    by rewrite Hstep, app_nil_r.
Qed.

Lemma raw_blocks_blocks_of a b :
  (raw_blocks a b).2
  = blocks_of (S (length a)) a b (chain_b b) (0, length a, 0, length b).
Proof.
  destruct (queue_loop_blocks_of a b (chain_b b) (S (length a))
              (0, length a, 0, length b) [] [])
    as [n Hn]; [split; lia|simpl; lia|].
  pose proof (queue_loop_empties a b) as Hempty. unfold raw_blocks in *.
  rewrite <- (queue_loop_stable a b (chain_b b) (2 * length a + 1) _
                (n + (2 * length a + 1)) Hempty ltac:(lia)).
  rewrite Hn. by rewrite queue_loop_stable with (rounds := 0) by (done || lia).
Qed.
End difflib_recursion.

Section difflib_cover.
Context `{Countable A}.
Import difflib.
Implicit Types (a b : list A) (b2j : gmap A (list nat)).

Lemma block_matches_concat a b i j k1 k2 :
  block_matches a b (mkMatch i j k1) →
  block_matches a b (mkMatch (i + k1) (j + k1) k2) →
  block_matches a b (mkMatch i j (k1 + k2)).
Proof.
  intros H1 H2 t Ht. simpl in *.
  destruct (decide (t < k1)) as [Hlt|Hge]; [by apply H1|].
  destruct (H2 (t - k1) ltac:(simpl; lia)) as (c & Ha & Hb). simpl in *.
  exists c.
  replace (i + t) with (i + k1 + (t - k1)) by lia.
  by replace (j + t) with (j + k1 + (t - k1)) by lia.
Qed.

Lemma block_matches_nothing a b i j : block_matches a b (mkMatch i j 0).
Proof. intros t Ht. simpl in Ht. lia. Qed.

Lemma blocks_of_total a b b2j depth :
  ∀ r, rect_ok r →
       sum_list_with Match_size (blocks_of depth a b b2j r) ≤ width_a r
       ∧ sum_list_with Match_size (blocks_of depth a b b2j r) ≤ width_b r.
Proof.
  induction depth as [|depth IH]; intros r Hok; [simpl; lia|].
  destruct r as [[[alo ahi] blo] bhi]. destruct Hok as [Ha Hb].
  cbn [blocks_of].
  pose proof (find_longest_match_within a b b2j alo ahi blo bhi Ha Hb) as Hin.
  destruct (find_longest_match a b b2j alo ahi blo bhi) as [i j k].
  destruct Hin as (Hi1 & Hi2 & Hj1 & Hj2). cbn [Match_a Match_b Match_size] in *.
  destruct (0 <? k); [|simpl; lia].
  cbn [sum_list_with Match_size]. rewrite sum_list_with_app.
  assert (HR : sum_list_with Match_size
                 (if (i + k <? ahi) && (j + k <? bhi)
                  then blocks_of depth a b b2j (i + k, ahi, j + k, bhi) else [])
               ≤ ahi - (i + k)
               ∧ sum_list_with Match_size
                   (if (i + k <? ahi) && (j + k <? bhi)
                    then blocks_of depth a b b2j (i + k, ahi, j + k, bhi) else [])
                 ≤ bhi - (j + k)).
  { destruct ((i + k <? ahi) && (j + k <? bhi)); [|simpl; lia].
    apply (IH (i + k, ahi, j + k, bhi)). split; lia. }
  assert (HL : sum_list_with Match_size
                 (if (alo <? i) && (blo <? j)
                  then blocks_of depth a b b2j (alo, i, blo, j) else [])
               ≤ i - alo
               ∧ sum_list_with Match_size
                   (if (alo <? i) && (blo <? j)
                    then blocks_of depth a b b2j (alo, i, blo, j) else [])
                 ≤ j - blo).
  { destruct ((alo <? i) && (blo <? j)); [|simpl; lia].
    apply (IH (alo, i, blo, j)). split; lia. }
  simpl. lia.
Qed.

Lemma blocks_of_matches a b b2j depth :
  b2j_sound b b2j →
  ∀ r, Forall (block_matches a b) (blocks_of depth a b b2j r).
Proof.
  intros Hsound. induction depth as [|depth IH]; intros r; [constructor|].
  destruct r as [[[alo ahi] blo] bhi]. cbn [blocks_of].
  destruct (0 <? _); [|constructor].
  constructor; [by apply find_longest_match_matches|].
  apply Forall_app. split.
  - destruct (_ && _); [apply IH|constructor].
  - destruct (_ && _); [apply IH|constructor].
Qed.

(** When the blocks of a rectangle fill both of its sides, the two slices
    are equal. *)
Lemma blocks_of_tight a b b2j depth :
  b2j_sound b b2j →
  ∀ alo ahi blo bhi,
    rect_ok (alo, ahi, blo, bhi) →
    sum_list_with Match_size (blocks_of depth a b b2j (alo, ahi, blo, bhi))
    = ahi - alo →
    sum_list_with Match_size (blocks_of depth a b b2j (alo, ahi, blo, bhi))
    = bhi - blo →
    block_matches a b (mkMatch alo blo (ahi - alo)).
Proof.
  intros Hsound.
  induction depth as [|depth IH]; intros alo ahi blo bhi [Ha Hb] Hsa Hsb.
  { simpl in Hsa. rewrite <- Hsa. apply block_matches_nothing. }
  cbn [blocks_of] in Hsa, Hsb.
  pose proof (find_longest_match_within a b b2j alo ahi blo bhi Ha Hb) as Hin.
  pose proof (find_longest_match_matches a b b2j alo ahi blo bhi Hsound) as Hx.
  destruct (find_longest_match a b b2j alo ahi blo bhi) as [i j k].
  destruct Hin as (Hi1 & Hi2 & Hj1 & Hj2). cbn [Match_a Match_b Match_size] in *.
  destruct (0 <? k).
  2:{ simpl in Hsa. rewrite <- Hsa. apply block_matches_nothing. }
  cbn [sum_list_with Match_size] in Hsa, Hsb.
  rewrite sum_list_with_app in Hsa, Hsb.
  assert (HR : ∀ sR,
    sR = sum_list_with Match_size
           (if (i + k <? ahi) && (j + k <? bhi)
            then blocks_of depth a b b2j (i + k, ahi, j + k, bhi) else []) →
    sR ≤ ahi - (i + k) ∧ sR ≤ bhi - (j + k)
    ∧ (sR = ahi - (i + k) → sR = bhi - (j + k) →
       block_matches a b (mkMatch (i + k) (j + k) (ahi - (i + k))))).
  { intros sR ->. destruct ((i + k <? ahi) && (j + k <? bhi)).
    - destruct (blocks_of_total a b b2j depth (i + k, ahi, j + k, bhi))
        as [H1 H2]; [split; lia|].
      simpl in H1, H2. repeat split; [done..|].
      intros E1 E2. apply (IH _ _ _ bhi); [split; lia|done..].
    - simpl. repeat split; [lia..|].
      intros <- _. apply block_matches_nothing. }
  assert (HL : ∀ sL,
    sL = sum_list_with Match_size
           (if (alo <? i) && (blo <? j)
            then blocks_of depth a b b2j (alo, i, blo, j) else []) →
    sL ≤ i - alo ∧ sL ≤ j - blo
    ∧ (sL = i - alo → sL = j - blo →
       block_matches a b (mkMatch alo blo (i - alo)))).
  { intros sL ->. destruct ((alo <? i) && (blo <? j)).
    - destruct (blocks_of_total a b b2j depth (alo, i, blo, j))
        as [H1 H2]; [split; lia|].
      simpl in H1, H2. repeat split; [done..|].
      intros E1 E2. apply (IH _ _ _ j); [split; lia|done..].
    - simpl. repeat split; [lia..|].
      intros <- _. apply block_matches_nothing. }
  destruct (HR _ eq_refl) as (R1 & R2 & R3).
  destruct (HL _ eq_refl) as (L1 & L2 & L3).
  set (sR := sum_list_with Match_size
               (if (i + k <? ahi) && (j + k <? bhi)
                then blocks_of depth a b b2j (i + k, ahi, j + k, bhi) else [])) in *.
  set (sL := sum_list_with Match_size
               (if (alo <? i) && (blo <? j)
                then blocks_of depth a b b2j (alo, i, blo, j) else [])) in *.
  assert (EL : sL = i - alo) by lia.
  assert (EL' : sL = j - blo) by lia.
  assert (ER : sR = ahi - (i + k)) by lia.
  assert (ER' : sR = bhi - (j + k)) by lia.
  specialize (L3 EL EL'). specialize (R3 ER ER').
  replace (ahi - alo) with ((i - alo) + (k + (ahi - (i + k)))) by lia.
  apply block_matches_concat; [done|].
  replace (alo + (i - alo)) with i by lia.
  replace (blo + (i - alo)) with j by lia.
  by apply block_matches_concat.
Qed.

(** The blocks that [ratio] counts. *)
Lemma raw_blocks_matches a b :
  Forall (block_matches a b) (raw_blocks a b).2.
Proof.
  rewrite raw_blocks_blocks_of. apply blocks_of_matches, chain_b_sound.
Qed.

Lemma matches_full_eq a b :
  sum_list_with Match_size (get_matching_blocks a b) = length a →
  length a = length b →
  a = b.
Proof.
  intros Hm Hlen. rewrite matching_blocks_total, raw_blocks_blocks_of in Hm.
  pose proof (blocks_of_tight a b (chain_b b) (S (length a)) (chain_b_sound b)
                0 (length a) 0 (length b) ltac:(split; lia)
                ltac:(lia) ltac:(lia)) as Hcover.
  apply list_eq. intros t.
  destruct (decide (t < length a)) as [Hlt|Hge].
  - destruct (Hcover t ltac:(simpl; lia)) as (c & Ha & Hb). simpl in *. congruence.
  - rewrite !lookup_ge_None_2; [done|lia..].
Qed.

Lemma sum_list_with_pos {X} (f : X → nat) (l : list X) :
  0 < sum_list_with f l → ∃ x, x ∈ l ∧ 0 < f x.
Proof.
  induction l as [|x l IH]; simpl; [lia|].
  intros Hs. destruct (decide (0 < f x)) as [Hx|Hx].
  - exists x. split; [by left|done].
  - destruct IH as (y & Hy & Hfy); [lia|]. exists y. split; [by right|done].
Qed.

Lemma matches_pos_share a b :
  0 < sum_list_with Match_size (get_matching_blocks a b) →
  ∃ c, c ∈ a ∧ c ∈ b.
Proof.
  rewrite matching_blocks_total. intros (x & Hx & Hk)%sum_list_with_pos.
  pose proof (raw_blocks_matches a b) as Hall.
  rewrite Forall_forall in Hall.
  destruct (Hall x Hx 0 Hk) as (c & Ha & Hb).
  exists c. split; eapply list_elem_of_lookup_2; eauto.
Qed.
End difflib_cover.

(** ** What the ratio tells *)

Section ratio_more.
Context `{Countable A}.
Import difflib.
Implicit Types (a b : list A).

Lemma ratio_one_eq a b : (ratio a b == 1)%Q → a = b.
Proof.
  unfold ratio, _calculate_ratio.
  destruct (matches_bound a b) as [Ha Hb].
  destruct (length a + length b =? 0) eqn:E.
  - intros _. apply Nat.eqb_eq in E.
    destruct a, b; simpl in E; done || lia.
  - apply Nat.eqb_neq in E. intros Hr.
    assert (Hnz : ¬ (inject_Z (Z.of_nat (length a + length b)) == 0)%Q).
    { intros Hz. unfold Qeq in Hz. simpl in Hz. lia. }
    assert (H2 : (2 * inject_Z (Z.of_nat (sum_list_with Match_size
                                            (get_matching_blocks a b)))
                  == inject_Z (Z.of_nat (length a + length b)))%Q).
    { rewrite <- (Qmult_div_r _ _ Hnz), Hr. by rewrite Qmult_1_r. }
    rewrite <- (inject_Z_mult 2) in H2.
    apply (proj1 (inject_Z_injective _ _)) in H2.
    apply matches_full_eq; lia.
Qed.

Lemma ratio_no_common a b :
  (∀ c, c ∈ a → c ∉ b) → a ++ b ≠ [] → (ratio a b == 0)%Q.
Proof.
  intros Hno Hne. unfold ratio, _calculate_ratio.
  assert (Hm : sum_list_with Match_size (get_matching_blocks a b) = 0).
  { destruct (decide (0 < sum_list_with Match_size (get_matching_blocks a b)))
      as [Hpos|]; [|lia].
    destruct (matches_pos_share a b Hpos) as (c & Hca & Hcb).
    by destruct (Hno c Hca). }
  rewrite Hm.
  destruct (length a + length b =? 0) eqn:E.
  - apply Nat.eqb_eq in E. destruct a, b; simpl in E; done || lia.
  - simpl. unfold Qdiv. by rewrite Qmult_0_l.
Qed.

(** The bound that difflib calls [real_quick_ratio]. *)
Lemma ratio_length_bound a b :
  (ratio a b * inject_Z (Z.of_nat (length a + length b))
   <= inject_Z (2 * Z.of_nat (min (length a) (length b))))%Q.
Proof.
  unfold ratio, _calculate_ratio.
  destruct (matches_bound a b) as [Ha Hb].
  destruct (length a + length b =? 0) eqn:E.
  - apply Nat.eqb_eq in E.
    replace (length a + length b) with 0 by done.
    rewrite Qmult_0_r. rewrite <- (Zle_Qle 0). lia.
  - apply Nat.eqb_neq in E.
    assert (Hnz : ¬ (inject_Z (Z.of_nat (length a + length b)) == 0)%Q).
    { intros Hz. unfold Qeq in Hz. simpl in Hz. lia. }
    rewrite Qmult_comm, (Qmult_div_r _ _ Hnz).
    rewrite <- (inject_Z_mult 2), <- Zle_Qle. lia.
Qed.
End ratio_more.

Section score_more.
Import Str FuzzySearch.

Lemma list_ascii_of_string_inj s t :
  list_ascii_of_string s = list_ascii_of_string t → s = t.
Proof.
  intros Heq. rewrite <- (string_of_list_ascii_of_string s).
  rewrite <- (string_of_list_ascii_of_string t). by rewrite Heq.
Qed.

Lemma list_ascii_of_string_append s t :
  list_ascii_of_string (String.append s t)
  = list_ascii_of_string s ++ list_ascii_of_string t.
Proof.
  induction s as [|c s IH]; [done|]. rewrite append_cons. simpl. by rewrite IH.
Qed.

Lemma length_list_ascii_of_string s :
  length (list_ascii_of_string s) = String.length s.
Proof. induction s as [|c s IH]; simpl; [done|]. by rewrite IH. Qed.

Lemma length_lower s : String.length (lower s) = String.length s.
Proof. induction s as [|c s IH]; simpl; [done|]. by rewrite IH. Qed.

Lemma score_one_eq s t : (SequenceMatcher_ratio s t == 1)%Q → s = t.
Proof.
  intros Hr%ratio_one_eq. by apply list_ascii_of_string_inj.
Qed.

Lemma score_no_common s t :
  (∀ c, c ∈ list_ascii_of_string s → c ∉ list_ascii_of_string t) →
  s ≠ EmptyString →
  (SequenceMatcher_ratio s t == 0)%Q.
Proof.
  intros Hno Hs. apply ratio_no_common; [done|].
  destruct s; [done|]. simpl. discriminate.
Qed.

Lemma score_length_bound s t :
  (SequenceMatcher_ratio s t
   * inject_Z (Z.of_nat (String.length s + String.length t))
   <= inject_Z (2 * Z.of_nat (min (String.length s) (String.length t))))%Q.
Proof.
  unfold SequenceMatcher_ratio.
  rewrite <- !length_list_ascii_of_string. apply ratio_length_bound.
Qed.

Lemma is_substring_head c s hay :
  is_substring (String c s) hay → c ∈ list_ascii_of_string hay.
Proof.
  intros (pre & post & ->).
  rewrite list_ascii_of_string_append, append_cons. simpl.
  apply elem_of_app. right. by left.
Qed.

Lemma exact_loop_None_inv search_lower (items : mapping) :
  exact_loop search_lower items = None →
  Forall (λ e, lower e.2 ≠ search_lower) items.
Proof.
  induction items as [|[c n] items IH]; simpl; [constructor|].
  destruct (String.eqb_spec (lower n) search_lower) as [Heq|Hne]; [done|].
  intros Hi. constructor; [done|by apply IH].
Qed.
End score_more.

(** ** What [get_matching_blocks] returns *)

Section difflib_result.
Context `{Countable A}.
Import difflib.
Implicit Types (a b : list A).

Lemma insert_block_perm x l : insert_block x l ≡ₚ x :: l.
Proof.
  induction l as [|y l IH]; simpl; [done|].
  destruct (Match_ltb y x); [|done].
  rewrite IH. apply Permutation_swap.
Qed.

Lemma sort_blocks_perm l : sort_blocks l ≡ₚ l.
Proof.
  unfold sort_blocks. induction l as [|x l IH]; simpl; [done|].
  by rewrite insert_block_perm, IH.
Qed.

Lemma blocks_of_nonempty a b (b2j : gmap A (list nat)) depth :
  ∀ r, Forall (λ x, 0 < Match_size x) (blocks_of depth a b b2j r).
Proof.
  induction depth as [|depth IH]; intros r; [constructor|].
  destruct r as [[[alo ahi] blo] bhi]. cbn [blocks_of].
  destruct (0 <? _) eqn:Hk; [|constructor].
  constructor; [by apply Nat.ltb_lt|].
  apply Forall_app. split.
  - destruct (_ && _); [apply IH|constructor].
  - destruct (_ && _); [apply IH|constructor].
Qed.

Lemma collapse_keeps (P : Match → Prop) blocks :
  (∀ i j k1 k2, P (mkMatch i j k1) → P (mkMatch (i + k1) (j + k1) k2) →
                P (mkMatch i j (k1 + k2))) →
  ∀ i1 j1 k1 non_adjacent,
    (0 < k1 → P (mkMatch i1 j1 k1)) →
    Forall P blocks →
    Forall P non_adjacent →
    Forall P (collapse i1 j1 k1 blocks non_adjacent).
Proof.
  intros Hjoin.
  induction blocks as [|x blocks IH]; intros i1 j1 k1 acc H1 Hb Hacc; simpl.
  - destruct (0 <? k1) eqn:Hk; [|done].
    apply Forall_app. split; [done|].
    constructor; [|constructor]. apply H1. by apply Nat.ltb_lt.
  - apply Forall_cons in Hb as [Hx Hb].
    destruct ((i1 + k1 =? Match_a x) && (j1 + k1 =? Match_b x)) eqn:Hadj.
    + apply andb_prop in Hadj as [Hi%Nat.eqb_eq Hj%Nat.eqb_eq].
      apply IH; [|done..]. intros _.
      destruct (decide (0 < k1)) as [Hk|Hk].
      * apply Hjoin; [by apply H1|]. rewrite Hi, Hj. by destruct x.
      * replace k1 with 0 in * by lia. simpl.
        rewrite Nat.add_0_r in Hi, Hj. rewrite Hi, Hj. by destruct x.
    + apply IH; [intros _; by destruct x|done|].
      destruct (0 <? k1) eqn:Hk; [|done].
      apply Forall_app. split; [done|].
      constructor; [|constructor]. apply H1. by apply Nat.ltb_lt.
Qed.

(** The documented result of [get_matching_blocks]: common blocks that are
    not empty, followed by the dummy [(len(a), len(b), 0)]. *)
Lemma get_matching_blocks_spec a b :
  ∃ blocks,
    get_matching_blocks a b = blocks ++ [mkMatch (length a) (length b) 0]
    ∧ Forall (λ x, 0 < Match_size x ∧ block_matches a b x) blocks.
Proof.
  unfold get_matching_blocks. eexists. split; [done|].
  apply collapse_keeps.
  - intros i j k1 k2 [Hk1 H1] [Hk2 H2]. simpl in *. split; [lia|].
    by apply block_matches_concat.
  - intros Hk. lia.
  - rewrite sort_blocks_perm, raw_blocks_blocks_of.
    apply Forall_and. split.
    + apply blocks_of_nonempty.
    + apply blocks_of_matches, chain_b_sound.
  - constructor.
Qed.
End difflib_result.

(** ** Loading the HS codes *)

Section load_facts.
Import Str FuzzySearch FileHandler.

Example load_hs_codes_dotted_ids :
  load_hs_codes
    (Document
       (Some [Object {| item_id := Some (IdStr "TOTAL"); item_text := Some "All" |};
              Object {| item_id := Some (IdStr "01.02"); item_text := Some "Bovine" |};
              Object {| item_id := Some (IdStr "x1"); item_text := Some "None" |};
              Object {| item_id := Some (IdStr "0102"); item_text := Some "Cattle" |};
              Object {| item_id := Some (IdStr "8401"); item_text := None |}]))
  = [(102%Z, "Cattle"%string)].
Proof. vm_compute. reflexivity. Qed.

Example load_hs_codes_stops_at_number :
  load_hs_codes
    (Document
       (Some [Object {| item_id := Some (IdStr "1"); item_text := Some "a" |};
              Object {| item_id := Some (IdOther true); item_text := Some "b" |};
              Object {| item_id := Some (IdStr "2"); item_text := Some "c" |}]))
  = [(1%Z, "a"%string)].
Proof. vm_compute. reflexivity. Qed.

Lemma load_items_go e items (hs_codes : mapping) :
  ends_loop e = false →
  load_items (e :: items) hs_codes
  = load_items items
      (match entry_of e with
       | Some (code, text) => dict_set hs_codes code text
       | None => hs_codes
       end).
Proof.
  destruct e as [[v text]|]; [|done].
  destruct v as [[s|[]]|];
    unfold default;
    cbn [load_items ends_loop entry_of hs_entry item_id item_text from_option id].
  - intros _. destruct (_ && _); [|done]. by destruct (int_of_str _).
  - intros ->. done.
  - done.
  - done.
Qed.

Lemma load_items_stop e items (hs_codes : mapping) :
  ends_loop e = true → load_items (e :: items) hs_codes = hs_codes.
Proof.
  destruct e as [[v text]|]; [|done].
  destruct v as [[s|[]]|];
    unfold default;
    cbn [load_items ends_loop entry_of hs_entry item_id item_text from_option id];
    [done| |done..].
  intros ->. done.
Qed.

Lemma entry_of_text e code text : entry_of e = Some (code, text) → text ≠ EmptyString.
Proof.
  destruct e as [[v text']|]; [|done].
  destruct v as [[s|b]|]; [|done..].
  cbn [entry_of hs_entry item_id item_text].
  destruct (String.eqb_spec s "") as [|_]; [done|].
  destruct (String.eqb_spec (default EmptyString text') "") as [|Ht]; [done|].
  cbn [negb andb]. destruct (negb _); [|done].
  destruct (int_of_str _); [|done]. cbn. by intros [= _ <-].
Qed.

Lemma dict_set_keys_in (d : mapping) key value :
  key ∈ keys d → keys (dict_set d key value) = keys d.
Proof.
  unfold keys. induction d as [|[k v] d IH]; simpl.
  - by intros ?%elem_of_nil.
  - destruct (Z.eqb_spec k key) as [->|Hne]; [done|].
    intros [?|Hin]%elem_of_cons; [congruence|].
    simpl. f_equal. by apply IH.
Qed.

Lemma dict_set_keys_new (d : mapping) key value :
  key ∉ keys d → keys (dict_set d key value) = keys d ++ [key].
Proof.
  unfold keys. induction d as [|[k v] d IH]; simpl; [done|].
  intros Hnin. apply not_elem_of_cons in Hnin as [Hne Hnin].
  destruct (Z.eqb_spec k key) as [->|_]; [done|].
  simpl. f_equal. by apply IH.
Qed.

Lemma dict_set_NoDup (d : mapping) key value :
  NoDup (keys d) → NoDup (keys (dict_set d key value)).
Proof.
  intros Hd. destruct (decide (key ∈ keys d)) as [Hin|Hnin].
  - by rewrite dict_set_keys_in.
  - rewrite dict_set_keys_new by done.
    apply NoDup_app. repeat split; [done| |apply NoDup_singleton].
    intros x Hx ->%list_elem_of_singleton. done.
Qed.

Lemma dict_set_elem (d : mapping) key value n t :
  NoDup (keys d) →
  (n, t) ∈ dict_set d key value
  ↔ (n = key ∧ t = value) ∨ (n ≠ key ∧ (n, t) ∈ d).
Proof.
  unfold keys. induction d as [|[k v] d IH]; intros Hd; simpl.
  - rewrite list_elem_of_singleton. split.
    + intros [= -> ->]. by left.
    + intros [[-> ->]|[_ ?%elem_of_nil]]; done.
  - apply NoDup_cons in Hd as [Hk Hd].
    destruct (Z.eqb_spec k key) as [->|Hne].
    + rewrite !elem_of_cons. split.
      * intros [[= -> ->]|Hin]; [by left|].
        right. split; [|by right].
        intros ->. apply Hk. apply list_elem_of_fmap. by exists (key, t).
      * intros [[-> ->]|[Hn [[= ? ?]|Hin]]]; [by left|done|by right].
    + rewrite !elem_of_cons, (IH Hd). split.
      * intros [[= -> ->]|[[-> ->]|[Hn Hin]]].
        -- right. split; [done|by left].
        -- by left.
        -- right. split; [done|by right].
      * intros [[-> ->]|[Hn [[= -> ->]|Hin]]].
        -- right. by left.
        -- by left.
        -- right. right. by split.
Qed.

Lemma dict_set_Forall (P : Z * string → Prop) (d : mapping) key value :
  Forall P d → P (key, value) → Forall P (dict_set d key value).
Proof.
  intros Hd Hkv. induction d as [|[k v] d IH]; simpl.
  - by constructor.
  - apply Forall_cons in Hd as [Hk Hd].
    destruct (Z.eqb_spec k key) as [->|Hne]; constructor; auto.
Qed.

Lemma load_items_inv items :
  ∀ hs_codes : mapping,
    NoDup (keys hs_codes) →
    Forall (λ e, e.2 ≠ EmptyString) hs_codes →
    NoDup (keys (load_items items hs_codes))
    ∧ Forall (λ e, e.2 ≠ EmptyString) (load_items items hs_codes).
Proof.
  induction items as [|e items IH]; intros hs_codes Hk Hn; [done|].
  destruct (ends_loop e) eqn:Hend; [by rewrite load_items_stop|].
  rewrite load_items_go by done.
  destruct (entry_of e) as [[code text]|] eqn:E; [|by apply IH].
  apply IH.
  - by apply dict_set_NoDup.
  - apply dict_set_Forall; [done|]. simpl. by eapply entry_of_text.
Qed.

Lemma load_items_elem items n t :
  ∀ hs_codes : mapping,
    NoDup (keys hs_codes) →
    (n, t) ∈ load_items items hs_codes
    ↔ (∃ pre e post,
          read_elements items = pre ++ e :: post
          ∧ entry_of e = Some (n, t)
          ∧ Forall (no_entry_for n) post)
      ∨ (Forall (no_entry_for n) (read_elements items) ∧ (n, t) ∈ hs_codes).
Proof.
  induction items as [|it items IH]; intros hs_codes Hk.
  - simpl. split.
    + intros Hin. right. by split.
    + intros [(pre & it & post & Heq & _)|[_ Hin]]; [|done].
      by destruct pre.
  - cbn [read_elements]. destruct (ends_loop it) eqn:Hend.
    { rewrite load_items_stop by done. split.
      + intros Hin. right. by split.
      + intros [(pre & it0 & post & Heq & _)|[_ Hin]]; [|done].
        by destruct pre. }
    rewrite load_items_go by done.
    assert (Hk' : NoDup (keys (match entry_of it with
                               | Some (code, text) => dict_set hs_codes code text
                               | None => hs_codes
                               end))).
    { destruct (entry_of it) as [[code text]|]; [by apply dict_set_NoDup|done]. }
    rewrite (IH _ Hk'). split.
    + intros [(pre & it0 & post & Heq & He & Hpost)|[Hnone Hin]].
      * left. exists (it :: pre), it0, post. by rewrite Heq.
      * destruct (entry_of it) as [[code text]|] eqn:E.
        -- apply (dict_set_elem _ _ _ _ _ Hk) in Hin as [[-> ->]|[Hne Hin]].
           ++ left. by exists [], it, (read_elements items).
           ++ right. split; [|done]. constructor; [|done].
              intros t'. rewrite E. congruence.
        -- right. split; [|done]. constructor; [|done].
           intros t'. by rewrite E.
    + intros [(pre & it0 & post & Heq & He & Hpost)|[Hnone Hin]].
      * destruct pre as [|it1 pre]; simpl in Heq; injection Heq as <- Heq.
        -- right. rewrite Heq. split; [done|]. rewrite He.
           apply dict_set_elem; [done|]. by left.
        -- left. by exists pre, it0, post.
      * apply Forall_cons in Hnone as [Hit Hnone].
        right. split; [done|].
        destruct (entry_of it) as [[code text]|] eqn:E; [|done].
        apply dict_set_elem; [done|]. right. split; [|done].
        intros ->. by destruct (Hit text).
Qed.
End load_facts.


(** ** More on the candidates *)

Section candidates_more.
Import Str FuzzySearch.

Lemma matches_loop_length score query threshold pms (items : mapping) :
  length (matches_loop score query items threshold pms) ≤ length items.
Proof.
  rewrite <- (length_fmap (λ x : candidate, (x.1.1, x.1.2))).
  apply sublist_length, matches_loop_sublist.
Qed.

Lemma search_with_all score query (m : mapping) threshold pms max_results x :
  (Z.of_nat (length m) ≤ max_results)%Z →
  x ∈ search_with score query m threshold pms max_results
  ↔ x ∈ matches_loop score (lower query) m threshold pms.
Proof.
  intros Hmax. unfold search_with.
  rewrite slice_to_nonneg by lia. rewrite take_ge.
  - by rewrite sorted_desc_perm.
  - rewrite sorted_desc_perm.
    pose proof (matches_loop_length score (lower query) threshold pms m). lia.
Qed.

Lemma score_below_threshold s t threshold :
  (inject_Z (2 * Z.of_nat (min (String.length s) (String.length t)))
   < threshold * inject_Z (Z.of_nat (String.length s + String.length t)))%Q →
  (SequenceMatcher_ratio s t < threshold)%Q.
Proof.
  intros Hlen. apply Qnot_le_lt. intros Hle.
  apply (Qlt_not_le _ _ Hlen).
  eapply Qle_trans; [|apply score_length_bound].
  apply Qmult_le_compat_r; [done|].
  rewrite <- (Zle_Qle 0). lia.
Qed.

Lemma common_char_dec (l1 l2 : list ascii) :
  (∃ c, c ∈ l1 ∧ c ∈ l2) ∨ (∀ c, c ∈ l1 → c ∉ l2).
Proof.
  destruct (decide (Exists (λ c, c ∈ l2) l1)) as [Hex|Hno].
  - left. apply Exists_exists in Hex. done.
  - right. intros c Hc1 Hc2. apply Hno, Exists_exists. eauto.
Qed.
End candidates_more.

(** ** The name of the description file *)

Section name_facts.
Import Str.

Lemma csv_prefix_inside c stem :
  String.prefix ".csv" (String c (String.append stem ".csv")) = true →
  String.prefix ".csv" (String c stem) = true.
Proof.
  intros [post Hpost]%prefix_spec. apply prefix_spec.
  rewrite !append_cons, append_empty in Hpost.
  injection Hpost as -> Hpost.
  destruct stem as [|c2 stem]; [rewrite append_empty in Hpost; discriminate|].
  rewrite append_cons in Hpost. injection Hpost as -> Hpost.
  destruct stem as [|c3 stem]; [rewrite append_empty in Hpost; discriminate|].
  rewrite append_cons in Hpost. injection Hpost as -> Hpost.
  destruct stem as [|c4 stem]; [rewrite append_empty in Hpost; discriminate|].
  rewrite append_cons in Hpost. injection Hpost as -> Hpost.
  exists stem. by rewrite !append_cons, append_empty.
Qed.

Lemma is_substring_tail needle c hay :
  is_substring needle hay → is_substring needle (String c hay).
Proof. intros (pre & post & ->). by exists (String c pre), post. Qed.

(** A name that ends in ['.csv'] and has no other ['.csv'] gets
    ['_columns.txt'] in the place of its ending. *)
Lemma replace_csv_suffix stem :
  ¬ is_substring ".csv" stem →
  replace ".csv" "_columns.txt" (String.append stem ".csv")
  = String.append stem "_columns.txt".
Proof.
  unfold replace. induction stem as [|c stem IH]; intros Hno; [done|].
  rewrite !append_cons. cbn [replace_from].
  destruct (String.prefix ".csv" (String c (String.append stem ".csv"))) eqn:Hp.
  - destruct Hno. apply contains_spec. cbn [contains].
    by rewrite (csv_prefix_inside _ _ Hp).
  - f_equal. apply IH. intros Hs. by apply Hno, is_substring_tail.
Qed.

(** Without its dots an id has no dot. *)
Lemma replace_dots_none s : contains "." (replace_from 0 "." "" s) = false.
Proof.
  induction s as [|c s IH]; [done|]. cbn [replace_from].
  destruct (String.prefix "." (String c s)) eqn:Hp.
  - by rewrite append_empty.
  - cbn [contains]. rewrite IH, orb_false_r.
    apply not_true_is_false. intros [post Hpost]%prefix_spec.
    rewrite append_cons, append_empty in Hpost. injection Hpost as -> _.
    apply not_true_iff_false in Hp. apply Hp, prefix_spec.
    exists s. by rewrite append_cons, append_empty.
Qed.

Lemma replace_dots_idemp s :
  replace "." "" (replace "." "" s) = replace "." "" s.
Proof. unfold replace. apply replace_from_absent, replace_dots_none. Qed.
End name_facts.

Section dots_facts.
Import Str FuzzySearch FileHandler.

Lemma hs_entry_dots s text :
  hs_entry {| item_id := Some (IdStr (replace "." "" s)); item_text := text |}
  = hs_entry {| item_id := Some (IdStr s); item_text := text |}.
Proof.
  unfold hs_entry. cbn [item_id item_text].
  rewrite replace_dots_idemp.
  destruct (String.eqb_spec s "") as [-> | Hid]; [done|].
  destruct (String.eqb_spec s "TOTAL") as [-> | Htot]; [done|].
  destruct (String.eqb_spec (replace "." "" s) "") as [-> | Hid'].
  { cbn [negb andb]. by destruct (_ && _). }
  destruct (String.eqb_spec (replace "." "" s) "TOTAL") as [-> | Htot'].
  { rewrite andb_false_r. by destruct (_ && _). }
  done.
Qed.

Lemma load_items_ext items1 items2 :
  Forall2 (λ x y, ends_loop x = ends_loop y ∧ entry_of x = entry_of y)
    items1 items2 →
  ∀ hs_codes : mapping, load_items items1 hs_codes = load_items items2 hs_codes.
Proof.
  induction 1 as [|x y l1 l2 [Hend Hxy] _ IH]; intros hs_codes; [done|].
  destruct (ends_loop y) eqn:Hy.
  - by rewrite !load_items_stop.
  - rewrite !load_items_go, Hxy by done. apply IH.
Qed.
End dots_facts.

(** ** Which queries raise *)

Section raise_facts.
Import Str FuzzySearch TradeDataExtractor.

Lemma decimal_or_not (l : list ascii) :
  Forall is_decimal_digit l ∨ Exists (λ c, ¬ is_decimal_digit c) l.
Proof.
  induction l as [|c l [IH|IH]].
  - left. constructor.
  - destruct (decide (48 ≤ nat_of_ascii c ∧ nat_of_ascii c ≤ 57)) as [Hc|Hc].
    + left. constructor; [exact Hc|done].
    + right. apply Exists_cons_hd. exact Hc.
  - right. by apply Exists_cons_tl.
Qed.

Lemma _get_code_too_long query m item_type :
  isdigit query = true →
  int_max_str_digits < String.length query →
  _get_code query m item_type = Raise ValueError.
Proof.
  intros Hd Hlen. unfold _get_code. by rewrite Hd, (int_too_long _ Hlen).
Qed.

Lemma _get_code_Raise_inv query m item_type e :
  _get_code query m item_type = Raise e →
  isdigit query = true
  ∧ (Exists (λ c, ¬ is_decimal_digit c) (list_ascii_of_string query)
     ∨ int_max_str_digits < String.length query).
Proof.
  intros Hr. destruct (isdigit query) eqn:Hd.
  - split; [done|].
    destruct (decimal_or_not (list_ascii_of_string query)) as [Hall|];
      [|by left].
    destruct (le_lt_dec (String.length query) int_max_str_digits) as [Hle|Hlt];
      [|by right].
    assert (Hne : query ≠ EmptyString) by (by destruct query).
    unfold _get_code in Hr. rewrite Hd in Hr.
    by rewrite (int_decimal query Hne Hall Hle) in Hr.
  - destruct (_get_code_returns query m item_type Hd) as [code Hc].
    by rewrite Hc in Hr.
Qed.
End raise_facts.

(** ** [int] on a string of digits *)

Section int_facts.
Import Str.

Lemma isdigit_char_plain c :
  isdigit_char c = true →
  is_space c = false ∧ Ascii.eqb c "_" = false
  ∧ Ascii.eqb c "-" = false ∧ Ascii.eqb c "+" = false.
Proof.
  destruct c as [[] [] [] [] [] [] [] []]; intros Hc;
    try discriminate Hc; repeat split.
Qed.

Lemma int_digits_isdigit s :
  all_chars isdigit_char s = true →
  ∀ acc, int_digits acc false s = int_from acc s.
Proof.
  induction s as [|c s IH]; intros Hs acc; [done|].
  cbn [all_chars] in Hs. apply andb_true_iff in Hs as [Hc Hs].
  cbn [int_digits int_from].
  destruct (decimal_value c) as [d|]; [by apply IH|].
  destruct (isdigit_char_plain c Hc) as (Hsp & Hu & _ & _).
  rewrite Hu. cbn [all_chars]. by rewrite Hsp.
Qed.

Lemma int_literal_isdigit c s :
  isdigit (String c s) = true →
  int_literal (String c s) = int_from 0 (String c s).
Proof.
  unfold isdigit. cbn [all_chars].
  intros [Hc Hs]%andb_true_iff.
  destruct (isdigit_char_plain c Hc) as (Hsp & _ & Hm & Hp).
  unfold int_literal. cbn [lstrip]. rewrite Hsp, Hm, Hp.
  unfold int_unsigned. cbn [int_from].
  destruct (decimal_value c) as [d|]; [|done].
  rewrite int_digits_isdigit by done. f_equal; lia.
Qed.

Lemma count_digits_decimal s :
  Forall is_decimal_digit (list_ascii_of_string s) →
  count_digits s = String.length s.
Proof.
  induction s as [|c s IH]; [done|]. cbn [list_ascii_of_string].
  intros [Hc Hs]%Forall_cons. cbn [count_digits String.length].
  by rewrite (decimal_value_number c Hc), IH.
Qed.

(** On the strings that pass [isdigit] the two readings of [int] agree. *)
Lemma int_of_str_isdigit s : isdigit s = true → int_of_str s = int s.
Proof.
  destruct s as [|c s]; [done|]. intros Hd.
  unfold int_of_str. rewrite int_unfold, (int_literal_isdigit c s Hd).
  destruct (decimal_or_not (list_ascii_of_string (String c s))) as [Hall|Hex].
  - by rewrite (count_digits_decimal _ Hall).
  - rewrite (int_from_not_decimal _ Hex). by do 2 destruct (_ <? _).
Qed.
End int_facts.

Section dots_more.
Import Str FuzzySearch FileHandler.

Lemma entry_of_without_dots e : entry_of (without_dots e) = entry_of e.
Proof.
  destruct e as [[[[s|b]|] text]|]; [|done..]. apply hs_entry_dots.
Qed.

Lemma ends_loop_without_dots e : ends_loop (without_dots e) = ends_loop e.
Proof. by destruct e as [[[[s|b]|] text]|]. Qed.

Lemma load_items_without_dots items (hs_codes : mapping) :
  load_items (without_dots <$> items) hs_codes = load_items items hs_codes.
Proof.
  apply load_items_ext. apply Forall2_fmap_l, Forall_Forall2_diag, Forall_forall.
  intros e _. split; [apply ends_loop_without_dots|apply entry_of_without_dots].
Qed.

Lemma load_hs_codes_inv file :
  NoDup (keys (load_hs_codes file))
  ∧ Forall (λ e, e.2 ≠ EmptyString) (load_hs_codes file).
Proof.
  destruct file as [| |results]; [split; constructor..|].
  apply load_items_inv; constructor.
Qed.
End dots_more.

(** ** The order of the matching blocks *)

Section difflib_order.
Context `{Countable A}.
Import difflib.
Implicit Types (a b : list A).

Lemma within_weaken alo ahi blo bhi alo' ahi' blo' bhi' x :
  alo' ≤ alo → ahi ≤ ahi' → blo' ≤ blo → bhi ≤ bhi' →
  within alo ahi blo bhi x → within alo' ahi' blo' bhi' x.
Proof. unfold within. lia. Qed.

Lemma blocks_of_within a b b2j depth :
  ∀ alo ahi blo bhi,
    rect_ok (alo, ahi, blo, bhi) →
    Forall (within alo ahi blo bhi) (blocks_of depth a b b2j (alo, ahi, blo, bhi)).
Proof.
  induction depth as [|depth IH]; intros alo ahi blo bhi [Ha Hb]; [constructor|].
  cbn [blocks_of].
  pose proof (find_longest_match_within a b b2j alo ahi blo bhi Ha Hb) as Hin.
  destruct (find_longest_match a b b2j alo ahi blo bhi) as [i j k].
  cbn [Match_a Match_b Match_size].
  destruct (0 <? k); [|constructor].
  constructor; [done|].
  destruct Hin as (Hi1 & Hi2 & Hj1 & Hj2). cbn [Match_a Match_b Match_size] in *.
  apply Forall_app. split.
  - destruct ((i + k <? ahi) && (j + k <? bhi)); [|constructor].
    eapply Forall_impl; [apply IH; split; lia|].
    intros x. apply within_weaken; lia.
  - destruct ((alo <? i) && (blo <? j)); [|constructor].
    eapply Forall_impl; [apply IH; split; lia|].
    intros x. apply within_weaken; lia.
Qed.

(** Any two blocks of a rectangle lie one before the other. *)
Lemma blocks_of_chain a b b2j depth :
  ∀ alo ahi blo bhi,
    rect_ok (alo, ahi, blo, bhi) →
    StronglySorted (λ x y, chain_before x y ∨ chain_before y x)
      (blocks_of depth a b b2j (alo, ahi, blo, bhi)).
Proof.
  induction depth as [|depth IH]; intros alo ahi blo bhi [Ha Hb]; [constructor|].
  cbn [blocks_of].
  pose proof (find_longest_match_within a b b2j alo ahi blo bhi Ha Hb) as Hin.
  destruct (find_longest_match a b b2j alo ahi blo bhi) as [i j k].
  cbn [Match_a Match_b Match_size].
  destruct (0 <? k); [|constructor].
  destruct Hin as (Hi1 & Hi2 & Hj1 & Hj2). cbn [Match_a Match_b Match_size] in *.
  assert (HR : Forall (within (i + k) ahi (j + k) bhi)
                 (if (i + k <? ahi) && (j + k <? bhi)
                  then blocks_of depth a b b2j (i + k, ahi, j + k, bhi) else [])
               ∧ StronglySorted (λ x y, chain_before x y ∨ chain_before y x)
                   (if (i + k <? ahi) && (j + k <? bhi)
                    then blocks_of depth a b b2j (i + k, ahi, j + k, bhi) else [])).
  { destruct ((i + k <? ahi) && (j + k <? bhi)); [|split; constructor].
    split; [apply blocks_of_within|apply IH]; split; lia. }
  assert (HL : Forall (within alo i blo j)
                 (if (alo <? i) && (blo <? j)
                  then blocks_of depth a b b2j (alo, i, blo, j) else [])
               ∧ StronglySorted (λ x y, chain_before x y ∨ chain_before y x)
                   (if (alo <? i) && (blo <? j)
                    then blocks_of depth a b b2j (alo, i, blo, j) else [])).
  { destruct ((alo <? i) && (blo <? j)); [|split; constructor].
    split; [apply blocks_of_within|apply IH]; split; lia. }
  destruct HR as [HRin HRs]. destruct HL as [HLin HLs].
  rewrite Forall_forall in HRin, HLin.
  constructor.
  - apply StronglySorted_app_2; [|done..].
    intros x y Hx%HRin Hy%HLin. right.
    unfold within, chain_before in *. lia.
  - apply Forall_app. split; apply Forall_forall.
    + intros y Hy%HRin. left. unfold within, chain_before in *. simpl. lia.
    + intros y Hy%HLin. right. unfold within, chain_before in *. simpl. lia.
Qed.

Lemma insert_block_sorted x l :
  0 < Match_size x →
  Forall (λ y, 0 < Match_size y) l →
  Forall (λ y, chain_before x y ∨ chain_before y x) l →
  StronglySorted chain_before l →
  StronglySorted chain_before (insert_block x l).
Proof.
  intros Hx. induction l as [|y l IH]; intros Hpos Hcmp Hs; simpl.
  - repeat constructor.
  - apply Forall_cons in Hpos as [Hy Hpos].
    apply Forall_cons in Hcmp as [Hxy Hcmp].
    apply StronglySorted_inv in Hs as [Hs Hyl].
    destruct (Match_ltb y x) eqn:Hlt.
    + assert (Hyx : chain_before y x).
      { destruct Hxy as [Hxy|Hyx]; [|done]. exfalso.
        unfold chain_before in Hxy. unfold Match_ltb in Hlt.
        rewrite orb_true_iff, andb_true_iff, Nat.ltb_lt, Nat.eqb_eq in Hlt. lia. }
      constructor; [by apply IH|].
      rewrite insert_block_perm. by constructor.
    + assert (Hxy' : chain_before x y).
      { destruct Hxy as [Hxy|Hyx]; [done|]. exfalso.
        unfold chain_before in Hyx. unfold Match_ltb in Hlt.
        rewrite orb_false_iff, Nat.ltb_ge in Hlt. lia. }
      constructor; [by constructor|].
      constructor; [done|].
      eapply Forall_impl; [exact Hyl|]. intros z Hyz.
      unfold chain_before in *. lia.
Qed.

Lemma sort_blocks_sorted l :
  Forall (λ y, 0 < Match_size y) l →
  StronglySorted (λ x y, chain_before x y ∨ chain_before y x) l →
  StronglySorted chain_before (sort_blocks l).
Proof.
  unfold sort_blocks. induction l as [|x l IH]; intros Hpos Hs; simpl.
  - constructor.
  - apply Forall_cons in Hpos as [Hx Hpos].
    apply StronglySorted_inv in Hs as [Hs Hxl].
    apply insert_block_sorted; [done| | |by apply IH].
    + by rewrite (sort_blocks_perm l).
    + by rewrite (sort_blocks_perm l).
Qed.

Lemma apart_snoc acc x :
  StronglySorted apart acc →
  Forall (λ y, apart y x) acc →
  StronglySorted apart (acc ++ [x]).
Proof.
  intros Hs Hx. apply StronglySorted_app_2; [|done|repeat constructor].
  intros y z Hy [->|[]%elem_of_nil]%elem_of_cons.
  rewrite Forall_forall in Hx. by apply Hx.
Qed.

Lemma collapse_apart blocks :
  ∀ i1 j1 k1 non_adjacent,
    Forall (λ y, 0 < Match_size y) blocks →
    StronglySorted chain_before blocks →
    Forall (chain_before (mkMatch i1 j1 k1)) blocks →
    (k1 = 0 → non_adjacent = []) →
    StronglySorted apart non_adjacent →
    Forall (λ y, apart y (mkMatch i1 j1 k1)) non_adjacent →
    StronglySorted apart (collapse i1 j1 k1 blocks non_adjacent).
Proof.
  induction blocks as [|x blocks IH];
    intros i1 j1 k1 acc Hpos Hs Hcur Hinit Hacc Hgap; simpl.
  - destruct (0 <? k1); [|done]. by apply apart_snoc.
  - apply Forall_cons in Hpos as [Hx Hpos].
    apply StronglySorted_inv in Hs as [Hs Hxl].
    apply Forall_cons in Hcur as [Hcx Hcur].
    destruct ((i1 + k1 =? Match_a x) && (j1 + k1 =? Match_b x)) eqn:Hadj.
    + apply andb_prop in Hadj as [Hi%Nat.eqb_eq Hj%Nat.eqb_eq].
      apply IH; [done|done| |lia|done|].
      * eapply Forall_impl; [exact Hxl|]. intros z Hz.
        unfold chain_before in *. simpl in *. lia.
      * eapply Forall_impl; [exact Hgap|]. intros y Hy.
        unfold apart, chain_before in *. simpl in *. done.
    + assert (Hnadj : ¬ (i1 + k1 = Match_a x ∧ j1 + k1 = Match_b x)).
      { intros [Hi Hj]. apply andb_false_iff in Hadj as [Hn|Hn];
          apply Nat.eqb_neq in Hn; lia. }
      destruct x as [i2 j2 k2]. cbn [Match_a Match_b Match_size] in *.
      apply IH; [done|done|done|lia| |].
      * destruct (0 <? k1); [|done]. by apply apart_snoc.
      * destruct (0 <? k1) eqn:Hk.
        -- apply Nat.ltb_lt in Hk. apply Forall_app. split.
           ++ eapply Forall_impl; [exact Hgap|]. intros y Hy.
              unfold apart, chain_before in *. simpl in *. lia.
           ++ repeat constructor; unfold chain_before in *; simpl in *; [lia..|done].
        -- apply Nat.ltb_ge in Hk. rewrite Hinit by lia. constructor.
Qed.

(** The documented order of [get_matching_blocks]: the blocks increase in
    both sequences and adjacent ones have been joined. *)
Lemma get_matching_blocks_order a b :
  ∃ blocks,
    get_matching_blocks a b = blocks ++ [mkMatch (length a) (length b) 0]
    ∧ StronglySorted apart blocks
    ∧ Forall (within 0 (length a) 0 (length b)) blocks.
Proof.
  unfold get_matching_blocks. eexists. split; [done|].
  assert (Hok : rect_ok (0, length a, 0, length b)) by (split; lia).
  split.
  - apply collapse_apart.
    + rewrite sort_blocks_perm, raw_blocks_blocks_of. apply blocks_of_nonempty.
    + apply sort_blocks_sorted; rewrite raw_blocks_blocks_of.
      * apply blocks_of_nonempty.
      * by apply blocks_of_chain.
    + rewrite sort_blocks_perm, raw_blocks_blocks_of.
      eapply Forall_impl; [by apply blocks_of_within|].
      intros x Hx. unfold within, chain_before in *. simpl. lia.
    + done.
    + constructor.
    + constructor.
  - apply collapse_keeps.
    + intros i j k1 k2. unfold within. simpl. lia.
    + unfold within. simpl. lia.
    + rewrite sort_blocks_perm, raw_blocks_blocks_of. by apply blocks_of_within.
    + constructor.
Qed.
End difflib_order.

(** ** The query of [extract_data] *)

Section query_facts.
Import Str FuzzySearch TradeDataExtractor.

Lemma extract_data_resolved {DataFrame : Type}
    (empty_frame : DataFrame) (df_empty : DataFrame → bool)
    (execute_query : string → list param → option DataFrame)
    (_enrich_dataframe : DataFrame → DataFrame)
    (country_codes hs_codes : mapping) (date country product : option string)
    (country_bound product_bound : list param) :
  resolves country country_codes "country" country_bound →
  resolves product hs_codes "product" product_bound →
  Str.truthy date || Str.truthy country || Str.truthy product = true →
  extract_data DataFrame empty_frame df_empty execute_query _enrich_dataframe
    country_codes hs_codes date country product
  = ReturnF DataFrame
      (enriched df_empty _enrich_dataframe
         (execute_query
            (sql_text (Str.truthy date) (Str.truthy country) (Str.truthy product))
            (date_params date ++ country_bound ++ product_bound))).
Proof.
  intros Hc Hp Hsome.
  assert (Hres : ∀ answer : option DataFrame,
             match answer with
             | Some d =>
                 if negb (df_empty d)
                 then ReturnF DataFrame (Some (_enrich_dataframe d))
                 else ReturnF DataFrame answer
             | None => ReturnF DataFrame answer
             end
             = ReturnF DataFrame (enriched df_empty _enrich_dataframe answer)).
  { intros [d|]; [|done]. simpl. by destruct (df_empty d). }
  destruct Hc as [[Hc ->] | (sc & cc & -> & Htc & Hc & ->)];
    destruct Hp as [[Hp ->] | (sp & pc & -> & Htp & Hp & ->)].
  - rewrite Hc, Hp, !orb_false_r in Hsome.
    apply truthy_true_cases in Hsome as (c & s & ->).
    apply truthy_false_cases in Hc as [-> | ->];
      apply truthy_false_cases in Hp as [-> | ->];
      unfold extract_data; cbn -[base_query]; apply Hres.
  - destruct sp as [|c' sp]; [done|].
    apply truthy_false_cases in Hc as [-> | ->];
      destruct date as [[|]|];
      unfold extract_data; rewrite Hp; cbn -[base_query]; apply Hres.
  - destruct sc as [|c' sc]; [done|].
    apply truthy_false_cases in Hp as [-> | ->];
      destruct date as [[|]|];
      unfold extract_data; rewrite Hc; cbn -[base_query]; apply Hres.
  - destruct sc as [|c' sc]; [done|]. destruct sp as [|c'' sp]; [done|].
    destruct date as [[|]|];
      unfold extract_data; rewrite Hc, Hp; cbn -[base_query]; apply Hres.
Qed.
End query_facts.

(** ** The command line *)

Section cli_facts.
Import Str validators data_extractor.

Lemma validate_args_true path_exists args msg :
  validate_args path_exists args = (true, msg) →
  path_exists (database args) = true
  ∧ (truthy (date args) || truthy (country args) || truthy (product args)
     || list_countries args || list_products args
     || truthy (search_country args) || truthy (search_product args)) = true.
Proof.
  unfold validate_args. destruct (path_exists (database args)); [|done].
  cbn [negb existsb].
  destruct (truthy (date args)), (truthy (country args)),
    (truthy (product args)), (list_countries args), (list_products args),
    (truthy (search_country args)), (truthy (search_product args)); done.
Qed.

Lemma filters_present path_exists args msg :
  validate_args path_exists args = (true, msg) →
  handle_list_operations args = false →
  truthy (date args) || truthy (country args) || truthy (product args) = true.
Proof.
  intros [_ Hany]%validate_args_true. unfold handle_list_operations.
  destruct (list_countries args); [done|].
  destruct (list_products args); [done|].
  destruct (truthy (search_country args)); [done|].
  destruct (truthy (search_product args)); [done|].
  intros _. by rewrite !orb_false_r in Hany.
Qed.
End cli_facts.

(* ===================================================================== *)
(** * The extraction                                                       *)
(* ===================================================================== *)

(** X1: without any filter ([None] or the empty string for the date, the
    country and the product) [extract_data] returns the empty frame, whatever
    the database would answer. *)
Theorem X1_extract_data_without_filter {DataFrame : Type}
    (empty_frame : DataFrame) (df_empty : DataFrame → bool)
    (execute_query : string → list param → option DataFrame)
    (_enrich_dataframe : DataFrame → DataFrame)
    (country_codes hs_codes : mapping) (date country product : option string) :
  Str.truthy date = false →
  Str.truthy country = false →
  Str.truthy product = false →
  extract_data DataFrame empty_frame df_empty execute_query _enrich_dataframe
    country_codes hs_codes date country product
  = ReturnF DataFrame (Some empty_frame).
Proof.
  intros [-> | ->]%truthy_false_cases [-> | ->]%truthy_false_cases
         [-> | ->]%truthy_false_cases; reflexivity.
Qed.

Lemma X1_witness :
  extract_data nat 0 (Nat.eqb 0) (λ _ _, Some 7) S
    [(792%Z, "Turkey"%string)] [] None (Some EmptyString) None
  = ReturnF nat (Some 0).
Proof. apply X1_extract_data_without_filter; reflexivity. Defined.

(** X2: when the country is given and [_get_code] finds no code for it,
    [extract_data] returns the empty frame without looking at the product
    and without a query; the same holds for a product without a code when
    the country is absent or resolved. *)
Theorem X2_extract_data_unresolved {DataFrame : Type}
    (empty_frame : DataFrame) (df_empty : DataFrame → bool)
    (execute_query : string → list param → option DataFrame)
    (_enrich_dataframe : DataFrame → DataFrame)
    (country_codes hs_codes : mapping) (date country product : option string)
    (s : string) (bound : list param) :
  (country = Some s ∧ Str.truthy country = true
   ∧ _get_code s country_codes "country" = Return None)
  ∨ (resolves country country_codes "country" bound
     ∧ product = Some s ∧ Str.truthy product = true
     ∧ _get_code s hs_codes "product" = Return None) →
  extract_data DataFrame empty_frame df_empty execute_query _enrich_dataframe
    country_codes hs_codes date country product
  = ReturnF DataFrame (Some empty_frame).
Proof.
  intros [(-> & Ht & Hc) | (Hr & -> & Ht & Hp)].
  - destruct s as [|c s]; [done|].
    unfold extract_data. rewrite Hc. by destruct date as [[|]|].
  - destruct s as [|c s]; [done|].
    destruct Hr as [[Hn _] | (s' & code & -> & Ht' & Hc & _)].
    + apply truthy_false_cases in Hn as [-> | ->];
        unfold extract_data; rewrite Hp; by destruct date as [[|]|].
    + destruct s' as [|c' s']; [done|].
      unfold extract_data. rewrite Hc, Hp. by destruct date as [[|]|].
Qed.

Lemma X2_witness :
  extract_data nat 0 (Nat.eqb 0) (λ _ _, Some 7) S
    [(792%Z, "Turkey"%string)] [(8401%Z, "Nuclear reactors"%string)]
    (Some "2024-01"%string) (Some "xyz"%string) (Some "nuclear"%string)
  = ReturnF nat (Some 0).
Proof.
  apply (X2_extract_data_unresolved _ _ _ _ _ _ _ _ _ "xyz" []).
  left. repeat split; vm_compute; reflexivity.
Defined.

(** X3: [extract_data] raises [ValueError] when the country passes
    [str.isdigit] but holds a character that is not a decimal digit (a
    superscript digit), and likewise for such a product when the country is
    absent or resolved: the exception of [int] is not caught. *)
Theorem X3_extract_data_raises {DataFrame : Type}
    (empty_frame : DataFrame) (df_empty : DataFrame → bool)
    (execute_query : string → list param → option DataFrame)
    (_enrich_dataframe : DataFrame → DataFrame)
    (country_codes hs_codes : mapping) (date country product : option string)
    (s : string) (bound : list param) :
  Str.isdigit s = true →
  Exists (λ c, ¬ is_decimal_digit c) (list_ascii_of_string s) →
  country = Some s
  ∨ (resolves country country_codes "country" bound ∧ product = Some s) →
  extract_data DataFrame empty_frame df_empty execute_query _enrich_dataframe
    country_codes hs_codes date country product
  = RaiseF DataFrame ValueError.
Proof.
  intros Hd Hex Hwhere.
  pose proof (_get_code_raises s country_codes "country" Hd Hex) as Hc.
  pose proof (_get_code_raises s hs_codes "product" Hd Hex) as Hp.
  destruct s as [|c s]; [done|].
  destruct Hwhere as [-> | [Hr ->]].
  - unfold extract_data. rewrite Hc. by destruct date as [[|]|].
  - destruct Hr as [[Hn _] | (s' & code & -> & Ht' & Hc' & _)].
    + apply truthy_false_cases in Hn as [-> | ->];
        unfold extract_data; rewrite Hp; by destruct date as [[|]|].
    + destruct s' as [|c' s']; [done|].
      unfold extract_data. rewrite Hc', Hp. by destruct date as [[|]|].
Qed.

Lemma X3_witness :
  extract_data nat 0 (Nat.eqb 0) (λ _ _, Some 7) S
    [(792%Z, "Turkey"%string)] [(8401%Z, "Nuclear reactors"%string)]
    None (Some "Turkey"%string) (Some (String (ascii_of_nat 179) "1"))
  = RaiseF nat ValueError.
Proof.
  apply (X3_extract_data_raises _ _ _ _ _ _ _ _ _
           (String (ascii_of_nat 179) "1") [PInt 792]).
  - reflexivity.
  - apply Exists_cons_hd. unfold is_decimal_digit. vm_compute. lia.
  - right. split; [|reflexivity].
    right. exists "Turkey"%string, 792%Z. repeat split; vm_compute; reflexivity.
Defined.

(** X4: for every input [extract_data] does one of three things, and which
    one does not depend on the database: it raises [ValueError]; it returns
    the empty frame without a query; or it sends exactly one query, whose
    text is the base query followed by the conditions of some of the three
    filters, with as many [?] as there are parameters and at least one
    parameter, and returns the answer ([None] and an empty answer as they
    are, any other answer enriched). *)
Theorem X4_extract_data_outcomes {DataFrame : Type}
    (empty_frame : DataFrame) (df_empty : DataFrame → bool)
    (country_codes hs_codes : mapping) (date country product : option string) :
  (∀ execute_query _enrich_dataframe,
      extract_data DataFrame empty_frame df_empty execute_query
        _enrich_dataframe country_codes hs_codes date country product
      = RaiseF DataFrame ValueError)
  ∨ (∀ execute_query _enrich_dataframe,
        extract_data DataFrame empty_frame df_empty execute_query
          _enrich_dataframe country_codes hs_codes date country product
        = ReturnF DataFrame (Some empty_frame))
  ∨ (∃ query params,
        (∀ execute_query _enrich_dataframe,
            extract_data DataFrame empty_frame df_empty execute_query
              _enrich_dataframe country_codes hs_codes date country product
            = ReturnF DataFrame
                (enriched df_empty _enrich_dataframe (execute_query query params)))
        ∧ (∃ d c p, query = sql_text d c p)
        ∧ placeholders query = length params
        ∧ params ≠ []).
Proof. apply extract_data_cases. Qed.

(** X5: when every name filter that is given resolves to a code and at
    least one filter is given, [extract_data] sends one query: the base
    query with the conditions of the given filters in the order date,
    country, product, bound to the date as given and to the resolved codes
    in that order; it returns the answer, enriched unless it is [None] or
    empty. *)
Theorem X5_extract_data_query {DataFrame : Type}
    (empty_frame : DataFrame) (df_empty : DataFrame → bool)
    (execute_query : string → list param → option DataFrame)
    (_enrich_dataframe : DataFrame → DataFrame)
    (country_codes hs_codes : mapping) (date country product : option string)
    (country_bound product_bound : list param) :
  resolves country country_codes "country" country_bound →
  resolves product hs_codes "product" product_bound →
  Str.truthy date || Str.truthy country || Str.truthy product = true →
  extract_data DataFrame empty_frame df_empty execute_query _enrich_dataframe
    country_codes hs_codes date country product
  = ReturnF DataFrame
      (enriched df_empty _enrich_dataframe
         (execute_query
            (sql_text (Str.truthy date) (Str.truthy country) (Str.truthy product))
            (date_params date ++ country_bound ++ product_bound))).
Proof. apply extract_data_resolved. Qed.

Lemma X5_witness :
  extract_data nat 0 (Nat.eqb 0) (λ _ ps, Some (length ps)) S
    [(792%Z, "Turkey"%string)] [(8401%Z, "Nuclear reactors"%string)]
    (Some "2024-01"%string) (Some "turkey"%string) None
  = ReturnF nat (Some 3).
Proof.
  apply (X5_extract_data_query 0 (Nat.eqb 0) (λ _ ps, Some (length ps)) S
           [(792%Z, "Turkey"%string)] [(8401%Z, "Nuclear reactors"%string)]
           (Some "2024-01"%string) (Some "turkey"%string) None
           [PInt 792] []).
  - right. exists "turkey"%string, 792%Z. repeat split; vm_compute; reflexivity.
  - left. split; reflexivity.
  - reflexivity.
Defined.

(* ===================================================================== *)
(** * Saving the result                                                    *)
(* ===================================================================== *)

(** X6: when the file name does not contain ['.csv'], the name of the
    description file is the file name itself: [save_dataframe] then writes
    the description over the data it has just written, and returns [True];
    afterwards the file holds the description, not the CSV. *)
Theorem X6_save_dataframe_overwrites_data {DataFrame : Type}
    (to_csv : DataFrame → string) (columns : DataFrame → list string)
    (len : DataFrame → nat) (unwritable : string → bool)
    (files : gmap string string) (df : DataFrame) (filename : string)
    (descriptions : gmap string string) (now : string) :
  ¬ is_substring ".csv" filename →
  unwritable filename = false →
  FileHandler.save_dataframe DataFrame to_csv columns len unwritable
    files df filename descriptions now
  = (true,
     <[filename
         := FileHandler.description_text DataFrame columns len df descriptions now]>
       files).
Proof. apply save_dataframe_same_path. Qed.

Lemma X6_witness :
  FileHandler.save_dataframe string (λ df, df) (λ _, ["date"%string]) (λ _, 1)
    (λ _, false) ∅ "2024-01,M" "result.txt" column_descriptions "2024-05-01 10:00:00"
  = (true,
     {[ "result.txt"%string
          := FileHandler.description_text string (λ _, ["date"%string]) (λ _, 1)
               "2024-01,M" column_descriptions "2024-05-01 10:00:00" ]}).
Proof.
  apply (X6_save_dataframe_overwrites_data (λ df : string, df)
           (λ _, ["date"%string]) (λ _, 1) (λ _, false) ∅).
  - intros Hs%contains_spec. vm_compute in Hs. discriminate Hs.
  - reflexivity.
Defined.

(** X7: when the file name contains ['.csv'] and both files can be written,
    the description file has another name than the data file, and
    [save_dataframe] returns [True] with both files written: the CSV under
    the file name, the description under the name with every ['.csv']
    replaced by ['_columns.txt']. *)
Theorem X7_save_dataframe_two_files {DataFrame : Type}
    (to_csv : DataFrame → string) (columns : DataFrame → list string)
    (len : DataFrame → nat) (unwritable : string → bool)
    (files : gmap string string) (df : DataFrame) (filename : string)
    (descriptions : gmap string string) (now : string) :
  is_substring ".csv" filename →
  unwritable filename = false →
  unwritable (Str.replace ".csv" "_columns.txt" filename) = false →
  Str.replace ".csv" "_columns.txt" filename ≠ filename
  ∧ FileHandler.save_dataframe DataFrame to_csv columns len unwritable
      files df filename descriptions now
    = (true,
       <[Str.replace ".csv" "_columns.txt" filename
           := FileHandler.description_text DataFrame columns len df descriptions now]>
         (<[filename := to_csv df]> files)).
Proof. apply save_dataframe_two_paths. Qed.

Lemma X7_witness :
  Str.replace ".csv" "_columns.txt" "a.csv.csv" ≠ "a.csv.csv"%string
  ∧ FileHandler.save_dataframe string (λ df, df) (λ _, ["date"%string]) (λ _, 1)
      (λ _, false) ∅ "2024-01,M" "a.csv.csv" column_descriptions
      "2024-05-01 10:00:00"
    = (true,
       <[Str.replace ".csv" "_columns.txt" "a.csv.csv"
           := FileHandler.description_text string (λ _, ["date"%string]) (λ _, 1)
                "2024-01,M" column_descriptions "2024-05-01 10:00:00"]>
         (<["a.csv.csv"%string := "2024-01,M"%string]> ∅)).
Proof.
  apply (X7_save_dataframe_two_files (λ df : string, df)
           (λ _, ["date"%string]) (λ _, 1) (λ _, false) ∅).
  - apply contains_spec. reflexivity.
  - reflexivity.
  - reflexivity.
Defined.

(** X8: for a file name that ends in ['.csv'] and has no ['.csv'] before
    that ending, the description is written next to the data under the name
    with ['_columns.txt'] in the place of the ending. *)
Theorem X8_save_dataframe_description_name {DataFrame : Type}
    (to_csv : DataFrame → string) (columns : DataFrame → list string)
    (len : DataFrame → nat) (unwritable : string → bool)
    (files : gmap string string) (df : DataFrame) (stem : string)
    (descriptions : gmap string string) (now : string) :
  ¬ is_substring ".csv" stem →
  unwritable (String.append stem ".csv") = false →
  unwritable (String.append stem "_columns.txt") = false →
  FileHandler.save_dataframe DataFrame to_csv columns len unwritable
    files df (String.append stem ".csv") descriptions now
  = (true,
     <[String.append stem "_columns.txt"
         := FileHandler.description_text DataFrame columns len df descriptions now]>
       (<[String.append stem ".csv" := to_csv df]> files)).
Proof.
  intros Hstem Hdata Hdesc. unfold FileHandler.save_dataframe.
  by rewrite Hdata, (replace_csv_suffix stem Hstem), Hdesc.
Qed.

Lemma X8_witness :
  FileHandler.save_dataframe string (λ df, df) (λ _, ["date"%string]) (λ _, 1)
    (λ _, false) ∅ "2024-01,M" (String.append "out/result" ".csv")
    column_descriptions "2024-05-01 10:00:00"
  = (true,
     <[String.append "out/result" "_columns.txt"
         := FileHandler.description_text string (λ _, ["date"%string]) (λ _, 1)
              "2024-01,M" column_descriptions "2024-05-01 10:00:00"]>
       (<[String.append "out/result" ".csv" := "2024-01,M"%string]> ∅)).
Proof.
  apply (X8_save_dataframe_description_name (λ df : string, df)
           (λ _, ["date"%string]) (λ _, 1) (λ _, false) ∅).
  - intros Hs%contains_spec. vm_compute in Hs. discriminate Hs.
  - reflexivity.
  - reflexivity.
Defined.

(** X9: [save_dataframe] returns [True] exactly when both files can be
    written; it changes no file but the data file and the description file;
    and when the data file can be written but the description file cannot,
    it returns [False] and the data file written before stays. *)
Theorem X9_save_dataframe_effect {DataFrame : Type}
    (to_csv : DataFrame → string) (columns : DataFrame → list string)
    (len : DataFrame → nat) (unwritable : string → bool)
    (files : gmap string string) (df : DataFrame) (filename : string)
    (descriptions : gmap string string) (now : string) :
  let desc_filename := Str.replace ".csv" "_columns.txt" filename in
  let result :=
    FileHandler.save_dataframe DataFrame to_csv columns len unwritable
      files df filename descriptions now in
  (result.1 = true
   ↔ unwritable filename = false ∧ unwritable desc_filename = false)
  ∧ (∀ path, path ≠ filename → path ≠ desc_filename →
             result.2 !! path = files !! path)
  ∧ (unwritable filename = false → unwritable desc_filename = true →
     result = (false, <[filename := to_csv df]> files)).
Proof.
  intros desc_filename result. subst result.
  unfold FileHandler.save_dataframe. fold desc_filename.
  destruct (unwritable filename) eqn:Hdata; [|destruct (unwritable desc_filename) eqn:Hdesc];
    cbn [fst snd].
  - split; [split; [done|by intros [? _]]|]. split; [done|done].
  - split; [split; [done|by intros [_ ?]]|]. split; [|done].
    intros path Hp _. by rewrite lookup_insert_ne.
  - split; [done|]. split; [|done].
    intros path Hp Hd. by rewrite !lookup_insert_ne.
Qed.

Lemma X9_witness :
  FileHandler.save_dataframe string (λ df, df) (λ _, ["date"%string]) (λ _, 1)
    (String.eqb "r_columns.txt") ∅ "2024-01,M" "r.csv" column_descriptions
    "2024-05-01 10:00:00"
  = (false, {[ "r.csv"%string := "2024-01,M"%string ]}).
Proof.
  apply (X9_save_dataframe_effect (λ df : string, df)
           (λ _, ["date"%string]) (λ _, 1) (String.eqb "r_columns.txt") ∅);
    reflexivity.
Defined.

(** X10: with no file name given (or an empty one) and a frame that is not
    empty, [save_to_csv] writes the CSV to
    [<OUTPUT_DIR>/trade_data_<stamp>.csv] and the description to another
    file, and returns [True], provided both can be written: the generated
    name contains ['.csv'], so the data is never overwritten. *)
Theorem X10_save_to_csv_default_name {DataFrame : Type}
    (df_empty : DataFrame → bool)
    (to_csv : DataFrame → string) (columns : DataFrame → list string)
    (len : DataFrame → nat) (unwritable : string → bool)
    (files : gmap string string) (d : DataFrame) (filename : option string)
    (output_dir stamp now : string) :
  df_empty d = false →
  Str.truthy filename = false →
  unwritable
    (String.append output_dir
       (String.append "/trade_data_" (String.append stamp ".csv"))) = false →
  unwritable
    (Str.replace ".csv" "_columns.txt"
       (String.append output_dir
          (String.append "/trade_data_" (String.append stamp ".csv")))) = false →
  ∃ files',
    save_to_csv DataFrame df_empty to_csv columns len unwritable
      files (Some d) filename output_dir stamp now
    = (true, files')
    ∧ files' !! String.append output_dir
                  (String.append "/trade_data_" (String.append stamp ".csv"))
      = Some (to_csv d)
    ∧ files' !! Str.replace ".csv" "_columns.txt"
                  (String.append output_dir
                     (String.append "/trade_data_" (String.append stamp ".csv")))
      = Some (FileHandler.description_text DataFrame columns len d
                column_descriptions now).
Proof.
  intros Hd Hname Hdata Hdesc.
  destruct (save_dataframe_two_paths to_csv columns len unwritable files d _
              column_descriptions now
              (default_filename_has_csv output_dir stamp) Hdata Hdesc)
    as [Hne Hsave].
  eexists. unfold save_to_csv. rewrite Hd, Hname. split; [exact Hsave|].
  split.
  - rewrite lookup_insert_ne by done. apply lookup_insert_eq.
  - apply lookup_insert_eq.
Qed.

Lemma X10_witness :
  ∃ files',
    save_to_csv string (String.eqb "") (λ df, df) (λ _, ["date"%string])
      (λ _, 1) (λ _, false) ∅ (Some "2024-01,M"%string) None
      "output" "20240501_100000" "2024-05-01 10:00:00"
    = (true, files')
    ∧ files' !! String.append "output"
                  (String.append "/trade_data_"
                     (String.append "20240501_100000" ".csv"))
      = Some "2024-01,M"%string
    ∧ files' !! Str.replace ".csv" "_columns.txt"
                  (String.append "output"
                     (String.append "/trade_data_"
                        (String.append "20240501_100000" ".csv")))
      = Some (FileHandler.description_text string (λ _, ["date"%string])
                (λ _, 1) "2024-01,M" column_descriptions "2024-05-01 10:00:00").
Proof.
  apply (X10_save_to_csv_default_name (String.eqb "") (λ df : string, df)
           (λ _, ["date"%string]) (λ _, 1) (λ _, false) ∅);
    reflexivity.
Defined.

(** X11: [save_to_csv] returns [True] only for a frame that is present and
    not empty; for [None] and for an empty frame it returns [False] and
    writes nothing. *)
Theorem X11_save_to_csv_needs_rows {DataFrame : Type}
    (df_empty : DataFrame → bool)
    (to_csv : DataFrame → string) (columns : DataFrame → list string)
    (len : DataFrame → nat) (unwritable : string → bool)
    (files : gmap string string) (df : option DataFrame)
    (filename : option string) (output_dir stamp now : string) :
  let result :=
    save_to_csv DataFrame df_empty to_csv columns len unwritable
      files df filename output_dir stamp now in
  (result.1 = true → ∃ d, df = Some d ∧ df_empty d = false)
  ∧ ((∀ d, df = Some d → df_empty d = true) → result = (false, files)).
Proof.
  intros result. subst result. unfold save_to_csv.
  destruct df as [d|]; [|by split].
  destruct (df_empty d) eqn:Hd.
  - split; [done|]. done.
  - split; [by exists d|]. intros He. specialize (He d eq_refl). congruence.
Qed.

Lemma X11_witness :
  save_to_csv string (String.eqb "") (λ df, df) (λ _, ["date"%string])
    (λ _, 1) (λ _, false) ∅ (Some EmptyString) (Some "r.csv"%string)
    "output" "20240501_100000" "2024-05-01 10:00:00"
  = (false, ∅).
Proof.
  apply (X11_save_to_csv_needs_rows (String.eqb "") (λ df : string, df)
           (λ _, ["date"%string]) (λ _, 1) (λ _, false) ∅ (Some EmptyString)).
  intros d [= <-]. reflexivity.
Defined.

(* ===================================================================== *)
(** * Resolving a name                                                     *)
(* ===================================================================== *)

(** X12: resolution does not see the case of the query: two queries with
    the same lower-cased form get the same result from [search], from
    [find_best_match] and from [_get_code] (for [_get_code] also on the
    all-digit queries, which it does not lower-case). *)
Theorem X12_resolution_ignores_case (query1 query2 : string) (m : mapping)
    (item_type : string) :
  Str.lower query1 = Str.lower query2 →
  (∀ threshold partial_match_score max_results,
      search query1 m threshold partial_match_score max_results
      = search query2 m threshold partial_match_score max_results)
  ∧ (∀ exact_search,
        find_best_match query1 m item_type exact_search
        = find_best_match query2 m item_type exact_search)
  ∧ _get_code query1 m item_type = _get_code query2 m item_type.
Proof.
  intros Hlow. split; [|split].
  - intros threshold pms max_results. unfold search, search_with.
    by rewrite Hlow.
  - intros exact_search.
    rewrite <- (find_best_match_lower query1), <- (find_best_match_lower query2).
    by rewrite Hlow.
  - rewrite <- (_get_code_lower query1), <- (_get_code_lower query2).
    by rewrite Hlow.
Qed.

Lemma X12_witness :
  _get_code "TURKEY" [(792%Z, "Turkey"%string)] "country"
  = _get_code "turkey" [(792%Z, "Turkey"%string)] "country".
Proof.
  apply (X12_resolution_ignores_case "TURKEY" "turkey"). reflexivity.
Defined.

(** X13: [_get_code] raises exactly on the queries that pass [str.isdigit]
    and either hold a character that is not a decimal digit (a superscript
    digit) or have more than 4300 characters, the most digits that [int]
    converts; the exception is [ValueError]; on every other query it
    returns. *)
Theorem X13_get_code_raises_iff (query : string) (m : mapping)
    (item_type : string) :
  ((∃ e, _get_code query m item_type = Raise e)
   ↔ Str.isdigit query = true
     ∧ (Exists (λ c, ¬ is_decimal_digit c) (list_ascii_of_string query)
        ∨ 4300 < String.length query))
  ∧ (_get_code query m item_type = Raise ValueError
     ∨ (∃ code, _get_code query m item_type = Return code)).
Proof.
  split.
  - split.
    + intros [e He]. by apply _get_code_Raise_inv in He.
    + intros [Hd [Hex|Hlen]]; exists ValueError.
      * by apply _get_code_raises.
      * by apply _get_code_too_long.
  - destruct (_get_code query m item_type) as [[]|code]; eauto.
Qed.

(* ===================================================================== *)
(** * The candidates of the matcher                                        *)
(* ===================================================================== *)

(** X14: over a mapping with distinct keys (a dict) the codes of the
    candidates that [search] returns are distinct: no entry is reported
    twice. *)
Theorem X14_search_codes_distinct (search_term : string) (m : mapping)
    (threshold partial_match_score : Q) (max_results : Z) :
  NoDup (keys m) →
  NoDup ((λ x : candidate, x.1.1)
           <$> search search_term m threshold partial_match_score max_results).
Proof. apply search_with_codes_NoDup. Qed.

Lemma X14_witness :
  NoDup ((λ x : candidate, x.1.1)
           <$> search "austr"
                 [(36%Z, "Australia"%string); (40%Z, "Austria"%string)]
                 (6 # 10) (9 # 10) 5).
Proof.
  apply X14_search_codes_distinct. compute_done.
Defined.

(** X15: when [max_results] is at least the size of the mapping, lowering
    the threshold loses no entry: every entry returned for a threshold is
    also returned for every smaller one, with the computed similarity or
    with [partial_match_score]. *)
Theorem X15_search_threshold_monotone (search_term : string) (m : mapping)
    (threshold1 threshold2 partial_match_score : Q) (max_results : Z)
    (x : candidate) :
  (threshold2 <= threshold1)%Q →
  (Z.of_nat (length m) ≤ max_results)%Z →
  x ∈ search search_term m threshold1 partial_match_score max_results →
  ∃ similarity,
    (x.1.1, x.1.2, similarity)
      ∈ search search_term m threshold2 partial_match_score max_results
    ∧ (similarity = SequenceMatcher_ratio (Str.lower search_term) (Str.lower x.1.2)
       ∨ similarity = partial_match_score).
Proof.
  intros Hthr Hmax Hx. unfold search in *.
  apply search_with_all in Hx; [|done].
  destruct (matches_loop_threshold_mono _ _ _ _ _ _ _ Hthr Hx) as (s & Hs & Hhow).
  exists s. split; [|done]. by apply search_with_all.
Qed.

Lemma X15_witness :
  ∃ similarity,
    (36%Z, "Australia"%string, similarity)
      ∈ search "austr" [(36%Z, "Australia"%string); (40%Z, "Austria"%string)]
          (5 # 10) (9 # 10) 5
    ∧ (similarity = SequenceMatcher_ratio (Str.lower "austr") (Str.lower "Australia")
       ∨ similarity = (9 # 10)%Q).
Proof.
  apply (X15_search_threshold_monotone "austr"
           [(36%Z, "Australia"%string); (40%Z, "Austria"%string)]
           (6 # 10) (5 # 10) (9 # 10) 5
           (36%Z, "Australia"%string,
            SequenceMatcher_ratio "austr" "australia")).
  - vm_compute. discriminate.
  - vm_compute. discriminate.
  - vm_compute. right. left.
Defined.

(** X16: when the lengths of the lower-cased query and of a lower-cased
    name differ so much that [2 * min < threshold * (sum of the two
    lengths)], the computed similarity cannot reach the threshold: a
    candidate with such a name is returned only as a substring hit, with
    [partial_match_score] as its similarity. *)
Theorem X16_search_length_gap (search_term : string) (m : mapping)
    (threshold partial_match_score : Q) (max_results : Z) (x : candidate) :
  x ∈ search search_term m threshold partial_match_score max_results →
  (inject_Z (2 * Z.of_nat (min (String.length (Str.lower search_term))
                             (String.length (Str.lower x.1.2))))
   < threshold
     * inject_Z (Z.of_nat (String.length (Str.lower search_term)
                           + String.length (Str.lower x.1.2))))%Q →
  is_substring (Str.lower search_term) (Str.lower x.1.2)
  ∧ similarity_of x = partial_match_score.
Proof.
  intros Hx Hgap. apply search_with_how in Hx as [_ [[Hthr _] | (_ & Hsub & Hsim)]];
    [|done].
  exfalso. apply (Qle_not_lt _ _ Hthr).
  by apply score_below_threshold.
Qed.

Lemma X16_witness :
  is_substring (Str.lower "a") (Str.lower "Australia")
  ∧ similarity_of (36%Z, "Australia"%string, (9 # 10)%Q) = (9 # 10)%Q.
Proof.
  apply (X16_search_length_gap "a" [(36%Z, "Australia"%string)] (6 # 10)
           (9 # 10) 5 (36%Z, "Australia"%string, (9 # 10)%Q)).
  - vm_compute. left.
  - vm_compute. reflexivity.
Defined.

(** X17: for a positive threshold and a query that is not empty, the
    lower-cased name of every candidate that [search] returns has a
    character in common with the lower-cased query. *)
Theorem X17_search_shares_character (search_term : string) (m : mapping)
    (threshold partial_match_score : Q) (max_results : Z) (x : candidate) :
  (0 < threshold)%Q →
  search_term ≠ EmptyString →
  x ∈ search search_term m threshold partial_match_score max_results →
  ∃ c, c ∈ list_ascii_of_string (Str.lower search_term)
       ∧ c ∈ list_ascii_of_string (Str.lower x.1.2).
Proof.
  intros Hthr Hne Hx.
  assert (Hlow : Str.lower search_term ≠ EmptyString) by (by rewrite lower_empty).
  apply search_with_how in Hx as [_ [[Hle _] | (_ & Hsub & _)]].
  - destruct (common_char_dec (list_ascii_of_string (Str.lower search_term))
                (list_ascii_of_string (Str.lower x.1.2))) as [Hc|Hnone]; [done|].
    exfalso. apply (Qlt_not_le _ _ Hthr).
    by rewrite <- (score_no_common _ _ Hnone Hlow).
  - destruct (Str.lower search_term) as [|c s] eqn:Hq; [done|].
    exists c. split; [by left|]. by apply (is_substring_head c s).
Qed.

Lemma X17_witness :
  ∃ c, c ∈ list_ascii_of_string (Str.lower "austr")
       ∧ c ∈ list_ascii_of_string (Str.lower "Austria").
Proof.
  apply (X17_search_shares_character "austr"
           [(36%Z, "Australia"%string); (40%Z, "Austria"%string)]
           (6 # 10) (9 # 10) 5
           (40%Z, "Austria"%string, SequenceMatcher_ratio "austr" "austria")).
  - reflexivity.
  - discriminate.
  - vm_compute. left.
Defined.

(** X18: when [find_best_match] finds no exact match, no entry's
    lower-cased name is the lower-cased query and every candidate it
    returns has a similarity below 1. *)
Theorem X18_fuzzy_candidates_below_one (search_term : string) (m : mapping)
    (item_type : string) (candidates : list candidate) :
  find_best_match search_term m item_type true = (None, None, candidates) →
  Forall (λ e, Str.lower e.2 ≠ Str.lower search_term) m
  ∧ ∀ x, x ∈ candidates → (similarity_of x < 1)%Q.
Proof.
  unfold find_best_match, find_best_match_with.
  destruct (exact_loop (Str.lower search_term) m) as [[code name]|] eqn:Hexact;
    [done|].
  intros [= <-]. apply exact_loop_None_inv in Hexact. split; [done|].
  intros x Hx.
  apply search_with_how in Hx as [Hin [[_ Hsim] | (_ & _ & Hsim)]].
  - rewrite Hsim, lower_idemp.
    destruct (score_range (Str.lower search_term) (Str.lower x.1.2)) as [_ Hle].
    apply Qle_lteq in Hle as [Hlt|Heq]; [done|].
    apply score_one_eq in Heq.
    rewrite Forall_forall in Hexact. by destruct (Hexact _ Hin).
  - by rewrite Hsim.
Qed.

Lemma X18_witness :
  Forall (λ e, Str.lower e.2 ≠ Str.lower "Austr")
    [(36%Z, "Australia"%string); (40%Z, "Austria"%string)]
  ∧ ∀ x, x ∈ search "austr"
               [(36%Z, "Australia"%string); (40%Z, "Austria"%string)]
               (6 # 10) (9 # 10) 5 →
         (similarity_of x < 1)%Q.
Proof.
  apply (X18_fuzzy_candidates_below_one "Austr"
           [(36%Z, "Australia"%string); (40%Z, "Austria"%string)] "country").
  reflexivity.
Defined.

(* ===================================================================== *)
(** * The similarity and the matching blocks                               *)
(* ===================================================================== *)

(** X19: the similarity of two strings is 1 exactly when they are equal. *)
Theorem X19_score_one_iff_equal (a b : string) :
  (SequenceMatcher_ratio a b == 1)%Q ↔ a = b.
Proof.
  split; [apply score_one_eq|]. intros ->. apply score_self.
Qed.

(** X20: [get_matching_blocks] returns blocks of positive size, each of them
    a block that the two sequences really have in common
    ([a[i:i+n] == b[j:j+n]], inside both), followed by the one block
    [(len(a), len(b), 0)]. *)
Theorem X20_matching_blocks_are_common `{Countable A} (a b : list A) :
  ∃ blocks,
    difflib.get_matching_blocks a b
    = blocks ++ [difflib.mkMatch (length a) (length b) 0]
    ∧ Forall (λ x, 0 < difflib.Match_size x ∧ block_matches a b x) blocks.
Proof. apply get_matching_blocks_spec. Qed.

(** X21: the [while queue:] loop of [get_matching_blocks] ends: after
    [2 * len(a) + 1] rounds the queue is empty, and any further round
    changes nothing. *)
Theorem X21_queue_loop_ends `{Countable A} (a b : list A) (rounds : nat) :
  2 * length a + 1 ≤ rounds →
  difflib.queue_loop rounds a b (difflib.chain_b b)
    ([(0, length a, 0, length b)], [])
  = difflib.raw_blocks a b
  ∧ (difflib.raw_blocks a b).1 = [].
Proof.
  intros Hrounds. split; [|apply queue_loop_empties].
  apply queue_loop_stable; [|done]. apply queue_loop_empties.
Qed.

Lemma X21_witness :
  difflib.queue_loop 20 (list_ascii_of_string "abxcd") (list_ascii_of_string "abcd")
    (difflib.chain_b (list_ascii_of_string "abcd"))
    ([(0, 5, 0, 4)], [])
  = difflib.raw_blocks (list_ascii_of_string "abxcd") (list_ascii_of_string "abcd")
  ∧ (difflib.raw_blocks (list_ascii_of_string "abxcd")
       (list_ascii_of_string "abcd")).1 = [].
Proof.
  apply (X21_queue_loop_ends (list_ascii_of_string "abxcd")
           (list_ascii_of_string "abcd") 20).
  simpl. lia.
Defined.

(* ===================================================================== *)
(** * Loading the codes                                                    *)
(* ===================================================================== *)


(** X23: the loop of [load_hs_codes] reads the elements of ['results']
    up to the first one that is not an object or that has a truthy id that
    is not a string together with a non-empty text; there it stops and
    what was loaded is returned.  The result maps a code to a name exactly
    when one of the elements read has a string id, not empty and not
    ['TOTAL'], that reads as this code once its dots are removed, and has
    this non-empty name as its text, and no element read after it gives an
    entry for the same code: of two such elements the later one wins. *)
Theorem X23_load_hs_codes_last_wins (items : list FileHandler.element)
    (n : Z) (t : string) :
  (n, t) ∈ FileHandler.load_hs_codes (FileHandler.Document (Some items))
  ↔ ∃ pre e post,
      read_elements items = pre ++ e :: post
      ∧ entry_of e = Some (n, t)
      ∧ Forall (no_entry_for n) post.
Proof.
  unfold FileHandler.load_hs_codes. cbn [default from_option id].
  rewrite (load_items_elem items n t []) by constructor.
  split; [|by left].
  intros [Hfound | [_ Hnil]]; [done|]. by apply elem_of_nil in Hnil.
Qed.

(** X24: the dots of an id do not count: with the dots removed from every
    id, [load_hs_codes] returns the same mapping. *)
Theorem X24_load_hs_codes_ignores_dots
    (results : option (list FileHandler.element)) :
  FileHandler.load_hs_codes
    (FileHandler.Document (fmap (M:=list) without_dots <$> results))
  = FileHandler.load_hs_codes (FileHandler.Document results).
Proof.
  destruct results as [items|]; [|done].
  apply load_items_without_dots.
Qed.

(** X25: a new extractor has two mappings that are not empty; the HS
    mapping has distinct codes and no empty name; a mapping that was loaded
    and is not empty is kept as it is, an empty one is replaced by the
    default. *)
Theorem X25_init_mappings (loaded_country_codes : mapping)
    (hs_file : FileHandler.json_file) :
  let extractor := __init__ loaded_country_codes hs_file in
  extractor.1 ≠ [] ∧ extractor.2 ≠ []
  ∧ NoDup (keys extractor.2)
  ∧ Forall (λ e, e.2 ≠ EmptyString) extractor.2
  ∧ (loaded_country_codes ≠ [] → extractor.1 = loaded_country_codes)
  ∧ (FileHandler.load_hs_codes hs_file ≠ [] →
     extractor.2 = FileHandler.load_hs_codes hs_file)
  ∧ (loaded_country_codes = [] →
     extractor.1 = [(792%Z, "Turkey"%string); (643%Z, "Russian Federation"%string)])
  ∧ (FileHandler.load_hs_codes hs_file = [] →
     extractor.2 = [(8401%Z, "Nuclear reactors"%string)]).
Proof.
  intros extractor. subst extractor. unfold __init__, _load_default_codes.
  cbn [fst snd].
  destruct (load_hs_codes_inv hs_file) as [Hnodup Hnames].
  destruct loaded_country_codes as [|e1 l1];
    destruct (FileHandler.load_hs_codes hs_file) as [|e2 l2];
    repeat split; try done; try compute_done.
  all: repeat constructor; done.
Qed.

Lemma X25_witness :
  (__init__ [] FileHandler.Missing).1
  = [(792%Z, "Turkey"%string); (643%Z, "Russian Federation"%string)].
Proof.
  apply (X25_init_mappings [] FileHandler.Missing). reflexivity.
Defined.

(** X26: [find_longest_match] returns a block that lies inside the
    rectangle [alo <= i, i + k <= ahi, blo <= j, j + k <= bhi] it was asked
    about and that the two sequences really have in common. *)
Theorem X26_find_longest_match_common `{Countable A} (a b : list A)
    (alo ahi blo bhi : nat) :
  alo ≤ ahi → blo ≤ bhi →
  within alo ahi blo bhi
    (difflib.find_longest_match a b (difflib.chain_b b) alo ahi blo bhi)
  ∧ block_matches a b
      (difflib.find_longest_match a b (difflib.chain_b b) alo ahi blo bhi).
Proof.
  intros Ha Hb. split.
  - by apply find_longest_match_within.
  - apply find_longest_match_matches, chain_b_sound.
Qed.

Lemma X26_witness :
  within 0 5 0 4
    (difflib.find_longest_match (list_ascii_of_string "abxcd")
       (list_ascii_of_string "abcd")
       (difflib.chain_b (list_ascii_of_string "abcd")) 0 5 0 4)
  ∧ block_matches (list_ascii_of_string "abxcd") (list_ascii_of_string "abcd")
      (difflib.find_longest_match (list_ascii_of_string "abxcd")
         (list_ascii_of_string "abcd")
         (difflib.chain_b (list_ascii_of_string "abcd")) 0 5 0 4).
Proof.
  apply (X26_find_longest_match_common (list_ascii_of_string "abxcd")
           (list_ascii_of_string "abcd") 0 5 0 4); lia.
Defined.

(** X27: the blocks that [get_matching_blocks] returns before the final
    [(len(a), len(b), 0)] lie inside the two sequences, increase in both of
    them without overlap, and no block continues another one in both
    sequences at once (such blocks have been joined). *)
Theorem X27_matching_blocks_increasing `{Countable A} (a b : list A) :
  ∃ blocks,
    difflib.get_matching_blocks a b
    = blocks ++ [difflib.mkMatch (length a) (length b) 0]
    ∧ StronglySorted apart blocks
    ∧ Forall (within 0 (length a) 0 (length b)) blocks.
Proof. apply get_matching_blocks_order. Qed.

(** X28: a country written as a non-empty string of decimal digits, at
    most 4300 of them, is bound to the query as the number that the digits
    denote, whatever the country mapping holds: with no product,
    [extract_data] sends the base query with the date condition, if a date
    is given, and the country condition. *)
Theorem X28_extract_data_numeric_country {DataFrame : Type}
    (empty_frame : DataFrame) (df_empty : DataFrame → bool)
    (execute_query : string → list param → option DataFrame)
    (_enrich_dataframe : DataFrame → DataFrame)
    (country_codes hs_codes : mapping) (date product : option string)
    (country : string) :
  country ≠ EmptyString →
  Forall is_decimal_digit (list_ascii_of_string country) →
  String.length country ≤ 4300 →
  Str.truthy product = false →
  extract_data DataFrame empty_frame df_empty execute_query
    _enrich_dataframe country_codes hs_codes date (Some country) product
  = ReturnF DataFrame
      (enriched df_empty _enrich_dataframe
         (execute_query (sql_text (Str.truthy date) true false)
            (date_params date ++ [PInt (decimal_number country)]))).
Proof.
  intros Hne Hdigits Hlen Hproduct.
  assert (Hisdigit : Str.isdigit country = true).
  { destruct country; [done|]. by apply all_chars_decimal. }
  pose proof (int_decimal country Hne Hdigits Hlen) as Hint.
  assert (Htruthy : Str.truthy (Some country) = true) by (by destruct country).
  rewrite (extract_data_resolved empty_frame df_empty execute_query
             _enrich_dataframe country_codes hs_codes date (Some country)
             product [PInt (decimal_number country)] []).
  - by rewrite Htruthy, Hproduct, app_nil_r.
  - right. exists country, (decimal_number country). repeat split; [done|].
    unfold _get_code. by rewrite Hisdigit, Hint.
  - by left.
  - by rewrite Htruthy, orb_true_r.
Qed.

Lemma X28_witness :
  extract_data nat 0 (Nat.eqb 0) (λ _ ps, Some (length ps)) S
    [(792%Z, "Turkey"%string)] [] (Some "2024-12-01"%string)
    (Some "999"%string) None
  = ReturnF nat
      (enriched (Nat.eqb 0) S
         ((λ _ ps, Some (length ps))
            (sql_text true true false)
            [PStr "2024-12-01"; PInt 999])).
Proof.
  apply (X28_extract_data_numeric_country 0 (Nat.eqb 0)
           (λ _ ps, Some (length ps)) S [(792%Z, "Turkey"%string)] []
           (Some "2024-12-01"%string) None "999").
  - discriminate.
  - repeat constructor; simpl; lia.
  - vm_compute. lia.
  - reflexivity.
Defined.

(* ===================================================================== *)
(** * The command line                                                     *)
(* ===================================================================== *)

(** X29: [validate_args] accepts exactly when the database file exists and
    at least one of the seven options (date, country, product, the two
    lists, the two searches) is given; its message is empty exactly when it
    accepts; and a missing database is reported first, by its path. *)
Theorem X29_validate_args (path_exists : string → bool)
    (args : validators.Namespace) :
  let result := validators.validate_args path_exists args in
  (result.1 = true
   ↔ path_exists (validators.database args) = true
     ∧ (Str.truthy (validators.date args)
        || Str.truthy (validators.country args)
        || Str.truthy (validators.product args)
        || validators.list_countries args
        || validators.list_products args
        || Str.truthy (validators.search_country args)
        || Str.truthy (validators.search_product args)) = true)
  ∧ (result.1 = true ↔ result.2 = EmptyString)
  ∧ (path_exists (validators.database args) = false →
     result
     = (false,
        String.append "Error: Database file '"
          (String.append (validators.database args) "' not found"))).
Proof.
  intros result. subst result. unfold validators.validate_args.
  destruct (path_exists (validators.database args)); cbn [negb existsb fst snd].
  - destruct (Str.truthy (validators.date args)),
      (Str.truthy (validators.country args)),
      (Str.truthy (validators.product args)),
      (validators.list_countries args), (validators.list_products args),
      (Str.truthy (validators.search_country args)),
      (Str.truthy (validators.search_product args));
      cbn [negb orb fst snd]; repeat split; try done; by intros [].
  - repeat split; try done; by intros [].
Qed.

Lemma X29_witness :
  validators.validate_args (λ _, false)
    {| validators.date := Some "2024-12-01"%string;
       validators.country := None; validators.product := None;
       validators.to_csv := false; validators.output := None;
       validators.database := "data/high_tech_2024.db";
       validators.data_dir := "data"; validators.limit := 20;
       validators.list_countries := false; validators.list_products := false;
       validators.search_country := None; validators.search_product := None |}
  = (false,
     String.append "Error: Database file '"
       (String.append "data/high_tech_2024.db" "' not found")).
Proof.
  apply (X29_validate_args (λ _, false)
           {| validators.date := Some "2024-12-01"%string;
              validators.country := None; validators.product := None;
              validators.to_csv := false; validators.output := None;
              validators.database := "data/high_tech_2024.db";
              validators.data_dir := "data"; validators.limit := 20;
              validators.list_countries := false;
              validators.list_products := false;
              validators.search_country := None;
              validators.search_product := None |}).
  reflexivity.
Defined.

(** X30: on the path of [main] that reaches [extract_data] (the arguments
    were accepted by [validate_args] and [handle_list_operations] returned
    [False]) at least one of the three filters is given, so the branch of
    [extract_data] for a call without a filter is not taken: when the names
    that are given resolve, the query is sent. *)
Theorem X30_main_reaches_query {DataFrame : Type}
    (empty_frame : DataFrame) (df_empty : DataFrame → bool)
    (execute_query : string → list param → option DataFrame)
    (_enrich_dataframe : DataFrame → DataFrame)
    (country_codes hs_codes : mapping)
    (path_exists : string → bool) (args : validators.Namespace)
    (error_msg : string) :
  validators.validate_args path_exists args = (true, error_msg) →
  data_extractor.handle_list_operations args = false →
  (Str.truthy (validators.date args) || Str.truthy (validators.country args)
   || Str.truthy (validators.product args)) = true
  ∧ ∀ country_bound product_bound,
      resolves (validators.country args) country_codes "country" country_bound →
      resolves (validators.product args) hs_codes "product" product_bound →
      extract_data DataFrame empty_frame df_empty execute_query
        _enrich_dataframe country_codes hs_codes
        (validators.date args) (validators.country args) (validators.product args)
      = ReturnF DataFrame
          (enriched df_empty _enrich_dataframe
             (execute_query
                (sql_text (Str.truthy (validators.date args))
                   (Str.truthy (validators.country args))
                   (Str.truthy (validators.product args)))
                (date_params (validators.date args)
                 ++ country_bound ++ product_bound))).
Proof.
  intros Hvalid Hlist.
  pose proof (filters_present path_exists args error_msg Hvalid Hlist) as Hsome.
  split; [done|]. intros cb pb Hc Hp. by apply extract_data_resolved.
Qed.

Lemma X30_witness :
  (Str.truthy (Some "2024-12-01"%string) || Str.truthy None || Str.truthy None)
  = true.
Proof.
  apply (X30_main_reaches_query 0 (Nat.eqb 0) (λ _ ps, Some (length ps)) S
           [(792%Z, "Turkey"%string)] [] (λ _, true)
           {| validators.date := Some "2024-12-01"%string;
              validators.country := None; validators.product := None;
              validators.to_csv := false; validators.output := None;
              validators.database := "data/high_tech_2024.db";
              validators.data_dir := "data"; validators.limit := 20;
              validators.list_countries := false;
              validators.list_products := false;
              validators.search_country := None;
              validators.search_product := None |} EmptyString);
    reflexivity.
Defined.
